(** * K-mer clustering core of ADCS2018: distance cache, k-mer index,
      incremental clustering engine and exact medoid search.

    The development embeds the C++ sources under [src/Include] as Rocq
    functions and proves properties of them.

    - machine integers are [Z] (or [nat] for [size_t] counters) with the
      wrap-around of the C++ type written out where the source stores into a
      narrower type;
    - arrays and [std::vector]s are lists, read with stdpp's lookup and
      written with stdpp's insert; the [unordered_map] of the k-mer index is
      a [gmap];
    - a function that can throw returns an outcome that carries the state
      reached when the exception left the function;
    - the OpenMP [parallel for] of the clustering engine, whose iterations
      read and write shared objects, is run under a schedule that lists the
      steps of the iterations in the order in which the threads take them;
      the parallel regions whose threads work on ranges of their own are run
      thread after thread. *)

From Stdlib Require Import ZArith QArith Lia String.
From stdpp Require Import base numbers list gmap.

Local Open Scope Z_scope.

(** ** Integer types *)

(** [Distance] is [uint16_t] (SimilarityMatrix.hpp, without USE_DOUBLE_DIST);
    a store into a [Distance] keeps the low 16 bits. *)
Definition wrap16 (z : Z) : Z := z mod 65536.

(** [numeric_limits<Distance>::max()]. *)
Definition MAX_DIST : Z := 65535.

(** [uint] is a 32-bit unsigned integer. *)
Definition wrap32 (z : Z) : Z := z mod 4294967296.

(** [KmerDistanceCache::CacheType] is [int8_t]; [(CacheType) t] keeps the low
    8 bits, read as a two's complement number. *)
Definition to_int8 (z : Z) : Z := (z + 128) mod 256 - 128.

(** ** Alphabet (Alphabet.hpp) *)

Module Alphabet.

(** Characters are their codes. [tolower] and [toupper] of the C locale. *)
Definition tolower (ch : Z) : Z :=
  if (65 <=? ch) && (ch <=? 90) then ch + 32 else ch.

Definition toupper (ch : Z) : Z :=
  if (97 <=? ch) && (ch <=? 122) then ch - 32 else ch.

(** An alphabet is its [symbols] string; [inverse] is computed from it by the
    constructor. *)
Record Alphabet := { symbols : list Z }.

(** [Alphabet::Size]. *)
Definition Size (a : Alphabet) : Z := Z.of_nat (length (symbols a)).

(** The constructor's loop
    [inverse[tolower(symbols[i])] = (unsigned char) i;
     inverse[toupper(symbols[i])] = (unsigned char) i]
    over the array [unsigned char inverse[128]], first filled with zeros. *)
Definition inverse_step (a : Alphabet) (inv : list Z) (i : nat) : list Z :=
  let ch := symbols a !!! i in
  let inv := <[Z.to_nat (tolower ch) := Z.of_nat i mod 256]> inv in
  <[Z.to_nat (toupper ch) := Z.of_nat i mod 256]> inv.

Definition inverse (a : Alphabet) : list Z :=
  foldl (inverse_step a) (replicate 128 0) (seq 0 (length (symbols a))).

(** [Alphabet::WordsPerKmer]. *)
Definition WordsPerKmer (kmerLength charsPerWord : nat) : nat :=
  ((kmerLength + charsPerWord - 1) / charsPerWord)%nat.

Section Words.

(** [numeric_limits<KmerWord>::max()]. The header that declares [KmerWord]
    (EncodedKmer.hpp) is not part of the sources at hand, so the width of a
    code word is a parameter. *)
Variable KmerWord_max : Z.

(** A store into a [KmerWord]. *)
Definition wrapWord (z : Z) : Z := z mod (KmerWord_max + 1).

(** One iteration of the loop of
    [Alphabet::Encode(const char * s, size_t kmerLength, size_t charsPerWord, EncodedKmer code)];
    the state is the buffer [code] and [wordIndex]. *)
Definition Encode_step (a : Alphabet) (s : list Z) (charsPerWord words : nat)
    (st : list Z * nat) (i : nat) : list Z * nat :=
  let '(code, wordIndex) := st in
  let j := inverse a !!! Z.to_nat (s !!! i) in
  let code := <[wordIndex := wrapWord ((code !!! wordIndex) * Size a + j)]> code in
  if (0 <? i)%nat && (i mod charsPerWord =? charsPerWord - 1)%nat then
    let wordIndex := S wordIndex in
    if (wordIndex <? words)%nat then (<[wordIndex := 0]> code, wordIndex)
    else (code, wordIndex)
  else (code, wordIndex).

(** [Alphabet::Encode] of one k-mer into a buffer of [WordsPerKmer] words. *)
Definition Encode (a : Alphabet) (s : list Z) (kmerLength charsPerWord : nat) : list Z :=
  let words := WordsPerKmer kmerLength charsPerWord in
  let code := <[0%nat := 0]> (replicate words 0) in
  fst (foldl (Encode_step a s charsPerWord words) (code, 0%nat) (seq 0 kmerLength)).

(** The loop of the overload
    [Alphabet::Encode(const char * s, size_t len, size_t kmerLength, size_t charsPerWord, vector<vector<KmerWord>> & code)]
    for [kmerLength > charsPerWord]: the code word of the characters from
    position [i] on is pushed to row [i % charsPerWord]. *)
Definition EncodeRows_step (a : Alphabet) (s : list Z) (charsPerWord : nat)
    (code : list (list Z)) (i : nat) : list (list Z) :=
  let codeWord := Encode a (drop i s) charsPerWord charsPerWord !!! 0%nat in
  alter (fun row => row ++ [codeWord]) (i mod charsPerWord)%nat code.

(** The overload of [Encode] for a whole sequence; [None] when it throws.
    The bounds of the two loops are computed in [size_t]: past the first
    test [len - kmerLength + 1] is [len + 1 - kmerLength], also when [len]
    is [kmerLength - 1], and in the first loop [len] is not less than
    [charsPerWord]. *)
Definition EncodeRows (a : Alphabet) (s : list Z) (len kmerLength charsPerWord : nat)
    : option (list (list Z)) :=
  if (len + 1 <? kmerLength)%nat then None
  else if (charsPerWord <? kmerLength)%nat then
    if negb (kmerLength mod charsPerWord =? 0)%nat then None
    else
      Some (foldl (EncodeRows_step a s charsPerWord) (replicate charsPerWord [])
                  (seq 0 (len - charsPerWord + 1)))
  else
    Some [(fun i => Encode a (drop i s) kmerLength charsPerWord !!! 0%nat)
            <$> seq 0 (len + 1 - kmerLength)].

End Words.

(** State of the loop of
    [Alphabet::Decode(const KmerWord * code, size_t k, size_t charsPerWord, char * charBuffer)]:
    the strings pushed to [t] before the current one, the current string
    [s], the rest [n] of the current word and [wordIndex]. *)
Record DecodeState := {
  dec_t : list (list Z);
  dec_s : list Z;
  dec_n : Z;
  dec_wordIndex : nat
}.

Definition Decode_step (a : Alphabet) (code : list Z) (charsPerWord words : nat)
    (st : DecodeState) (i : nat) : DecodeState :=
  let j := dec_n st mod Size a in
  let n := (dec_n st - j) / Size a in
  let s := (symbols a !!! Z.to_nat j) :: dec_s st in
  if (0 <? i)%nat && (i mod charsPerWord =? charsPerWord - 1)%nat then
    let wordIndex := S (dec_wordIndex st) in
    if (wordIndex <? words)%nat then
      {| dec_t := dec_t st ++ [s]; dec_s := []; dec_n := code !!! wordIndex;
         dec_wordIndex := wordIndex |}
    else
      {| dec_t := dec_t st; dec_s := s; dec_n := n; dec_wordIndex := wordIndex |}
  else
    {| dec_t := dec_t st; dec_s := s; dec_n := n; dec_wordIndex := dec_wordIndex st |}.

(** [Alphabet::Decode]; the result is the content written to [charBuffer]. *)
Definition Decode (a : Alphabet) (code : list Z) (k charsPerWord : nat) : list Z :=
  let words := ((k + charsPerWord - 1) / charsPerWord)%nat in
  let st0 := {| dec_t := []; dec_s := []; dec_n := code !!! 0%nat; dec_wordIndex := 0 |} in
  let st := foldl (Decode_step a code charsPerWord words) st0 (seq 0 k) in
  concat (dec_t st ++ [dec_s st]).

End Alphabet.

(** ** KmerDistanceCache3 (KmerDistanceCache.hpp) *)

Module DistanceCache.

(** The three tables of [KmerDistanceCache3] with their vocabulary sizes.
    A table is the flat [CacheType] array; the cell of the code words [s] and
    [t] is at index [s * vocabSize + t]. *)
Record KmerDistanceCache3 := {
  kmerDistances1 : list Z;
  vocabSize1 : Z;
  kmerDistances2 : list Z;
  vocabSize2 : Z;
  kmerDistances3 : list Z;
  vocabSize3 : Z
}.

(** [table[s * vocabSize + t]]. *)
Definition cell (table : list Z) (vocabSize s t : Z) : Z :=
  table !!! Z.to_nat (s * vocabSize + t).

(** The term added for the remainder chunk:
    [rem == 1 ? kmerDistances1[..] : kmerDistances2[..]]. *)
Definition remTerm (c : KmerDistanceCache3) (rem : nat) (s t : Z) : Z :=
  if (rem =? 1)%nat then cell (kmerDistances1 c) (vocabSize1 c) s t
  else cell (kmerDistances2 c) (vocabSize2 c) s t.

(** The loop [for ( ; i < numThrees; i++ ) dist += kmerDistances3[...]] of
    [GetDistance]; [n] counts the iterations that remain. *)
Fixpoint sumThrees (c : KmerDistanceCache3) (s t : list Z) (n i : nat) (dist : Z) : Z :=
  match n with
  | O => dist
  | S n' =>
      sumThrees c s t n' (S i)
        (wrap16 (dist + cell (kmerDistances3 c) (vocabSize3 c) (s !!! i) (t !!! i)))
  end.

(** [KmerDistanceCache3::GetDistance]. *)
Definition GetDistance (c : KmerDistanceCache3) (sKmerCode tKmerCode : list Z)
    (kmerLength : nat) : Z :=
  let numThrees := (kmerLength / 3)%nat in
  let rem := (kmerLength mod 3)%nat in
  let dist := sumThrees c sKmerCode tKmerCode numThrees 0 0 in
  if (0 <? rem)%nat then
    wrap16 (dist + remTerm c rem (sKmerCode !!! numThrees) (tKmerCode !!! numThrees))
  else dist.

(** The loop of [IsWithin]; [None] is the early [return false]. *)
Fixpoint withinThrees (c : KmerDistanceCache3) (s t : list Z) (threshold : Z)
    (n i : nat) (dist : Z) : option Z :=
  match n with
  | O => Some dist
  | S n' =>
      let dist' := wrap16 (dist + cell (kmerDistances3 c) (vocabSize3 c) (s !!! i) (t !!! i)) in
      if threshold <? dist' then None
      else withinThrees c s t threshold n' (S i) dist'
  end.

(** [KmerDistanceCache3::IsWithin]. The second component is the value of the
    reference parameter [result] when the function returns. *)
Definition IsWithin (c : KmerDistanceCache3) (sKmerCode tKmerCode : list Z)
    (kmerLength : nat) (threshold : Z) (result : Z) : bool * Z :=
  let numThrees := (kmerLength / 3)%nat in
  let rem := (kmerLength mod 3)%nat in
  match withinThrees c sKmerCode tKmerCode threshold numThrees 0 0 with
  | None => (false, result)
  | Some dist =>
      if (0 <? rem)%nat then
        let dist' :=
          wrap16 (dist + remTerm c rem (sKmerCode !!! numThrees) (tKmerCode !!! numThrees)) in
        if threshold <? dist' then (false, result) else (true, dist')
      else (true, dist)
  end.

(** The sum of the looked-up chunk distances as a mathematical integer. *)
Fixpoint exactThrees (c : KmerDistanceCache3) (s t : list Z) (n i : nat) : Z :=
  match n with
  | O => 0
  | S n' =>
      cell (kmerDistances3 c) (vocabSize3 c) (s !!! i) (t !!! i)
      + exactThrees c s t n' (S i)
  end.

Definition exactDistance (c : KmerDistanceCache3) (s t : list Z) (kmerLength : nat) : Z :=
  let numThrees := (kmerLength / 3)%nat in
  let rem := (kmerLength mod 3)%nat in
  exactThrees c s t numThrees 0
  + (if (0 <? rem)%nat then remTerm c rem (s !!! numThrees) (t !!! numThrees) else 0).

(** Every cached chunk distance is non-negative. *)
Definition cache_nonneg (c : KmerDistanceCache3) : Prop :=
  Forall (Z.le 0) (kmerDistances1 c) /\
  Forall (Z.le 0) (kmerDistances2 c) /\
  Forall (Z.le 0) (kmerDistances3 c).

(** ** Construction of the tables (KmerDistanceCache::PrecomputeDistances) *)

Section Precompute.

Variable KmerWord_max : Z.

(** The alphabet and the raw distance function ([RawKmerDistanceFunction],
    called as [dist(x, y, k)] on two character strings) that the cache is
    built from. *)
Variable alphabet : Alphabet.Alphabet.
Variable dist : list Z -> list Z -> nat -> Z.

(** [uint vocabSize = len; for (i = 1; i < charsPerWord; i++) vocabSize *= len]. *)
Definition vocabSizeOf (charsPerWord : nat) : Z :=
  foldl (fun vocabSize _ => wrap32 (vocabSize * Alphabet.Size alphabet))
        (wrap32 (Alphabet.Size alphabet)) (seq 1 (charsPerWord - 1)).

(** [vocab[i]]: the string decoded from the single code word [i]. *)
Definition vocabWord (charsPerWord : nat) (i : nat) : list Z :=
  Alphabet.Decode alphabet [Z.of_nat i] charsPerWord charsPerWord.

(** Body of the inner loop [for (j = 0; j <= i; j++)]: the value is assigned
    to the cell and to its mirror image. [Distance t] holds the 16-bit result
    of the raw function. *)
Definition fillCell (charsPerWord : nat) (vocabSize : Z) (i : nat)
    (table : list Z) (j : nat) : list Z :=
  let t := wrap16 (dist (vocabWord charsPerWord i) (vocabWord charsPerWord j) charsPerWord) in
  let table :=
    <[Z.to_nat (wrap32 (Z.of_nat i * vocabSize + Z.of_nat j)) := to_int8 t]> table in
  <[Z.to_nat (wrap32 (Z.of_nat j * vocabSize + Z.of_nat i)) := to_int8 t]> table.

Definition fillRow (charsPerWord : nat) (vocabSize : Z) (table : list Z) (i : nat) : list Z :=
  foldl (fillCell charsPerWord vocabSize i) table (seq 0 (S i)).

(** [PrecomputeDistances(charsPerWord, kmerDistanceTable, vocabSize_)]:
    [None] when [assert_true] throws, else the table and the vocabulary
    size. The array is allocated with [vocabSize * vocabSize] cells, the
    product being taken in [uint]. *)
Definition PrecomputeDistances (charsPerWord : nat) : option (list Z * Z) :=
  let vocabSize := vocabSizeOf charsPerWord in
  if vocabSize <=? KmerWord_max then
    let table := replicate (Z.to_nat (wrap32 (vocabSize * vocabSize))) 0 in
    Some (foldl (fillRow charsPerWord vocabSize) table (seq 0 (Z.to_nat vocabSize)),
          vocabSize)
  else None.

(** The constructor of [KmerDistanceCache3], which precomputes the tables
    for 1, 2 and 3 characters per word. *)
Definition KmerDistanceCache3_new : option KmerDistanceCache3 :=
  match PrecomputeDistances 1, PrecomputeDistances 2, PrecomputeDistances 3 with
  | Some (t1, v1), Some (t2, v2), Some (t3, v3) =>
      Some {| kmerDistances1 := t1; vocabSize1 := v1;
              kmerDistances2 := t2; vocabSize2 := v2;
              kmerDistances3 := t3; vocabSize3 := v3 |}
  | _, _, _ => None
  end.

(** The lengths of the chunks that a k-mer of length [k] is cut into when it
    is packed at 3 characters per word. *)
Definition chunkLengths (k : nat) : list nat :=
  replicate (k / 3) 3%nat ++ (if (0 <? k mod 3)%nat then [(k mod 3)%nat] else []).

(** The raw distance of chunk [i] of two packed k-mers: the raw function
    applied to the two chunks decoded from the code words at index [i], the
    chunks being [len] characters long. *)
Definition chunkDistance (xCode yCode : list Z) (i len : nat) : Z :=
  dist (Alphabet.Decode alphabet [xCode !!! i] len len)
       (Alphabet.Decode alphabet [yCode !!! i] len len) len.

Definition chunkDistances (xCode yCode : list Z) (k : nat) : list Z :=
  imap (chunkDistance xCode yCode) (chunkLengths k).

(** The naive distance: the raw function summed over the chunks, as a
    mathematical integer. *)
Definition naiveDistance (xCode yCode : list Z) (k : nat) : Z :=
  foldr Z.add 0 (chunkDistances xCode yCode k).

End Precompute.

(** [UngappedEditDistanceFunction]: the number of positions where the two
    strings differ. *)
Definition UngappedEditDistance (x y : list Z) (length : nat) : Z :=
  wrap16 (foldl (fun diffs i => if (x !!! i =? y !!! i) then diffs else diffs + 1)
                0 (seq 0 length)).

(** What the distance functions use of a [SimilarityMatrix]: the scores
    [dict[s][t]] and the largest score [maxValue]. *)
Record SimilarityMatrix := {
  dict : Z -> Z -> Z;
  maxValue : Z
}.

(** [SimilarityMatrix::Similarity(x, y, length)], which sums in a [Distance]. *)
Definition Similarity (m : SimilarityMatrix) (x y : list Z) (length : nat) : Z :=
  foldl (fun score i => wrap16 (score + dict m (x !!! i) (y !!! i))) 0 (seq 0 length).

(** [BlosumDifferenceFunction]: [length * maxValue - Similarity(x, y, length)]. *)
Definition BlosumDifference (m : SimilarityMatrix) (x y : list Z) (length : nat) : Z :=
  wrap16 (Z.of_nat length * maxValue m - Similarity m x y length).

(** [SimilarityMatrix::Similarity(x, length)]: the similarity of a string
    to itself. *)
Definition SelfSimilarity (m : SimilarityMatrix) (x : list Z) (length : nat) : Z :=
  foldl (fun score i => wrap16 (score + dict m (x !!! i) (x !!! i))) 0 (seq 0 length).

(** [SimilarityMatrix::HalperinDistance]; [d] is a [Distance]. *)
Definition HalperinDistance (m : SimilarityMatrix) (x y : list Z) (length : nat) : Z :=
  let d := SelfSimilarity m x length in
  let d := wrap16 (d + SelfSimilarity m y length) in
  wrap16 (d - 2 * Similarity m x y length).

(** [SimilarityMatrix::Difference(x, y, length)]. *)
Definition Difference (m : SimilarityMatrix) (x y : list Z) (length : nat) : Z :=
  wrap16 (Z.of_nat length * maxValue m - Similarity m x y length).

(** The loop of [SimilarityMatrix::IsWithin] from position [i] on, [n]
    iterations remaining; [None] is the early [return false]. *)
Fixpoint matrixWithin (m : SimilarityMatrix) (x y : list Z) (threshold : Z)
    (n i : nat) (dist : Z) : option Z :=
  match n with
  | O => Some dist
  | S n' =>
      let dist' := wrap16 (dist + (maxValue m - dict m (x !!! i) (y !!! i))) in
      if threshold <? dist' then None
      else matrixWithin m x y threshold n' (S i) dist'
  end.

(** [SimilarityMatrix::IsWithin]; the second component is the value of the
    reference parameter [result] when the function returns. *)
Definition Matrix_IsWithin (m : SimilarityMatrix) (x y : list Z) (length : nat)
    (threshold : Z) (result : Z) : bool * Z :=
  match matrixWithin m x y threshold length 0 0 with
  | None => (false, result)
  | Some dist => (true, dist)
  end.

(** ** KmerDistanceCache2 *)

(** The two tables of [KmerDistanceCache2] with their vocabulary sizes. *)
Record KmerDistanceCache2 := {
  c2_kmerDistances1 : list Z;
  c2_vocabSize1 : Z;
  c2_kmerDistances2 : list Z;
  c2_vocabSize2 : Z
}.

(** The loop [for ( i = 0; i < numTwos; i++ ) dist += kmerDistances2[...]]
    of [KmerDistanceCache2::operator()]; [n] counts the iterations that
    remain. *)
Fixpoint sumTwos (c : KmerDistanceCache2) (s t : list Z) (n i : nat) (dist : Z) : Z :=
  match n with
  | O => dist
  | S n' =>
      sumTwos c s t n' (S i)
        (wrap16 (dist + cell (c2_kmerDistances2 c) (c2_vocabSize2 c) (s !!! i) (t !!! i)))
  end.

(** [KmerDistanceCache2::operator()]. *)
Definition Cache2_distance (c : KmerDistanceCache2) (sKmerCode tKmerCode : list Z)
    (kmerLength : nat) : Z :=
  let numTwos := (kmerLength / 2)%nat in
  let rem := (kmerLength mod 2)%nat in
  let dist := sumTwos c sKmerCode tKmerCode numTwos 0 0 in
  if (0 <? rem)%nat then
    wrap16 (dist + cell (c2_kmerDistances1 c) (c2_vocabSize1 c)
                     (sKmerCode !!! numTwos) (tKmerCode !!! numTwos))
  else dist.

(** The loop of [KmerDistanceCache2::IsWithin]; [None] is the early
    [return false]. *)
Fixpoint withinTwos (c : KmerDistanceCache2) (s t : list Z) (threshold : Z)
    (n i : nat) (dist : Z) : option Z :=
  match n with
  | O => Some dist
  | S n' =>
      let dist' :=
        wrap16 (dist + cell (c2_kmerDistances2 c) (c2_vocabSize2 c) (s !!! i) (t !!! i)) in
      if threshold <? dist' then None
      else withinTwos c s t threshold n' (S i) dist'
  end.

(** [KmerDistanceCache2::IsWithin]. *)
Definition Cache2_IsWithin (c : KmerDistanceCache2) (sKmerCode tKmerCode : list Z)
    (kmerLength : nat) (threshold : Z) (result : Z) : bool * Z :=
  let numTwos := (kmerLength / 2)%nat in
  let rem := (kmerLength mod 2)%nat in
  match withinTwos c sKmerCode tKmerCode threshold numTwos 0 0 with
  | None => (false, result)
  | Some dist =>
      if (0 <? rem)%nat then
        let dist' :=
          wrap16 (dist + cell (c2_kmerDistances1 c) (c2_vocabSize1 c)
                           (sKmerCode !!! numTwos) (tKmerCode !!! numTwos)) in
        if threshold <? dist' then (false, result) else (true, dist')
      else (true, dist)
  end.

End DistanceCache.

(** ** Sequences and k-mers (FastaSequence.hpp, Substring.hpp, Kmer.hpp) *)

(** [EncodedFastaSequence]: the characters of the sequence, the two numbers
    that [Encode] stores in the object, and the two codes of the sequence.
    The member [length] is the length of [sequence]: [Sequence(value)] and
    [Pad] keep it so. The identifier, the class labels and the members used
    by the search are left out. *)
Record EncodedFastaSequence := {
  Sequence : list Z;
  fs_charsPerWord : nat;
  fs_kmerLength : nat;
  encoding1 : list (list Z);
  encoding2 : list (list Z)
}.

(** [EncodedFastaSequence::KmerCount]. *)
Definition KmerCount (fasta : EncodedFastaSequence) (K : nat) : nat :=
  if (K <=? length (Sequence fasta))%nat then (length (Sequence fasta) + 1 - K)%nat else 0%nat.

(** [Substring(str, start, length)]: the characters of the window. Equality
    and hash of substrings are those of the characters. *)
Definition Substring (str : list Z) (start length : nat) : list Z :=
  take length (drop start str).

(** An [EncodedKmer] is a pointer into a row of a code: the row from the
    word pointed to on. A null pointer is the empty list, and so is a
    pointer into a row that the code does not have. *)

(** [EncodedFastaSequence::GetEncodedKmer1]: the address of
    [encoding1[0][pos]]. *)
Definition GetEncodedKmer1 (encoding1 : list (list Z)) (pos : nat) : list Z :=
  drop pos (encoding1 !!! 0%nat).

(** [EncodedFastaSequence::GetEncodedKmer2]: the address of
    [encoding2[pos % 2][pos / 2]]. *)
Definition GetEncodedKmer2 (encoding2 : list (list Z)) (pos : nat) : list Z :=
  drop (pos / 2) (encoding2 !!! (pos mod 2)%nat).

(** [EncodedFastaSequence::GetEncodedKmer3]: the address of
    [encoding2[pos % 3][pos / 3]] is the row from that word on. *)
Definition GetEncodedKmer3 (encoding2 : list (list Z)) (pos : nat) : list Z :=
  drop (pos / 3) (encoding2 !!! (pos mod 3)%nat).

(** [EncodedFastaSequence::GetEncodedKmerGeneral]. *)
Definition GetEncodedKmerGeneral (kmerLength charsPerWord : nat) (encoding2 : list (list Z))
    (pos : nat) : list Z :=
  if (kmerLength <=? charsPerWord)%nat then drop pos (encoding2 !!! 0%nat)
  else drop (pos / charsPerWord) (encoding2 !!! (pos mod charsPerWord)%nat).

(** [EncodedFastaSequence::GetEncodedKmer]; [GetEncodedKmerError] returns a
    null pointer. *)
Definition GetEncodedKmer (fasta : EncodedFastaSequence) (pos : nat) : list Z :=
  match fs_charsPerWord fasta with
  | 0%nat => []
  | 1%nat => GetEncodedKmer1 (encoding1 fasta) pos
  | 2%nat => GetEncodedKmer2 (encoding2 fasta) pos
  | 3%nat => GetEncodedKmer3 (encoding2 fasta) pos
  | charsPerWord =>
      GetEncodedKmerGeneral (fs_kmerLength fasta) charsPerWord (encoding2 fasta) pos
  end.

(** [isspace] of the C locale. *)
Definition isspace (ch : Z) : bool := (ch =? 32) || ((9 <=? ch) && (ch <=? 13)).

(** [EncodedFastaSequence::Sequence(const string & value)]: the characters
    of [value] that are neither [-] nor white space. *)
Definition SetSequence (value : list Z) : list Z :=
  filter (fun ch => negb ((ch =? 45) || isspace ch) = true) value.

(** [EncodedFastaSequence::Pad]. *)
Definition Pad (sequence : list Z) (minLength : nat) (padding : Z) : list Z :=
  sequence ++ replicate (minLength - length sequence) padding.

(** The constructor of [EncodedFastaSequence]: it sets the sequence and
    calls [Encode], which pads the sequence to the length of a k-mer and
    computes [encoding1] at one character per word and, when [charsPerWord]
    is more than 1, [encoding2]. [None] stands for the exception that
    [Alphabet::Encode] throws. *)
Definition EncodedFastaSequence_new (KmerWord_max : Z) (alphabet : Alphabet.Alphabet)
    (sequence : list Z) (kmerLength charsPerWord : nat) (defaultSymbol : Z)
    : option EncodedFastaSequence :=
  let sequence := Pad (SetSequence sequence) kmerLength defaultSymbol in
  match Alphabet.EncodeRows KmerWord_max alphabet sequence (length sequence) kmerLength 1 with
  | None => None
  | Some encoding1 =>
      if (1 <? charsPerWord)%nat then
        match Alphabet.EncodeRows KmerWord_max alphabet sequence (length sequence)
                kmerLength charsPerWord with
        | None => None
        | Some encoding2 =>
            Some {| Sequence := sequence; fs_charsPerWord := charsPerWord;
                    fs_kmerLength := kmerLength;
                    encoding1 := encoding1; encoding2 := encoding2 |}
        end
      else
        Some {| Sequence := sequence; fs_charsPerWord := charsPerWord;
                fs_kmerLength := kmerLength;
                encoding1 := encoding1; encoding2 := [] |}
  end.

(** A [Substring] object: the string that [chars] points into, the start of
    the window and its [length]. *)
Record SubstringRef := {
  sub_str : list Z;
  sub_start : nat;
  sub_length : nat
}.

(** The character at index [i] of a C string: the characters of the string
    and the terminating NUL after them. *)
Definition charAt (str : list Z) (i : nat) : Z :=
  if (i <? length str)%nat then str !!! i else 0.

(** [strncmp(a + ia, b + ib, n)] on unsigned characters. *)
Fixpoint strncmp (a b : list Z) (ia ib n : nat) : Z :=
  match n with
  | O => 0
  | S n' =>
      let ca := charAt a ia in
      let cb := charAt b ib in
      if ca =? cb then (if ca =? 0 then 0 else strncmp a b (S ia) (S ib) n')
      else ca - cb
  end.

(** [operator==(const Substring & lhs, const Substring & rhs)]. *)
Definition Substring_eqb (lhs rhs : SubstringRef) : bool :=
  strncmp (sub_str lhs) (sub_str rhs) (sub_start lhs) (sub_start rhs) (sub_length lhs) =? 0.

(** The characters of the window of a [Substring] object. *)
Definition windowText (s : SubstringRef) : list Z :=
  Substring (sub_str s) (sub_start s) (sub_length s).

(** [Kmer::Instance]. The pointer [sequence] is the position of the sequence
    in the data set. *)
Record Instance := {
  sequence : nat;
  kmerPosition : nat
}.

(** [Kmer]. A null [encoding] is the empty list. *)
Record Kmer := {
  substring : list Z;
  instances : list Instance;
  encoding : list Z;
  distanceFromPrototype : Z
}.

(** [Kmer(const Substring & charData)]. *)
Definition Kmer_new (charData : list Z) : Kmer :=
  {| substring := charData; instances := []; encoding := [];
     distanceFromPrototype := MAX_DIST |}.

(** [Kmer::Add(seq, kmerPosition, dist = max)]. *)
Definition Kmer_Add (kmer : Kmer) (seqPtr : nat) (fasta : EncodedFastaSequence)
    (kmerPosition : nat) : Kmer :=
  let instances' := instances kmer ++ [{| sequence := seqPtr; kmerPosition := kmerPosition |}] in
  {| substring := substring kmer;
     instances := instances';
     encoding := if (length instances' =? 1)%nat then GetEncodedKmer fasta kmerPosition
                 else encoding kmer;
     distanceFromPrototype := MAX_DIST |}.

(** [Kmer::DistanceFromPrototype(Distance d)]. *)
Definition setDistanceFromPrototype (kmer : Kmer) (d : Z) : Kmer :=
  {| substring := substring kmer; instances := instances kmer;
     encoding := encoding kmer; distanceFromPrototype := d |}.

(** ** KmerIndex (KmerIndex.hpp) *)

Module KmerIndex.

(** Body of the loop over [kmerPos]: find the substring; insert a new k-mer
    with its first instance, or add the instance to the k-mer found. *)
Definition addKmer (kmerLength seqPtr : nat) (fasta : EncodedFastaSequence)
    (index : gmap (list Z) Kmer) (kmerPos : nat) : gmap (list Z) Kmer :=
  let s := Substring (Sequence fasta) kmerPos kmerLength in
  match index !! s with
  | None => <[s := Kmer_Add (Kmer_new s) seqPtr fasta kmerPos]> index
  | Some kmer => <[s := Kmer_Add kmer seqPtr fasta kmerPos]> index
  end.

(** Body of the loop over the data set. [uint kmerCount] holds the low 32
    bits of the [size_t] that [KmerCount] returns. *)
Definition addSequence (kmerLength : nat) (index : gmap (list Z) Kmer)
    (entry : nat * EncodedFastaSequence) : gmap (list Z) Kmer :=
  let '(seqPtr, fasta) := entry in
  if (length (Sequence fasta) <? kmerLength)%nat then index
  else
    let kmerCount := Z.to_nat (wrap32 (Z.of_nat (KmerCount fasta kmerLength))) in
    foldl (addKmer kmerLength seqPtr fasta) index (seq 0 kmerCount).

(** [KmerIndex(EncodedFastaSequence ** dataset, size_t length, size_t kmerLength)]. *)
Definition KmerIndex_new (dataset : list EncodedFastaSequence) (kmerLength : nat)
    : gmap (list Z) Kmer :=
  foldl (addSequence kmerLength) ∅ (imap pair dataset).

(** [KmerIndex::GetKmers]: the k-mers in the iteration order of the map. *)
Definition GetKmers (index : gmap (list Z) Kmer) : list Kmer :=
  (map_to_list index).*2.

(** The number of instances held by the k-mers of the index. *)
Definition instanceTotal (index : gmap (list Z) Kmer) : nat :=
  sum_list ((fun kmer => length (instances kmer)) <$> GetKmers index).

(** The naive count: the number of start positions of a window of length
    [kmerLength] in a sequence of [len] characters, summed over the data set. *)
Definition windowCount (len kmerLength : nat) : nat :=
  length (filter (fun start => (start + kmerLength <= len)%nat) (seq 0 (S len))).

Definition slidingWindowTotal (dataset : list EncodedFastaSequence) (kmerLength : nat) : nat :=
  sum_list ((fun fasta => windowCount (length (Sequence fasta)) kmerLength) <$> dataset).

End KmerIndex.

(** ** Exact medoid (KMedoids.hpp) *)

Module KMedoids.

(** [unsigned long] is 64 bits wide (LP64). *)
Definition wrap64 (z : Z) : Z := z mod 18446744073709551616.

Section GetMedoid.

(** The distance function object, called as
    [distance(sCode, tCode, kmerLength)]; it returns a [Distance]. *)
Variable distance : list Z -> list Z -> nat -> Z.
Variable kmerCodes : list (list Z).
Variable kmerLength : nat.
Variable kmers : list Kmer.

(** The arrays [allocatedDist] and [allocatedCount]. *)
Record Scratch := {
  allocatedDist : list Z;
  allocatedCount : list Z
}.

(** Body of the inner loop over [j]. *)
Definition accumulate (clusterAssignment : list nat) (candidatePos : nat)
    (sc : Scratch) (j : nat) : Scratch :=
  let comparePos := clusterAssignment !!! j in
  let d := wrap16 (distance (kmerCodes !!! candidatePos) (kmerCodes !!! comparePos) kmerLength) in
  {| allocatedDist :=
       <[candidatePos := wrap64 (allocatedDist sc !!! candidatePos + d)]> (allocatedDist sc);
     allocatedCount :=
       <[candidatePos := wrap32 (allocatedCount sc !!! candidatePos + 1)]> (allocatedCount sc) |}.

(** Body of the first loop over [i]. *)
Definition totalFor (clusterAssignment : list nat) (N_k : nat) (sc : Scratch) (i : nat) : Scratch :=
  let candidatePos := clusterAssignment !!! i in
  let sc := {| allocatedDist := <[candidatePos := 0]> (allocatedDist sc);
               allocatedCount := <[candidatePos := 0]> (allocatedCount sc) |} in
  foldl (accumulate clusterAssignment candidatePos) sc (seq 0 N_k).

(** Body of the second loop over [i]. *)
Definition pickMinimal (clusterAssignment : list nat) (dists : list Z)
    (minimalDistPos : nat) (i : nat) : nat :=
  let candidatePos := clusterAssignment !!! i in
  if dists !!! candidatePos <? dists !!! minimalDistPos then candidatePos
  else minimalDistPos.

(** [KMedoids::GetMedoid]. The result is the scratch arrays and the values
    left in [protoPtr] and [protoCode]; [None] is the null pointer.
    [uint N_k] holds the low 32 bits of the size of [clusterAssignment]. *)
Definition GetMedoid (clusterAssignment : list nat) (sc : Scratch)
    : Scratch * option Kmer * option (list Z) :=
  let N_k := Z.to_nat (wrap32 (Z.of_nat (length clusterAssignment))) in
  if (0 <? N_k)%nat then
    let sc := foldl (totalFor clusterAssignment N_k) sc (seq 0 N_k) in
    let minimalDistPos :=
      foldl (pickMinimal clusterAssignment (allocatedDist sc))
            (clusterAssignment !!! 0%nat) (seq 0 N_k) in
    (sc, kmers !! minimalDistPos, kmerCodes !! minimalDistPos)
  else (sc, None, None).

(** The total distance from the point at [candidatePos] to all the points of
    the assignment, itself included. *)
Definition totalDistance (clusterAssignment : list nat) (candidatePos : nat) : Z :=
  foldr Z.add 0
    ((fun comparePos =>
        wrap16 (distance (kmerCodes !!! candidatePos) (kmerCodes !!! comparePos) kmerLength))
     <$> clusterAssignment).

(** The total distance from the point at position [i] of the assignment to
    the other points of the assignment. *)
Definition totalDistanceToOthers (clusterAssignment : list nat) (i : nat) : Z :=
  foldr Z.add 0
    (imap (fun j comparePos =>
             if (j =? i)%nat then 0
             else wrap16 (distance (kmerCodes !!! (clusterAssignment !!! i))
                                   (kmerCodes !!! comparePos) kmerLength))
          clusterAssignment).

End GetMedoid.

(** ** The assignment step of Partition (KMedoids.hpp) *)

(** [KMedoids::SelectMode]. *)
Inductive SelectMode := SelectGreedy | SelectNearest.

(** [numeric_limits<uint>::max()]. *)
Definition UINT_MAX : Z := 4294967295.

Section Partition.

Variable distance : list Z -> list Z -> nat -> Z.
Variable kmerLength : nat.
Variable threshold : Z.
Variable selectMode : SelectMode.

(** The loop [for ( uint k = 0; k < K; k++ )] of [Partition] over the
    prototype codes from index [k] on; a null code is [None]. The result is
    the values of [nearestProtoPos] and [smallestDistance] after the loop. *)
Fixpoint selectProto (currentCode : list Z) (protoCodes : list (option (list Z))) (k : nat)
    (nearestProtoPos smallestDistance : Z) : Z * Z :=
  match protoCodes with
  | [] => (nearestProtoPos, smallestDistance)
  | None :: rest => selectProto currentCode rest (S k) nearestProtoPos smallestDistance
  | Some protoCode :: rest =>
      let currentDist := wrap16 (distance currentCode protoCode kmerLength) in
      match selectMode with
      | SelectNearest =>
          if currentDist <? smallestDistance
          then selectProto currentCode rest (S k) (Z.of_nat k) currentDist
          else selectProto currentCode rest (S k) nearestProtoPos smallestDistance
      | SelectGreedy =>
          if currentDist <=? threshold then (Z.of_nat k, currentDist)
          else selectProto currentCode rest (S k) nearestProtoPos smallestDistance
      end
  end.

(** The body of the loop over the k-mers: the index of the list of
    [kmersPerCluster] that the k-mer is pushed to, with the distance added
    to [dSumPerCluster], or [None] when the k-mer is not assigned. *)
Definition assignKmer (currentCode : list Z) (protoCodes : list (option (list Z)))
    : option (Z * Z) :=
  let '(nearestProtoPos, smallestDistance) :=
    selectProto currentCode protoCodes 0 UINT_MAX MAX_DIST in
  if smallestDistance <=? threshold then Some (nearestProtoPos, smallestDistance)
  else None.

End Partition.

End KMedoids.

(** ** Incremental clustering (KmerCluster.hpp) *)

Module KmerCluster.

(** [KmerCluster]: the prototype and the k-mers attached to it. The k-mers
    are held by value: [Add] stores a copy of the record. *)
Record Cluster := {
  prototype : Kmer;
  kmers : list Kmer
}.

(** [KmerCluster(prototype, expectedSize, distanceFunction)]. *)
Definition Cluster_new (proto : Kmer) : Cluster :=
  {| prototype := proto; kmers := [] |}.

(** [KmerCluster::AddParallel(const KmerType & kmer)]. *)
Definition AddParallel (kmer : Kmer) (c : Cluster) : Cluster :=
  {| prototype := prototype c; kmers := kmers c ++ [kmer] |}.

(** [Exception(message, file, line)]. *)
Record Exception := { message : string }.

Definition NoClustersRequested : Exception :=
  {| message := "clusters.size() == 0 && requestedClusterCount == 0" |}.

(** How a call ends: it returns, or an exception leaves it. Both carry the
    state that the caller finds in the objects passed by reference. *)
Inductive Outcome (S : Type) : Type :=
  | Returned (s : S)
  | Thrown (e : Exception) (s : S).
Arguments Returned {S} s.
Arguments Thrown {S} e s.

(** A value of [UniformRealRandom::operator()]: a number in the half-open
    unit interval, given as [draw_num / (draw_num + draw_rest + 1)]. *)
Record UnitDraw := {
  draw_num : nat;
  draw_rest : nat
}.

(** [(size_t) (rand() * range)]. *)
Definition scaleDraw (u : UnitDraw) (range : nat) : nat :=
  ((draw_num u * range) / (draw_num u + draw_rest u + 1))%nat.

#[global] Instance Kmer_inhabited : Inhabited Kmer := populate (Kmer_new []).

(** [std::swap(kmers[i], kmers[j])]. *)
Definition swap {A} `{!Inhabited A} (l : list A) (i j : nat) : list A :=
  <[i := l !!! j]> (<[j := l !!! i]> l).

(** Start of the range of thread [threadId]: [threadId * N / numThreads];
    its end is the start of the next thread's range. *)
Definition bandStart (numThreads N threadId : nat) : nat :=
  (threadId * N / numThreads)%nat.

Section Engine.

(** The word length [K], the threshold (a [double] in the source, compared
    with the integer distances), the distance function object
    [symbolCodeDist(kmerEncoding, prototypeEncoding, K)], which returns a
    [Distance], the callback [createPrototype] followed by [SingletonKmer()],
    and the successive values of the random number generator. *)
Variable K : nat.
Variable threshold : Q.
Variable symbolCodeDist : list Z -> list Z -> nat -> Z.
Variable createPrototype : Kmer -> Kmer.
Variable rand : nat -> UnitDraw.

(** [dist <= threshold]. *)
Definition within (dist : Z) : bool := Qle_bool (inject_Z dist) threshold.

(** The distance of a k-mer code to the prototype of a cluster. *)
Definition distToPrototype (kmerEncoding : list Z) (c : Cluster) : Z :=
  wrap16 (symbolCodeDist kmerEncoding (encoding (prototype c)) K).

(** The loop [for (j = firstClusterIndex; j < clusters.size(); j++)] over
    the clusters from index [j] on: the first cluster within the threshold
    and the distance to it. *)
Fixpoint scanClusters (cs : list Cluster) (j : nat) (kmerEncoding : list Z)
    : option (nat * Z) :=
  match cs with
  | [] => None
  | c :: cs' =>
      let dist := distToPrototype kmerEncoding c in
      if within dist then Some (j, dist)
      else scanClusters cs' (S j) kmerEncoding
  end.

Definition findAttractor (clusters : list Cluster) (firstClusterIndex : nat)
    (kmerEncoding : list Z) : option (nat * Z) :=
  scanClusters (drop firstClusterIndex clusters) firstClusterIndex kmerEncoding.

(** The seeding loop: one new cluster for each of the k-mers at
    [first .. first + wanted - 1]. *)
Definition seedClusters (clusters : list Cluster) (allKmers : list Kmer)
    (first wanted : nat) : list Cluster :=
  foldl (fun cs i => cs ++ [Cluster_new (createPrototype (allKmers !!! i))])
        clusters (seq first wanted).

(** *** The global variant *)

(** The objects that [DoIncrementalClusteringParallel] works on by
    reference. The array [allKmers] holds pointers to the records of the
    index; every record is pointed to once, so that between two calls the
    array is given by the records in the order of their pointers. *)
Record State := {
  clusters : list Cluster;
  allKmers : list Kmer;
  firstUnallocIndex : nat
}.

(** The scan loop is an OpenMP [parallel for]: its iterations are handed to
    the threads of a team, and the steps of iterations that run on different
    threads interleave. The threads share the clusters, the k-mer records,
    the array [kmers] of pointers to the records, and [firstUnallocIndex]. A
    pointer to a record is the index that the record has in the array when
    the loop starts. *)
Record Shared := {
  sh_clusters : list Cluster;
  sh_records : list Kmer;
  sh_kmers : list nat;
  sh_firstUnallocIndex : nat
}.

(** How far an iteration of the loop has come. From one of these points to
    the next the body reads or writes the shared objects once: it reads
    [kmers[i]] into [kmer]; it reads [kmers[i]] again for the code of the
    k-mer and searches the clusters, whose prototypes no thread writes; it
    stores the distance in the record [*kmer]; it copies that record to the
    attractor, under the lock of the cluster; and it swaps and counts under
    the critical section. *)
Inductive Progress :=
  | AtStart
  | HasKmer (kmer : nat)
  | HasAttractor (kmer attractor : nat) (attractorDistance : Z)
  | HasDistance (kmer attractor : nat)
  | HasAdded
  | Finished.

(** The next step of iteration [i]. *)
Definition stepBody (firstClusterIndex i : nat) (p : Progress) (sh : Shared)
    : Progress * Shared :=
  match p with
  | AtStart => (HasKmer (sh_kmers sh !!! i), sh)
  | HasKmer kmer =>
      let kmerEncoding := encoding (sh_records sh !!! (sh_kmers sh !!! i)) in
      match findAttractor (sh_clusters sh) firstClusterIndex kmerEncoding with
      | Some (j, attractorDistance) => (HasAttractor kmer j attractorDistance, sh)
      | None => (Finished, sh)
      end
  | HasAttractor kmer j attractorDistance =>
      (HasDistance kmer j,
       {| sh_clusters := sh_clusters sh;
          sh_records := alter (fun r => setDistanceFromPrototype r attractorDistance) kmer
                              (sh_records sh);
          sh_kmers := sh_kmers sh;
          sh_firstUnallocIndex := sh_firstUnallocIndex sh |})
  | HasDistance kmer j =>
      (HasAdded,
       {| sh_clusters := alter (AddParallel (sh_records sh !!! kmer)) j (sh_clusters sh);
          sh_records := sh_records sh;
          sh_kmers := sh_kmers sh;
          sh_firstUnallocIndex := sh_firstUnallocIndex sh |})
  | HasAdded =>
      let f := sh_firstUnallocIndex sh in
      (Finished,
       {| sh_clusters := sh_clusters sh;
          sh_records := sh_records sh;
          sh_kmers := if (f <? i)%nat then swap (sh_kmers sh) f i else sh_kmers sh;
          sh_firstUnallocIndex := S f |})
  | Finished => (Finished, sh)
  end.

(** One entry of a schedule: the thread that runs iteration [i] takes its
    next step. [first] is the index of the first iteration and [team] holds
    the progress of the iterations from [first] on. An entry for an index
    that is not an iteration of the loop changes nothing, and neither does
    an entry for an iteration that is finished. *)
Definition tick (firstClusterIndex first : nat) (acc : list Progress * Shared) (i : nat)
    : list Progress * Shared :=
  let '(team, sh) := acc in
  if (first <=? i)%nat then
    match team !! (i - first)%nat with
    | Some p =>
        let '(p', sh') := stepBody firstClusterIndex i p sh in
        (<[(i - first)%nat := p']> team, sh')
    | None => acc
    end
  else acc.

(** The schedule of a team of one thread: the five steps of each iteration
    in the order of the index. *)
Definition inOrder (first n : nat) : list nat :=
  mjoin ((fun i => replicate 5 i) <$> seq first n).

(** The scan loop [for ( size_t i = firstUnallocIndex; i < kmers.size(); i++ )]
    under the schedule [sched]. The bounds of the loop are read when the
    loop is entered. The steps are taken as [sched] lists them; the
    iterations that [sched] leaves unfinished are then completed in the
    order of the index. So every list is the schedule of a whole execution,
    every interleaving of the steps of the iterations is the execution of
    some list, and the empty list is the execution by one thread. *)
Definition scan (sched : list nat) (firstClusterIndex : nat) (st : State) : State :=
  let N := length (allKmers st) in
  let first := firstUnallocIndex st in
  let sh := {| sh_clusters := clusters st; sh_records := allKmers st;
               sh_kmers := seq 0 N; sh_firstUnallocIndex := first |} in
  let sh' := snd (foldl (tick firstClusterIndex first) (replicate (N - first) AtStart, sh)
                        (sched ++ inOrder first (N - first))) in
  {| clusters := sh_clusters sh';
     allKmers := (fun kmer => sh_records sh' !!! kmer) <$> sh_kmers sh';
     firstUnallocIndex := sh_firstUnallocIndex sh' |}.

(** An iteration whose five steps are taken without a step of another
    iteration in between, seen on the array of records: the body of
    [if ( attractor )] stores the distance in the k-mer, copies the k-mer to
    the cluster, and swaps the k-mer to the front of the unallocated range. *)
Definition assign (st : State) (i j : nat) (attractorDistance : Z) : State :=
  let kmer := setDistanceFromPrototype (allKmers st !!! i) attractorDistance in
  let kmers1 := <[i := kmer]> (allKmers st) in
  let f := firstUnallocIndex st in
  {| clusters := alter (AddParallel kmer) j (clusters st);
     allKmers := if (f <? i)%nat then swap kmers1 f i else kmers1;
     firstUnallocIndex := S f |}.

Definition scanOne (firstClusterIndex : nat) (st : State) (i : nat) : State :=
  match findAttractor (clusters st) firstClusterIndex (encoding (allKmers st !!! i)) with
  | Some (j, attractorDistance) => assign st i j attractorDistance
  | None => st
  end.

(** [DoIncrementalClusteringParallel] with one shared [firstUnallocIndex];
    [sched] is the schedule of its scan loop. *)
Definition DoIncrementalClusteringParallel (sched : list nat)
    (requestedClusterCount firstClusterIndex : nat)
    (st : State) : Outcome State :=
  if (length (clusters st) =? 0)%nat && (requestedClusterCount =? 0)%nat then
    Thrown NoClustersRequested st
  else
    let clusters1 :=
      if (0 <? requestedClusterCount)%nat then
        let available := (length (allKmers st) - firstUnallocIndex st)%nat in
        let wanted := Nat.min requestedClusterCount available in
        seedClusters (clusters st) (allKmers st) (firstUnallocIndex st) wanted
      else clusters st in
    Returned (scan sched firstClusterIndex
                {| clusters := clusters1; allKmers := allKmers st;
                   firstUnallocIndex := firstUnallocIndex st |}).

(** The self-distance test [selfMatchDistance > threshold]. *)
Definition selfMatchTooFar (kmer : Kmer) : bool :=
  negb (within (wrap16 (symbolCodeDist (encoding kmer) (encoding kmer) K))).

(** Body of the set-up loop of the global variant. *)
Definition filterOne (acc : list Kmer * nat) (i : nat) : list Kmer * nat :=
  let '(allKmers, firstUnallocIndex) := acc in
  if selfMatchTooFar (allKmers !!! i) then
    if (firstUnallocIndex <? i)%nat then
      (swap allKmers i firstUnallocIndex, S firstUnallocIndex)
    else acc
  else acc.

(** The indices that the set-up loop of the global variant visits: its body
    ends with [i++] and so does its header, so [i] runs over 0, 2, 4, ... *)
Definition filterIndices (N : nat) : list nat :=
  (fun q => (2 * q)%nat) <$> seq 0 ((N + 1) / 2).

(** The shuffle loop over [first .. last - 1]; iteration [i] takes the next
    value of the generator. [calls] is the number of values taken before. *)
Definition shuffleOne (first last calls : nat) (allKmers : list Kmer) (i : nat) : list Kmer :=
  let newLoc := (first + scaleDraw (rand (calls + (i - first))) (last - first))%nat in
  swap allKmers i newLoc.

Definition shuffle (first last calls : nat) (allKmers : list Kmer) : list Kmer :=
  foldl (shuffleOne first last calls) allKmers (seq first (last - first)).

(** The [while ( firstUnallocIndex < N )] loop of the global variant.
    [fuel] bounds the number of passes and [None] means that it ran out;
    [scheds] holds the schedules of the scan loops of the passes, and a pass
    without a schedule is run by one thread. Beside the outcome the function
    returns the values of [firstUnallocIndex] that the loop has seen: the
    value on entry and the value after each pass. *)
Fixpoint passLoop (clusterIncrement N fuel increment firstClusterIndex : nat)
    (scheds : list (list nat)) (st : State) : option (list nat * Outcome State) :=
  if (firstUnallocIndex st <? N)%nat then
    match fuel with
    | O => None
    | S fuel' =>
        let previous := firstUnallocIndex st in
        match DoIncrementalClusteringParallel (hd [] scheds) increment firstClusterIndex st with
        | Thrown e st' => Some ([previous], Thrown e st')
        | Returned st' =>
            if (firstUnallocIndex st' =? previous)%nat then
              Some ([previous; firstUnallocIndex st'], Returned st')
            else
              match passLoop clusterIncrement N fuel' clusterIncrement
                             (length (clusters st')) (tl scheds) st' with
              | Some (counts, o) => Some (previous :: counts, o)
              | None => None
              end
        end
    end
  else Some ([firstUnallocIndex st], Returned st).

(** The state when the pass loop of the global variant is entered. *)
Definition setup (kmerIndex : list Kmer) (clusters0 : list Cluster) : State :=
  let N := length kmerIndex in
  let '(allKmers1, firstUnallocIndex1) :=
    foldl filterOne (kmerIndex, 0%nat) (filterIndices N) in
  {| clusters := clusters0;
     allKmers := shuffle firstUnallocIndex1 N 0 allKmers1;
     firstUnallocIndex := firstUnallocIndex1 |}.

(** [DoExhaustiveIncrementalClustering], global variant. [kmerIndex] is the
    list [kmerIndex.GetKmers()] and [scheds] holds the schedules of the scan
    loops of the passes. The first function returns the counts seen by the
    pass loop with the outcome. *)
Definition DoExhaustiveIncrementalClustering_fuel (scheds : list (list nat)) (fuel : nat)
    (kmerIndex : list Kmer) (clusterIncrement : nat) (clusters0 : list Cluster)
    : option (list nat * Outcome State) :=
  let N := length kmerIndex in
  let st := setup kmerIndex clusters0 in
  let increment := if (0 <? length clusters0)%nat then 0%nat else clusterIncrement in
  passLoop clusterIncrement N fuel increment 0 scheds st.

Definition DoExhaustiveIncrementalClustering (scheds : list (list nat)) (kmerIndex : list Kmer)
    (clusterIncrement : nat) (clusters0 : list Cluster) : option (Outcome State) :=
  snd <$> DoExhaustiveIncrementalClustering_fuel scheds (S (length kmerIndex)) kmerIndex
            clusterIncrement clusters0.

(** *** The banded variant *)

(** In the banded variant [firstUnallocIndex] is a vector with one entry for
    each thread. *)
Record BandedState := {
  b_clusters : list Cluster;
  b_allKmers : list Kmer;
  b_firstUnallocIndex : list nat
}.

(** The body of [if ( attractor )] in the banded variant. *)
Definition assign_banded (st : BandedState) (threadId i j : nat) (attractorDistance : Z)
    : BandedState :=
  let kmer := setDistanceFromPrototype (b_allKmers st !!! i) attractorDistance in
  let kmers1 := <[i := kmer]> (b_allKmers st) in
  let f := b_firstUnallocIndex st !!! threadId in
  let clusters' := alter (AddParallel kmer) j (b_clusters st) in
  if (f <? i)%nat then
    {| b_clusters := clusters'; b_allKmers := swap kmers1 f i;
       b_firstUnallocIndex := <[threadId := S f]> (b_firstUnallocIndex st) |}
  else
    {| b_clusters := clusters'; b_allKmers := kmers1;
       b_firstUnallocIndex := b_firstUnallocIndex st |}.

Definition scanOne_banded (firstClusterIndex threadId : nat) (st : BandedState) (i : nat)
    : BandedState :=
  match findAttractor (b_clusters st) firstClusterIndex (encoding (b_allKmers st !!! i)) with
  | Some (j, attractorDistance) => assign_banded st threadId i j attractorDistance
  | None => st
  end.

(** The loop that thread [threadId] runs in the parallel region. *)
Definition scanBand (numThreads firstClusterIndex : nat) (st : BandedState) (threadId : nat)
    : BandedState :=
  let endIdx := bandStart numThreads (length (b_allKmers st)) (S threadId) in
  let first := b_firstUnallocIndex st !!! threadId in
  foldl (scanOne_banded firstClusterIndex threadId) st (seq first (endIdx - first)).

(** The parallel region with a team of [numThreads] threads. Each thread
    reads and writes its own range of [allKmers], the records that its range
    points to and its own entry of [firstUnallocIndex], and it reads the
    prototypes of the clusters, which no thread writes. The threads meet
    only where they append to the same cluster, under the lock of the
    cluster. So the threads are run one after the other: the array and the
    high-water marks at the end are those of every execution, and the list
    of members of a cluster is that of every execution but for the order of
    the members that different threads have appended. *)
Definition scan_banded (numThreads firstClusterIndex : nat) (st : BandedState) : BandedState :=
  foldl (scanBand numThreads firstClusterIndex) st (seq 0 numThreads).

(** The seeding loop of the banded variant for one thread. *)
Definition seedBand (numThreads requestedClusterCount : nat) (allKmers : list Kmer)
    (firstUnallocIndex : list nat) (clusters : list Cluster) (threadId : nat) : list Cluster :=
  let endIdx := bandStart numThreads (length allKmers) (S threadId) in
  let available := (endIdx - firstUnallocIndex !!! threadId)%nat in
  let desired := (S threadId * requestedClusterCount / numThreads
                  - threadId * requestedClusterCount / numThreads)%nat in
  let wanted := Nat.min desired available in
  seedClusters clusters allKmers (firstUnallocIndex !!! threadId) wanted.

(** [DoIncrementalClusteringParallel] with a range for each thread. *)
Definition DoIncrementalClusteringParallel_banded
    (requestedClusterCount firstClusterIndex numThreads : nat)
    (st : BandedState) : Outcome BandedState :=
  if (length (b_clusters st) =? 0)%nat && (requestedClusterCount =? 0)%nat then
    Thrown NoClustersRequested st
  else
    let clusters1 :=
      if (0 <? requestedClusterCount)%nat then
        foldl (seedBand numThreads requestedClusterCount (b_allKmers st)
                 (b_firstUnallocIndex st))
              (b_clusters st) (seq 0 numThreads)
      else b_clusters st in
    Returned (scan_banded numThreads firstClusterIndex
                {| b_clusters := clusters1; b_allKmers := b_allKmers st;
                   b_firstUnallocIndex := b_firstUnallocIndex st |}).

(** [GetUnallocated], which returns the number of allocated k-mers. *)
Definition GetUnallocated (numThreads N : nat) (firstUnallocIndex : list nat) : nat :=
  foldl (fun numAllocated i =>
           (numAllocated + (firstUnallocIndex !!! i - bandStart numThreads N i))%nat)
        0%nat (seq 0 numThreads).

(** Body of the set-up loop of the banded variant. *)
Definition filterOne_banded (threadId : nat) (acc : list Kmer * list nat) (i : nat)
    : list Kmer * list nat :=
  let '(allKmers, firstUnallocIndex) := acc in
  let f := firstUnallocIndex !!! threadId in
  if selfMatchTooFar (allKmers !!! i) then
    if (f <? i)%nat then (swap allKmers i f, <[threadId := S f]> firstUnallocIndex)
    else acc
  else acc.

(** The set-up that thread [threadId] runs: it sets its high-water mark to
    the start of its range, moves the k-mers that are too far from
    themselves, and shuffles the rest of the range. [calls] counts the values
    taken from the generator. *)
Definition setupBand (numThreads N : nat) (acc : list Kmer * list nat * nat) (threadId : nat)
    : list Kmer * list nat * nat :=
  let '(allKmers, firstUnallocIndex, calls) := acc in
  let beginIdx := bandStart numThreads N threadId in
  let endIdx := bandStart numThreads N (S threadId) in
  let firstUnallocIndex := <[threadId := beginIdx]> firstUnallocIndex in
  let '(allKmers, firstUnallocIndex) :=
    foldl (filterOne_banded threadId) (allKmers, firstUnallocIndex)
          (seq beginIdx (endIdx - beginIdx)) in
  let f := firstUnallocIndex !!! threadId in
  (shuffle f endIdx calls allKmers, firstUnallocIndex, (calls + (endIdx - f))%nat).

(** The state when the pass loop of the banded variant is entered. *)
Definition setup_banded (numThreads : nat) (kmerIndex : list Kmer) (clusters0 : list Cluster)
    : BandedState :=
  let N := length kmerIndex in
  let '(allKmers, firstUnallocIndex, _) :=
    foldl (setupBand numThreads N) (kmerIndex, replicate numThreads 0%nat, 0%nat)
          (seq 0 numThreads) in
  {| b_clusters := clusters0; b_allKmers := allKmers;
     b_firstUnallocIndex := firstUnallocIndex |}.

(** The [while ( numAllocated < N )] loop of the banded variant. Beside the
    outcome the function returns the values of [numAllocated] that the loop
    has seen: the value on entry and the value after each pass. *)
Fixpoint passLoop_banded (clusterIncrement numThreads N fuel increment firstClusterIndex : nat)
    (st : BandedState) : option (list nat * Outcome BandedState) :=
  let numAllocated := GetUnallocated numThreads N (b_firstUnallocIndex st) in
  if (numAllocated <? N)%nat then
    match fuel with
    | O => None
    | S fuel' =>
        let previous := numAllocated in
        match DoIncrementalClusteringParallel_banded increment firstClusterIndex numThreads st with
        | Thrown e st' => Some ([previous], Thrown e st')
        | Returned st' =>
            let numAllocated' := GetUnallocated numThreads N (b_firstUnallocIndex st') in
            if (numAllocated' =? previous)%nat then
              Some ([previous; numAllocated'], Returned st')
            else
              match passLoop_banded clusterIncrement numThreads N fuel' clusterIncrement
                                    (length (b_clusters st')) st' with
              | Some (counts, o) => Some (previous :: counts, o)
              | None => None
              end
        end
    end
  else Some ([numAllocated], Returned st).

(** [DoExhaustiveIncrementalClustering], banded variant. The first
    function returns the counts seen by the pass loop with the outcome. *)
Definition DoExhaustiveIncrementalClustering_banded_fuel (fuel : nat) (kmerIndex : list Kmer)
    (clusterIncrement : nat) (clusters0 : list Cluster) (numThreads : nat)
    : option (list nat * Outcome BandedState) :=
  let N := length kmerIndex in
  let st := setup_banded numThreads kmerIndex clusters0 in
  let increment := if (0 <? length clusters0)%nat then 0%nat else clusterIncrement in
  passLoop_banded clusterIncrement numThreads N fuel increment 0 st.

Definition DoExhaustiveIncrementalClustering_banded (kmerIndex : list Kmer)
    (clusterIncrement : nat) (clusters0 : list Cluster) (numThreads : nat)
    : option (Outcome BandedState) :=
  snd <$> DoExhaustiveIncrementalClustering_banded_fuel (S (length kmerIndex)) kmerIndex
            clusterIncrement clusters0 numThreads.

End Engine.

(** The schedules of a run of the global variant in which one thread runs
    the scan loop of every pass. *)
Definition oneThread : list (list nat) := [].

(** *** Counting and distributing the k-mers of a cluster *)

(** [size_t] is a 64-bit unsigned integer and [int] a 32-bit signed one. *)
Definition wrap_size_t (z : Z) : Z := z mod 18446744073709551616.

Definition to_int (z : Z) : Z := (z + 2147483648) mod 4294967296 - 2147483648.

(** [KmerCluster::Size]. *)
Definition Cluster_Size (c : Cluster) : Z :=
  foldl (fun total k => wrap_size_t (total + Z.of_nat (length (instances k)))) 0 (kmers c).

(** [KmerCluster::InstanceCount]: [std::accumulate] with the initial value
    [0], an [int], keeps its running value in an [int]; the lambda takes it
    as a [size_t] and returns a [size_t]. *)
Definition InstanceCount (c : Cluster) : Z :=
  wrap_size_t
    (foldl (fun accumulated kmer =>
              to_int (wrap_size_t (wrap_size_t accumulated
                                   + Z.of_nat (length (instances kmer)))))
           0 (kmers c)).

(** [KmerCluster::AllocateKmersToThreads]: the pointer [&kmers[i]] is the
    index [i]. The function takes the number of k-mers of the cluster and
    the value of [kmersPerThread] before the call. *)
Definition AllocateKmersToThreads (numThreads size : nat) (kmersPerThread : list (list nat))
    : list (list nat) :=
  foldl (fun perThread i => alter (fun l => l ++ [i]) (i mod numThreads)%nat perThread)
        (resize numThreads [] kmersPerThread) (seq 0 size).

End KmerCluster.

(** ** Serial numbers of prototypes (KmerClusterPrototype.hpp) *)

Module Prototype.

(** [KmerClusterPrototype::largestSerialNumber(latest)]: the value returned
    and the new value of the static variable [value]. *)
Definition largestSerialNumber (latest value : Z) : Z * Z :=
  let value' := if value <? latest then latest else value in
  (value', value').

(** The constructor [KmerClusterPrototype(kmerWord, alphabet, wordLength,
    charsPerWord)]: the number in the id, which is
    [largestSerialNumber(largestSerialNumber() + 1)], the [serialNumber],
    which is [largestSerialNumber()], and the new value of the static
    variable. *)
Definition newPrototype (value : Z) : Z * Z * Z :=
  let '(current, value) := largestSerialNumber 0 value in
  let '(idNumber, value) :=
    largestSerialNumber (KmerCluster.wrap_size_t (current + 1)) value in
  let '(serialNumber, value) := largestSerialNumber 0 value in
  (idNumber, serialNumber, value).

(** [n] prototypes made one after the other: the numbers in their ids, their
    serial numbers, and the value of the static variable at the end. *)
Fixpoint newPrototypes (n : nat) (value : Z) : list (Z * Z) * Z :=
  match n with
  | O => ([], value)
  | S n' =>
      let '(idNumber, serialNumber, value) := newPrototype value in
      let '(rest, value) := newPrototypes n' value in
      ((idNumber, serialNumber) :: rest, value)
  end.

End Prototype.

(** ** Concrete data used in the examples *)

Module Examples.

Import Alphabet DistanceCache.

(** The alphabet of the two symbols [a] and [b]. *)
Definition ab : Alphabet := {| symbols := [97; 98] |}.

(** A custom similarity matrix over [a] and [b]: 42 for equal symbols and 0
    for different ones. *)
Definition matrix42 : SimilarityMatrix :=
  {| dict := fun s t => if s =? t then 42 else 0; maxValue := 42 |}.

(** A custom similarity matrix that is not symmetric: [a] scores 1 against
    [b], but [b] scores 0 against [a]. *)
Definition skewMatrix : SimilarityMatrix :=
  {| dict := fun s t => if (s =? 98) && (t =? 97) then 0 else 1; maxValue := 1 |}.

(** The cache of [BlosumDifference matrix42] over [ab], as the constructor
    computes it with 16-bit code words (see [cache42_built]). *)
Definition cache42 : KmerDistanceCache3 :=
  Eval vm_compute in
    match KmerDistanceCache3_new 65535 ab (BlosumDifference matrix42) with
    | Some c => c
    | None => {| kmerDistances1 := []; vocabSize1 := 0; kmerDistances2 := []; vocabSize2 := 0;
                 kmerDistances3 := []; vocabSize3 := 0 |}
    end.

(** The sequence object that the constructor builds from a string over
    [ab] for k-mers of length 1 at one character per word, with 16-bit code
    words and the default symbol [x] (see [smallDataset_built]). *)
Definition fastaOf (s : list Z) : EncodedFastaSequence :=
  match EncodedFastaSequence_new 65535 ab s 1 1 120 with
  | Some fasta => fasta
  | None => {| Sequence := []; fs_charsPerWord := 0; fs_kmerLength := 0;
               encoding1 := []; encoding2 := [] |}
  end.

(** Three sequences over [a] and [b]; the second is shorter than the
    2-mers that are taken from them. *)
Definition smallDataset : list EncodedFastaSequence :=
  Eval vm_compute in [fastaOf [97; 98; 97; 98; 97]; fastaOf [97]; fastaOf [98; 97; 98]].

(** A sequence of 2^32 characters [a], as the constructor builds it over
    [ab] for k-mers of length 1 at one character per word (see
    [hugeSequence_built]). *)
Definition hugeLength : nat := Z.to_nat 4294967296.

Definition hugeSequence : EncodedFastaSequence :=
  {| Sequence := replicate hugeLength 97; fs_charsPerWord := 1; fs_kmerLength := 1;
     encoding1 := [replicate hugeLength 0]; encoding2 := [] |}.

(** The alphabet of [a], [b] and [c] and a similarity matrix over it in
    which [a] scores 1 against itself, [b] and [c] score 11 against
    themselves, [a] scores 10 against [b] and [c], and [b] scores 6 against
    [c]. *)
Definition abc : Alphabet := {| symbols := [97; 98; 99] |}.

Definition matrixABC : SimilarityMatrix :=
  {| dict := fun s t =>
       if s =? t then (if s =? 97 then 1 else 11)
       else if (s =? 97) || (t =? 97) then 10 else 6;
     maxValue := 11 |}.

(** The 1-mers [a], [b] and [c]: their codes and their records. *)
Definition codesABC : list (list Z) := [[0]; [1]; [2]].

Definition kmersABC : list Kmer := Kmer_new <$> [[97]; [98]; [99]].

(** The distance of two 1-mer codes under [BlosumDifference matrixABC]. *)
Definition distanceABC (x y : list Z) (k : nat) : Z :=
  BlosumDifference matrixABC (Decode abc x k 3) (Decode abc y k 3) k.

Definition scratchABC : KMedoids.Scratch :=
  {| KMedoids.allocatedDist := [0; 0; 0]; KMedoids.allocatedCount := [0; 0; 0] |}.

(** The records of the 1-mers [a], [b] and [c], each with one instance, and
    packed one symbol to the word over [abc]. *)
Definition kmerOf (ch code : Z) : Kmer :=
  {| substring := [ch];
     instances := [{| sequence := 0; kmerPosition := 0 |}];
     encoding := [code];
     distanceFromPrototype := MAX_DIST |}.

Definition kmerA : Kmer := kmerOf 97 0.
Definition kmerB : Kmer := kmerOf 98 1.
Definition kmerC : Kmer := kmerOf 99 2.

(** A [createPrototype] callback: the singleton k-mer of a new prototype
    sequence with the text of the k-mer, encoded like the k-mer. *)
Definition freshPrototype (kmer : Kmer) : Kmer :=
  {| substring := substring kmer;
     instances := [{| sequence := 0; kmerPosition := 0 |}];
     encoding := encoding kmer;
     distanceFromPrototype := MAX_DIST |}.

(** A similarity matrix over [abc] in which every symbol scores 11 against
    itself, [b] scores 9 against [c], and [a] scores 0 against [b] and [c];
    and the distance of two 1-mer codes under its [BlosumDifference]: 0 from
    a 1-mer to itself, 2 between [b] and [c], 11 between [a] and the others. *)
Definition matrixBC : SimilarityMatrix :=
  {| dict := fun s t =>
       if s =? t then 11
       else if (s =? 97) || (t =? 97) then 0 else 9;
     maxValue := 11 |}.

Definition distanceBC (x y : list Z) (k : nat) : Z :=
  BlosumDifference matrixBC (Decode abc x k 3) (Decode abc y k 3) k.

(** Two schedules of a scan loop over the indices 0, 1 and 2 for a team of
    two threads, of which the first runs the iterations 0 and 1 and the
    second the iteration 2. In the first schedule the second thread runs its
    iteration to the end before the first thread starts. In the second
    schedule the first thread reads [kmers[0]] into [kmer], then the second
    thread runs its iteration to the end, then the first thread goes on. *)
Definition scheduleLastFirst : list nat := [2; 2; 2; 2; 2]%nat.

Definition scheduleReadThenOvertaken : list nat := [0; 2; 2; 2; 2; 2]%nat.

(** A generator that always returns 0. *)
Definition rand0 (call : nat) : KmerCluster.UnitDraw :=
  {| KmerCluster.draw_num := 0; KmerCluster.draw_rest := 0 |}.

(** A state of the banded variant with two threads over [b], [c], [a], in
    which the first thread has allocated [b]. *)
Definition bandedExample : KmerCluster.BandedState :=
  {| KmerCluster.b_clusters := [KmerCluster.Cluster_new (freshPrototype kmerB)];
     KmerCluster.b_allKmers := [kmerB; kmerC; kmerA];
     KmerCluster.b_firstUnallocIndex := [1%nat; 1%nat] |}.

(** The cache of [BlosumDifference skewMatrix] over [ab], as the
    constructor computes it with 16-bit code words (see [cacheSkew_built]). *)
Definition cacheSkew : KmerDistanceCache3 :=
  Eval vm_compute in
    match KmerDistanceCache3_new 65535 ab (BlosumDifference skewMatrix) with
    | Some c => c
    | None => {| kmerDistances1 := []; vocabSize1 := 0; kmerDistances2 := []; vocabSize2 := 0;
                 kmerDistances3 := []; vocabSize3 := 0 |}
    end.

(** The sequence [abbabaab] and its code at 3 characters per word for
    6-mers (see [rowsAB_built]). *)
Definition sequenceAB : list Z := [97; 98; 98; 97; 98; 97; 97; 98].

Definition rowsAB : list (list Z) :=
  Eval vm_compute in
    match EncodeRows 65535 ab sequenceAB (length sequenceAB) 6 3 with
    | Some code => code
    | None => []
    end.

(** The sequence object that the constructor builds from [abbabaab] for
    6-mers at 3 characters per word (see [fastaAB_built]), and the record of
    the 6-mer [bbabaa] in the index of that sequence (see [recordAB_found]). *)
Definition fastaAB : EncodedFastaSequence :=
  Eval vm_compute in
    match EncodedFastaSequence_new 65535 ab sequenceAB 6 3 120 with
    | Some fasta => fasta
    | None => {| Sequence := []; fs_charsPerWord := 0; fs_kmerLength := 0;
                 encoding1 := []; encoding2 := [] |}
    end.

Definition recordAB : Kmer :=
  Eval vm_compute in
    match KmerIndex.KmerIndex_new [fastaAB] 6 !! [98; 98; 97; 98; 97; 97] with
    | Some kmer => kmer
    | None => Kmer_new []
    end.

End Examples.

(** * Properties *)

Import Alphabet DistanceCache KmerIndex KMedoids KmerCluster Examples.

(** ** Integer types *)

Lemma wrap16_small z : 0 <= z <= MAX_DIST -> wrap16 z = z.
Proof. unfold wrap16, MAX_DIST. intros. apply Z.mod_small. lia. Qed.

Lemma wrap16_range z : 0 <= wrap16 z <= MAX_DIST.
Proof. unfold wrap16, MAX_DIST. pose proof (Z.mod_pos_bound z 65536). lia. Qed.

Lemma wrap16_add_l a b : wrap16 (wrap16 a + b) = wrap16 (a + b).
Proof. unfold wrap16. apply Zplus_mod_idemp_l. Qed.

Lemma wrap32_small z : 0 <= z < 4294967296 -> wrap32 z = z.
Proof. unfold wrap32. intros. apply Z.mod_small. lia. Qed.

Lemma to_int8_small z : -128 <= z <= 127 -> to_int8 z = z.
Proof. unfold to_int8. intros. rewrite Z.mod_small by lia. lia. Qed.

(** ** GetDistance and IsWithin *)

Section CacheLookups.

Variable c : KmerDistanceCache3.
Hypothesis c_nonneg : cache_nonneg c.

Lemma lookup_total_nonneg (table : list Z) (i : nat) :
  Forall (Z.le 0) table -> 0 <= table !!! i.
Proof.
  intros Hall. rewrite list_lookup_total_alt.
  destruct (table !! i) as [x|] eqn:Hx; simpl; [|done].
  eapply Forall_lookup_1 in Hall; eauto.
Qed.

Lemma cell3_nonneg s t : 0 <= cell (kmerDistances3 c) (vocabSize3 c) s t.
Proof. apply lookup_total_nonneg, c_nonneg. Qed.

Lemma remTerm_nonneg rem s t : 0 <= remTerm c rem s t.
Proof.
  unfold remTerm. destruct c_nonneg as (H1 & H2 & _).
  destruct (rem =? 1)%nat; by apply lookup_total_nonneg.
Qed.

Lemma exactThrees_nonneg s t n i : 0 <= exactThrees c s t n i.
Proof.
  revert i. induction n as [|n IH]; intros i; simpl; [lia|].
  pose proof (cell3_nonneg (s !!! i) (t !!! i)). specialize (IH (S i)). lia.
Qed.

(** Without overflow the loop of [GetDistance] adds the exact sum. *)
Lemma sumThrees_exact s t n i dist :
  0 <= dist -> dist + exactThrees c s t n i <= MAX_DIST ->
  sumThrees c s t n i dist = dist + exactThrees c s t n i.
Proof.
  revert i dist. induction n as [|n IH]; intros i dist Hd Hle; simpl in *; [lia|].
  pose proof (cell3_nonneg (s !!! i) (t !!! i)) as Hc.
  pose proof (exactThrees_nonneg s t n (S i)) as He.
  rewrite wrap16_small by lia. rewrite IH by lia. lia.
Qed.

(** The loop of [IsWithin] returns early exactly when the exact sum is
    above the threshold. *)
Lemma withinThrees_exact s t threshold n i dist :
  0 <= dist -> dist + exactThrees c s t n i <= MAX_DIST -> dist <= threshold ->
  withinThrees c s t threshold n i dist =
    if dist + exactThrees c s t n i <=? threshold
    then Some (dist + exactThrees c s t n i) else None.
Proof.
  revert i dist. induction n as [|n IH]; intros i dist Hd Hle Hthr; simpl in *.
  - rewrite Z.add_0_r. destruct (Z.leb_spec dist threshold); [reflexivity|lia].
  - pose proof (cell3_nonneg (s !!! i) (t !!! i)) as Hc.
    pose proof (exactThrees_nonneg s t n (S i)) as He.
    rewrite wrap16_small by lia.
    destruct (Z.ltb_spec threshold (dist + cell (kmerDistances3 c) (vocabSize3 c) (s !!! i) (t !!! i))).
    + destruct (Z.leb_spec (dist + (cell (kmerDistances3 c) (vocabSize3 c) (s !!! i) (t !!! i)
                                    + exactThrees c s t n (S i))) threshold); [lia|done].
    + rewrite IH by lia. by rewrite Z.add_assoc.
Qed.

End CacheLookups.

(** C6 (amended). When every cached chunk distance is non-negative and the
    sum of the chunk distances does not exceed the largest [Distance],
    [IsWithin] returns true exactly when [GetDistance] is at most the
    threshold; it then stores that distance in [result], and otherwise
    leaves [result] as it was. *)
Theorem IsWithin_agrees_with_GetDistance (c : KmerDistanceCache3) (s t : list Z)
    (k : nat) (threshold result : Z) :
  cache_nonneg c -> 0 <= threshold -> exactDistance c s t k <= MAX_DIST ->
  IsWithin c s t k threshold result =
    if GetDistance c s t k <=? threshold then (true, GetDistance c s t k)
    else (false, result).
Proof.
  intros Hc Hthr Hsum. unfold IsWithin, GetDistance, exactDistance in *.
  set (n := (k / 3)%nat) in *. set (rem := (k mod 3)%nat) in *.
  pose proof (exactThrees_nonneg c Hc s t n 0) as He.
  pose proof (remTerm_nonneg c Hc rem (s !!! n) (t !!! n)) as Hr.
  assert (exactThrees c s t n 0 <= MAX_DIST) as Hle.
  { destruct (0 <? rem)%nat; lia. }
  rewrite (withinThrees_exact c Hc) by lia.
  rewrite (sumThrees_exact c Hc) by lia.
  rewrite !Z.add_0_l.
  destruct (0 <? rem)%nat eqn:Hrem.
  - cbv zeta. rewrite wrap16_small by lia.
    destruct (Z.leb_spec (exactThrees c s t n 0) threshold) as [Hin|Hout].
    + rewrite wrap16_small by lia.
      destruct (Z.ltb_spec threshold (exactThrees c s t n 0 + remTerm c rem (s !!! n) (t !!! n)));
        destruct (Z.leb_spec (exactThrees c s t n 0 + remTerm c rem (s !!! n) (t !!! n)) threshold);
        try lia; done.
    + destruct (Z.leb_spec (exactThrees c s t n 0 + remTerm c rem (s !!! n) (t !!! n)) threshold);
        [lia|done].
  - destruct (Z.leb_spec (exactThrees c s t n 0) threshold); done.
Qed.

Lemma cache42_built :
  KmerDistanceCache3_new 65535 ab (BlosumDifference matrix42) = Some cache42.
Proof. by vm_compute. Qed.

Lemma cache42_nonneg : cache_nonneg cache42.
Proof. repeat split; apply (bool_decide_unpack _); by vm_compute. Qed.

(** C6, witness: the k-mers [aaab] and [abab] at threshold 100. *)
Lemma IsWithin_agrees_with_GetDistance_witness :
  IsWithin cache42 [0; 1] [2; 1] 4 100 0 =
    if GetDistance cache42 [0; 1] [2; 1] 4 <=? 100
    then (true, GetDistance cache42 [0; 1] [2; 1] 4) else (false, 0).
Proof.
  apply IsWithin_agrees_with_GetDistance.
  - exact cache42_nonneg.
  - lia.
  - by vm_compute.
Defined.

(** C6 as stated fails for long k-mers: with 521 chunks that are 126 apart
    each, the 16-bit sum of [GetDistance] wraps around to 110, which is
    below the threshold 200, but [IsWithin] has returned false after the
    second chunk. All cached distances are non-negative. *)
Lemma IsWithin_differs_from_GetDistance_on_overflow :
  cache_nonneg cache42 /\
  GetDistance cache42 (replicate 521 0) (replicate 521 7) 1563 <= 200 /\
  IsWithin cache42 (replicate 521 0) (replicate 521 7) 1563 200 0 = (false, 0).
Proof.
  split; [exact cache42_nonneg|]. split; [by vm_compute|by vm_compute].
Qed.

(** ** The entry check of DoIncrementalClusteringParallel *)

(** C10. Both overloads throw when the list of clusters is empty and no
    cluster is requested, and the state the caller finds is the state that
    was passed in; in every other case the call returns. In the global
    variant this holds whatever the schedule of the scan loop. *)
Theorem entry_check_throws_before_any_change (K : nat) (threshold : Q)
    (symbolCodeDist : list Z -> list Z -> nat -> Z) (createPrototype : Kmer -> Kmer)
    (sched : list nat) (requestedClusterCount firstClusterIndex numThreads : nat)
    (st : State) (bst : BandedState) :
  (length (clusters st) = 0%nat /\ requestedClusterCount = 0%nat ->
   DoIncrementalClusteringParallel K threshold symbolCodeDist createPrototype sched
     requestedClusterCount firstClusterIndex st = Thrown NoClustersRequested st) /\
  (~ (length (clusters st) = 0%nat /\ requestedClusterCount = 0%nat) ->
   exists st', DoIncrementalClusteringParallel K threshold symbolCodeDist createPrototype sched
     requestedClusterCount firstClusterIndex st = Returned st') /\
  (length (b_clusters bst) = 0%nat /\ requestedClusterCount = 0%nat ->
   DoIncrementalClusteringParallel_banded K threshold symbolCodeDist createPrototype
     requestedClusterCount firstClusterIndex numThreads bst = Thrown NoClustersRequested bst) /\
  (~ (length (b_clusters bst) = 0%nat /\ requestedClusterCount = 0%nat) ->
   exists bst', DoIncrementalClusteringParallel_banded K threshold symbolCodeDist createPrototype
     requestedClusterCount firstClusterIndex numThreads bst = Returned bst').
Proof.
  unfold DoIncrementalClusteringParallel, DoIncrementalClusteringParallel_banded.
  repeat split.
  - intros [-> ->]. done.
  - intros Hno.
    destruct (length (clusters st)) as [|n]; destruct requestedClusterCount as [|r];
      simpl; eauto. by destruct Hno.
  - intros [-> ->]. done.
  - intros Hno.
    destruct (length (b_clusters bst)) as [|n]; destruct requestedClusterCount as [|r];
      simpl; eauto. by destruct Hno.
Qed.

(** ** The k-mer index *)

Lemma sum_list_Permutation (l1 l2 : list nat) : l1 ≡ₚ l2 -> sum_list l1 = sum_list l2.
Proof. induction 1; simpl; lia. Qed.

Definition instanceCountOf (entries : list (list Z * Kmer)) : nat :=
  sum_list ((fun kmer => length (instances kmer)) <$> entries.*2).

Lemma instanceCountOf_cons s kmer entries :
  instanceCountOf ((s, kmer) :: entries)
  = (length (instances kmer) + instanceCountOf entries)%nat.
Proof. reflexivity. Qed.

Lemma instanceCountOf_Permutation l1 l2 :
  l1 ≡ₚ l2 -> instanceCountOf l1 = instanceCountOf l2.
Proof. intros H. unfold instanceCountOf. apply sum_list_Permutation. by rewrite H. Qed.

Lemma instanceTotal_insert_fresh (index : gmap (list Z) Kmer) s kmer :
  index !! s = None ->
  instanceTotal (<[s := kmer]> index) = (length (instances kmer) + instanceTotal index)%nat.
Proof.
  intros Hs. unfold instanceTotal, GetKmers.
  change (instanceCountOf (map_to_list (<[s:=kmer]> index))
          = (length (instances kmer) + instanceCountOf (map_to_list index))%nat).
  rewrite (instanceCountOf_Permutation _ _ (map_to_list_insert index s kmer Hs)).
  apply instanceCountOf_cons.
Qed.

Lemma instanceTotal_insert_found (index : gmap (list Z) Kmer) s kmer kmer' :
  index !! s = Some kmer ->
  (instanceTotal (<[s := kmer']> index) + length (instances kmer))%nat
  = (length (instances kmer') + instanceTotal index)%nat.
Proof.
  intros Hs.
  rewrite <-(insert_delete_eq index s kmer').
  rewrite instanceTotal_insert_fresh by apply lookup_delete_eq.
  change (instanceTotal index) with (instanceCountOf (map_to_list index)).
  change (instanceTotal (delete s index))
    with (instanceCountOf (map_to_list (delete s index))).
  rewrite <-(instanceCountOf_Permutation _ _ (map_to_list_delete index s kmer Hs)).
  rewrite instanceCountOf_cons. lia.
Qed.

(** Every window adds one instance to the index. *)
Lemma addKmer_instanceTotal kmerLength seqPtr fasta index kmerPos :
  instanceTotal (addKmer kmerLength seqPtr fasta index kmerPos) = S (instanceTotal index).
Proof.
  unfold addKmer.
  destruct (index !! Substring (Sequence fasta) kmerPos kmerLength) as [kmer|] eqn:Hs.
  - pose proof (instanceTotal_insert_found index _ kmer
                  (Kmer_Add kmer seqPtr fasta kmerPos) Hs) as H.
    simpl in H. rewrite length_app in H. simpl in H. lia.
  - rewrite instanceTotal_insert_fresh by done. simpl. lia.
Qed.

Lemma addKmers_instanceTotal kmerLength seqPtr fasta index positions :
  instanceTotal (foldl (addKmer kmerLength seqPtr fasta) index positions)
  = (instanceTotal index + length positions)%nat.
Proof.
  revert index. induction positions as [|p ps IH]; intros index; simpl; [lia|].
  rewrite IH, addKmer_instanceTotal. lia.
Qed.

(** The naive window count in closed form. *)
Lemma windowCount_prefix len kmerLength n :
  length (filter (fun start => (start + kmerLength <= len)%nat) (seq 0 n))
  = Nat.min n (len + 1 - kmerLength).
Proof.
  induction n as [|n IH]; [done|].
  rewrite seq_S, filter_app, length_app, IH.
  rewrite filter_cons, filter_nil.
  case_decide; cbn [length]; lia.
Qed.

Lemma windowCount_eq len kmerLength :
  windowCount len kmerLength
  = if (kmerLength <=? len)%nat then (len + 1 - kmerLength)%nat else 0%nat.
Proof.
  unfold windowCount. rewrite windowCount_prefix.
  destruct (Nat.leb_spec kmerLength len); lia.
Qed.

Lemma KmerCount_windowCount fasta kmerLength :
  KmerCount fasta kmerLength = windowCount (length (Sequence fasta)) kmerLength.
Proof. unfold KmerCount. by rewrite windowCount_eq. Qed.

Lemma addSequence_instanceTotal kmerLength index seqPtr fasta :
  Z.of_nat (windowCount (length (Sequence fasta)) kmerLength) < 4294967296 ->
  instanceTotal (addSequence kmerLength index (seqPtr, fasta))
  = (instanceTotal index + windowCount (length (Sequence fasta)) kmerLength)%nat.
Proof.
  intros Hfit. unfold addSequence.
  destruct (Nat.ltb_spec (length (Sequence fasta)) kmerLength) as [Hshort|Hlong].
  - rewrite windowCount_eq. destruct (Nat.leb_spec kmerLength (length (Sequence fasta))); lia.
  - rewrite addKmers_instanceTotal, length_seq, KmerCount_windowCount.
    rewrite wrap32_small by lia. lia.
Qed.

Lemma slidingWindowTotal_cons fasta dataset kmerLength :
  slidingWindowTotal (fasta :: dataset) kmerLength
  = (windowCount (length (Sequence fasta)) kmerLength
     + slidingWindowTotal dataset kmerLength)%nat.
Proof. reflexivity. Qed.

Lemma addSequences_instanceTotal kmerLength (entries : list (nat * EncodedFastaSequence)) index :
  Forall (fun fasta => Z.of_nat (windowCount (length (Sequence fasta)) kmerLength) < 4294967296)
         entries.*2 ->
  instanceTotal (foldl (addSequence kmerLength) index entries)
  = (instanceTotal index + slidingWindowTotal entries.*2 kmerLength)%nat.
Proof.
  revert index. induction entries as [|[seqPtr fasta] entries IH]; intros index Hfit.
  - change (slidingWindowTotal ([] : list (nat * EncodedFastaSequence)).*2 kmerLength)
      with 0%nat. simpl. lia.
  - rewrite fmap_cons in Hfit. apply Forall_cons in Hfit as [Hfasta Hrest].
    cbn [foldl]. rewrite IH by done. rewrite addSequence_instanceTotal by done.
    rewrite fmap_cons, slidingWindowTotal_cons. simpl. lia.
Qed.

Lemma imap_snd {A B} (f : nat -> B) (l : list A) : (imap (fun i x => (f i, x)) l).*2 = l.
Proof.
  revert f. induction l as [|x l IH]; intros f; simpl; [done|].
  f_equal. apply (IH (f ∘ S)).
Qed.

Lemma imap_pair_snd {A} (l : list A) : (imap pair l).*2 = l.
Proof. apply (imap_snd id). Qed.

(** C7 (amended). When every sequence has fewer than 2^32 windows of length
    [kmerLength], the instance lists of the k-mers of the index hold as many
    instances as there are window positions in the data set; a sequence
    shorter than [kmerLength] has no window and leaves the index as it is. *)
Theorem KmerIndex_instance_total (dataset : list EncodedFastaSequence) (kmerLength : nat) :
  Forall (fun fasta => Z.of_nat (windowCount (length (Sequence fasta)) kmerLength) < 4294967296)
         dataset ->
  instanceTotal (KmerIndex_new dataset kmerLength) = slidingWindowTotal dataset kmerLength /\
  (forall index seqPtr fasta,
     (length (Sequence fasta) < kmerLength)%nat ->
     addSequence kmerLength index (seqPtr, fasta) = index /\
     windowCount (length (Sequence fasta)) kmerLength = 0%nat).
Proof.
  intros Hfit. split.
  - unfold KmerIndex_new. rewrite addSequences_instanceTotal.
    + rewrite imap_pair_snd. unfold instanceTotal, GetKmers.
      by rewrite map_to_list_empty.
    + by rewrite imap_pair_snd.
  - intros index seqPtr fasta Hshort. split.
    + unfold addSequence. destruct (Nat.ltb_spec (length (Sequence fasta)) kmerLength); [done|lia].
    + rewrite windowCount_eq. destruct (Nat.leb_spec kmerLength (length (Sequence fasta))); lia.
Qed.

Lemma smallDataset_built :
  Forall2 (fun s fasta => EncodedFastaSequence_new 65535 ab s 1 1 120 = Some fasta)
          [[97; 98; 97; 98; 97]; [97]; [98; 97; 98]] smallDataset.
Proof. repeat constructor. Qed.

(** C7, witness: the 2-mers of [ababa], [a] and [bab]. *)
Lemma KmerIndex_instance_total_witness :
  instanceTotal (KmerIndex_new smallDataset 2) = slidingWindowTotal smallDataset 2.
Proof.
  refine (proj1 (KmerIndex_instance_total smallDataset 2 _)).
  repeat constructor.
Defined.


Lemma SetSequence_replicate (n : nat) (ch : Z) :
  negb ((ch =? 45) || isspace ch) = true -> SetSequence (replicate n ch) = replicate n ch.
Proof.
  intros Hch. unfold SetSequence. induction n as [|n IH]; [done|].
  cbn [replicate]. rewrite filter_cons_True by done. by rewrite IH.
Qed.

Lemma Encode_first_a (s : list Z) :
  s !!! 0%nat = 97 -> Encode 65535 ab s 1 1 !!! 0%nat = 0.
Proof.
  intros Hs. unfold Encode. cbn [seq foldl]. unfold Encode_step. rewrite Hs. by vm_compute.
Qed.

(** The sequence object that the constructor builds from a run of [a]. *)
Lemma EncodedFastaSequence_new_run_of_a (n : nat) :
  (0 < n)%nat ->
  EncodedFastaSequence_new 65535 ab (replicate n 97) 1 1 120
  = Some {| Sequence := replicate n 97; fs_charsPerWord := 1; fs_kmerLength := 1;
            encoding1 := [replicate n 0]; encoding2 := [] |}.
Proof.
  intros Hn. unfold EncodedFastaSequence_new.
  rewrite SetSequence_replicate by done.
  unfold Pad. rewrite length_replicate.
  replace (1 - n)%nat with 0%nat by lia. cbn [replicate]. rewrite app_nil_r.
  rewrite length_replicate. unfold EncodeRows.
  destruct (Nat.ltb_spec (n + 1) 1) as [Hlt|_]; [lia|].
  change (1 <? 1)%nat with false. cbn match.
  replace (n + 1 - 1)%nat with n by lia.
  assert ((fun i => Encode 65535 ab (drop i (replicate n 97)) 1 1 !!! 0%nat) <$> seq 0 n
          = replicate n 0) as ->; [|done].
  apply list_eq. intros i. rewrite list_lookup_fmap.
  destruct (decide (i < n)%nat) as [Hi|Hi].
  - rewrite lookup_seq_lt by done. rewrite lookup_replicate_2 by done. cbn [fmap option_fmap option_map].
    f_equal. apply Encode_first_a. rewrite drop_replicate.
    replace (n - (0 + i))%nat with (S (n - i - 1)) by lia. reflexivity.
  - rewrite lookup_seq_ge by lia. symmetry. apply lookup_replicate_None. lia.
Qed.

Lemma hugeSequence_built :
  EncodedFastaSequence_new 65535 ab (replicate hugeLength 97) 1 1 120 = Some hugeSequence.
Proof. apply EncodedFastaSequence_new_run_of_a. unfold hugeLength. lia. Qed.

Lemma hugeLength_Z : Z.of_nat hugeLength = 4294967296.
Proof. unfold hugeLength. lia. Qed.

(** C7 as stated fails for a sequence of 2^32 characters: its count of
    1-mers is 2^32, of which [uint kmerCount] keeps 0, so that the index
    stays empty. *)
Lemma KmerIndex_misses_windows_of_huge_sequence :
  instanceTotal (KmerIndex_new [hugeSequence] 1) = 0%nat /\
  Z.of_nat (slidingWindowTotal [hugeSequence] 1) = 4294967296.
Proof.
  pose proof hugeLength_Z as HZ.
  assert (length (Sequence hugeSequence) = hugeLength) as Hlen.
  { unfold hugeSequence. cbn [Sequence]. apply length_replicate. }
  split.
  - unfold KmerIndex_new. cbn [imap foldl]. unfold addSequence.
    rewrite Hlen.
    destruct (Nat.ltb_spec hugeLength 1) as [Hlt|_]; [lia|].
    unfold KmerCount. rewrite Hlen.
    destruct (Nat.leb_spec 1 hugeLength) as [_|Hlt]; [|lia].
    replace (Z.of_nat (hugeLength + 1 - 1)) with 4294967296 by lia.
    change (Z.to_nat (wrap32 4294967296)) with 0%nat.
    reflexivity.
  - rewrite slidingWindowTotal_cons, Hlen, windowCount_eq.
    destruct (Nat.leb_spec 1 hugeLength) as [_|Hlt]; [|lia].
    change (slidingWindowTotal [] 1) with 0%nat. lia.
Qed.

(** ** The exact medoid *)

Section MedoidFacts.

Variable distance : list Z -> list Z -> nat -> Z.
Variable kmerCodes : list (list Z).
Variable kmerLength : nat.
Variable kmers : list Kmer.

(** The distance that the inner loop adds for the pair of positions. *)
Definition pairDistance (candidatePos comparePos : nat) : Z :=
  wrap16 (distance (kmerCodes !!! candidatePos) (kmerCodes !!! comparePos) kmerLength).

(** The sum of the first [n] distances from [candidatePos]. *)
Definition partialTotal (ca : list nat) (candidatePos n : nat) : Z :=
  foldr Z.add 0 (pairDistance candidatePos <$> take n ca).

Lemma pairDistance_range candidatePos comparePos :
  0 <= pairDistance candidatePos comparePos <= 65535.
Proof. apply wrap16_range. Qed.

Lemma partialTotal_bounds ca candidatePos n :
  0 <= partialTotal ca candidatePos n <= 65535 * Z.of_nat n.
Proof.
  unfold partialTotal. revert n. induction ca as [|p ca IH]; intros n.
  - rewrite take_nil. simpl. lia.
  - destruct n as [|n]; [simpl; lia|].
    rewrite firstn_cons, fmap_cons. cbn [foldr].
    specialize (IH n). pose proof (pairDistance_range candidatePos p). lia.
Qed.

Lemma partialTotal_S ca candidatePos n :
  (n < length ca)%nat ->
  partialTotal ca candidatePos (S n)
  = partialTotal ca candidatePos n + pairDistance candidatePos (ca !!! n).
Proof.
  unfold partialTotal. revert n. induction ca as [|p ca IH]; intros n Hn; simpl in Hn; [lia|].
  destruct n as [|n].
  - rewrite take_0, firstn_cons, take_0, fmap_cons. simpl. lia.
  - rewrite !firstn_cons, !fmap_cons. cbn [foldr]. rewrite (IH n) by lia.
    change ((p :: ca) !!! S n) with (ca !!! n). lia.
Qed.

Lemma partialTotal_all ca candidatePos :
  partialTotal ca candidatePos (length ca)
  = totalDistance distance kmerCodes kmerLength ca candidatePos.
Proof. unfold partialTotal, totalDistance. by rewrite firstn_all. Qed.

Lemma wrap64_small z : 0 <= z < 18446744073709551616 -> wrap64 z = z.
Proof. unfold wrap64. intros. apply Z.mod_small. lia. Qed.

Lemma accumulate_allocatedDist ca candidatePos sc j :
  allocatedDist (accumulate distance kmerCodes kmerLength ca candidatePos sc j)
  = <[candidatePos := wrap64 (allocatedDist sc !!! candidatePos
                              + pairDistance candidatePos (ca !!! j))]> (allocatedDist sc).
Proof. reflexivity. Qed.

(** The inner loop leaves the sum of the distances in the cell of the
    candidate and changes no other cell. *)
Lemma accumulate_loop ca candidatePos sc n :
  (n <= length ca)%nat -> Z.of_nat (length ca) < 4294967296 ->
  (candidatePos < length (allocatedDist sc))%nat ->
  allocatedDist sc !!! candidatePos = 0 ->
  allocatedDist (foldl (accumulate distance kmerCodes kmerLength ca candidatePos) sc (seq 0 n))
  = <[candidatePos := partialTotal ca candidatePos n]> (allocatedDist sc).
Proof.
  intros Hn Hsmall Hin Hzero. induction n as [|n IH].
  - simpl. unfold partialTotal. rewrite take_0. simpl.
    rewrite <-Hzero. symmetry. apply list_insert_id.
    by apply list_lookup_lookup_total_lt.
  - rewrite seq_S, foldl_app, Nat.add_0_l. cbn [foldl]. rewrite accumulate_allocatedDist.
    rewrite IH by lia. rewrite list_insert_insert_eq.
    rewrite list_lookup_total_insert_eq by done.
    rewrite partialTotal_S by lia.
    rewrite wrap64_small; [done|].
    pose proof (partialTotal_bounds ca candidatePos n).
    pose proof (pairDistance_range candidatePos (ca !!! n)). lia.
Qed.

Lemma totalFor_allocatedDist ca sc i :
  Z.of_nat (length ca) < 4294967296 ->
  (ca !!! i < length (allocatedDist sc))%nat ->
  allocatedDist (totalFor distance kmerCodes kmerLength ca (length ca) sc i)
  = <[ca !!! i := totalDistance distance kmerCodes kmerLength ca (ca !!! i)]> (allocatedDist sc).
Proof.
  intros Hsmall Hin. unfold totalFor.
  rewrite accumulate_loop; simpl; try lia.
  - by rewrite list_insert_insert_eq, partialTotal_all.
  - by rewrite length_insert.
  - by rewrite list_lookup_total_insert_eq.
Qed.

(** After the first loop the cell of every candidate visited holds its
    total distance. *)
Lemma totals_loop ca sc m :
  Z.of_nat (length ca) < 4294967296 ->
  Forall (fun p => (p < length (allocatedDist sc))%nat) ca ->
  (m <= length ca)%nat ->
  let sc' := foldl (totalFor distance kmerCodes kmerLength ca (length ca)) sc (seq 0 m) in
  length (allocatedDist sc') = length (allocatedDist sc) /\
  forall i, (i < m)%nat ->
    allocatedDist sc' !!! (ca !!! i)
    = totalDistance distance kmerCodes kmerLength ca (ca !!! i).
Proof.
  intros Hsmall Hin. induction m as [|m IH]; intros Hm sc'.
  - split; [done|]. intros i Hi. lia.
  - subst sc'. rewrite seq_S, foldl_app, Nat.add_0_l. cbn [foldl].
    destruct IH as [Hlen Hval]; [lia|].
    assert (ca !!! m < length (allocatedDist sc))%nat as Hcm.
    { eapply Forall_lookup_1 in Hin; [exact Hin|]. apply list_lookup_lookup_total_lt. lia. }
    rewrite totalFor_allocatedDist by (done || lia).
    simpl in Hlen.
    split; [by rewrite length_insert|].
    intros i Hi. destruct (decide (ca !!! i = ca !!! m)) as [Heq|Hne].
    + rewrite Heq. rewrite list_lookup_total_insert_eq; [done|]. by rewrite Hlen.
    + rewrite list_lookup_total_insert_ne by done. apply Hval.
      destruct (decide (i = m)) as [->|]; [done|lia].
Qed.

(** The second loop keeps a candidate that no visited candidate beats. *)
Lemma pickMinimal_loop ca dists m :
  (0 < length ca)%nat -> (m <= length ca)%nat ->
  let best := foldl (pickMinimal ca dists) (ca !!! 0%nat) (seq 0 m) in
  (exists p, (p < length ca)%nat /\ best = ca !!! p) /\
  forall i, (i < m)%nat -> dists !!! best <= dists !!! (ca !!! i).
Proof.
  intros Hpos. induction m as [|m IH]; intros Hm best.
  - split; [exists 0%nat; split; [lia|done]|]. intros i Hi. lia.
  - subst best. rewrite seq_S, foldl_app, Nat.add_0_l. cbn [foldl].
    destruct IH as [(p & Hp & Hbest) Hmin]; [lia|].
    set (prev := foldl (pickMinimal ca dists) (ca !!! 0%nat) (seq 0 m)) in *.
    unfold pickMinimal.
    destruct (Z.ltb_spec (dists !!! (ca !!! m))
                (dists !!! prev)) as [Hlt|Hge].
    + split; [exists m; split; [lia|done]|].
      intros i Hi. destruct (decide (i = m)) as [->|Hne]; [lia|].
      specialize (Hmin i). lia.
    + split; [exists p; done|].
      intros i Hi. destruct (decide (i = m)) as [->|Hne]; [lia|].
      apply Hmin. lia.
Qed.

End MedoidFacts.

(** C9 (amended). For a non-empty assignment of fewer than 2^32 positions,
    all of them inside the arrays, [GetMedoid] sets the prototype to a member
    whose total distance to all the members, itself included, is minimal; for
    an empty assignment it sets the prototype and its code to null. *)
Theorem GetMedoid_minimises_total_distance
    (distance : list Z -> list Z -> nat -> Z) (kmerCodes : list (list Z))
    (kmerLength : nat) (kmers : list Kmer) (clusterAssignment : list nat) (sc : Scratch) :
  Z.of_nat (length clusterAssignment) < 4294967296 ->
  Forall (fun p => (p < length (allocatedDist sc))%nat /\
                   (p < length kmers)%nat /\ (p < length kmerCodes)%nat)
         clusterAssignment ->
  let '(_, protoPtr, protoCode) :=
    GetMedoid distance kmerCodes kmerLength kmers clusterAssignment sc in
  match clusterAssignment with
  | [] => protoPtr = None /\ protoCode = None
  | _ :: _ =>
      exists p kmer code,
        p ∈ clusterAssignment /\
        kmers !! p = Some kmer /\ protoPtr = Some kmer /\
        kmerCodes !! p = Some code /\ protoCode = Some code /\
        forall q, q ∈ clusterAssignment ->
          totalDistance distance kmerCodes kmerLength clusterAssignment p
          <= totalDistance distance kmerCodes kmerLength clusterAssignment q
  end.
Proof.
  intros Hsmall Hin. unfold GetMedoid.
  rewrite wrap32_small by lia. rewrite Nat2Z.id.
  destruct clusterAssignment as [|p0 ca]; [done|].
  set (cas := p0 :: ca) in *.
  assert (0 < length cas)%nat as Hpos by (simpl; lia).
  destruct (Nat.ltb_spec 0 (length cas)) as [_|?]; [|lia].
  assert (Forall (fun p => (p < length (allocatedDist sc))%nat) cas) as Hin1.
  { eapply Forall_impl; [exact Hin|]. simpl. tauto. }
  destruct (totals_loop distance kmerCodes kmerLength cas sc (length cas) Hsmall Hin1)
    as [Hlen Htot]; [lia|].
  set (sc' := foldl (totalFor distance kmerCodes kmerLength cas (length cas)) sc
                    (seq 0 (length cas))) in *.
  destruct (pickMinimal_loop cas (allocatedDist sc') (length cas) Hpos) as [(p & Hp & Hbest) Hmin];
    [lia|].
  set (best := foldl (pickMinimal cas (allocatedDist sc')) (cas !!! 0%nat) (seq 0 (length cas))) in *.
  assert (cas !! p = Some best) as Hlook.
  { rewrite Hbest. by apply list_lookup_lookup_total_lt. }
  pose proof (proj1 (Forall_lookup _ _) Hin p best Hlook) as (_ & Hk & Hc).
  destruct (lookup_lt_is_Some_2 kmers best Hk) as [kmer Hkmer].
  destruct (lookup_lt_is_Some_2 kmerCodes best Hc) as [code Hcode].
  exists best, kmer, code. repeat split; try done.
  - eapply list_elem_of_lookup_2. exact Hlook.
  - intros q Hq. apply list_elem_of_lookup_1 in Hq as [i Hi].
    pose proof (lookup_lt_Some _ _ _ Hi) as Hilt.
    apply list_lookup_total_correct in Hi. subst q.
    rewrite <-(Htot i Hilt). rewrite Hbest at 1. rewrite <-(Htot p Hp).
    rewrite <-Hbest. apply Hmin. done.
Qed.

(** C9, witness: the 1-mers [a], [b] and [c] under [distanceABC]. *)
Lemma GetMedoid_minimises_total_distance_witness :
  let '(_, protoPtr, protoCode) :=
    GetMedoid distanceABC codesABC 1 kmersABC [0; 1; 2]%nat scratchABC in
  exists p kmer code,
    p ∈ [0; 1; 2]%nat /\
    kmersABC !! p = Some kmer /\ protoPtr = Some kmer /\
    codesABC !! p = Some code /\ protoCode = Some code /\
    forall q, q ∈ [0; 1; 2]%nat ->
      totalDistance distanceABC codesABC 1 [0; 1; 2]%nat p
      <= totalDistance distanceABC codesABC 1 [0; 1; 2]%nat q.
Proof.
  apply (GetMedoid_minimises_total_distance distanceABC codesABC 1 kmersABC
           [0; 1; 2]%nat scratchABC).
  - reflexivity.
  - repeat constructor.
Defined.

(** C9 as stated fails when self-distances differ: of [a], [b] and [c]
    under [distanceABC] the prototype chosen is [b], whose total distance to
    the other members is 6, while that of [a] is 2. *)
Lemma GetMedoid_counts_self_distance :
  (GetMedoid distanceABC codesABC 1 kmersABC [0; 1; 2]%nat scratchABC).1.2
    = kmersABC !! 1%nat /\
  totalDistanceToOthers distanceABC codesABC 1 [0; 1; 2]%nat 0 = 2 /\
  totalDistanceToOthers distanceABC codesABC 1 [0; 1; 2]%nat 1 = 6.
Proof. by vm_compute. Qed.

(** ** The clustering engine *)

(** The state that an outcome carries. *)
Definition outcomeState {S : Type} (o : Outcome S) : S :=
  match o with
  | Returned s => s
  | Thrown _ s => s
  end.

Lemma length_swap {A} `{!Inhabited A} (l : list A) i j : length (swap l i j) = length l.
Proof. unfold swap. by rewrite !length_insert. Qed.

Lemma swap_Permutation {A} `{!Inhabited A} (l : list A) i j :
  (i < length l)%nat -> (j < length l)%nat -> swap l i j ≡ₚ l.
Proof.
  intros Hi Hj. unfold swap.
  apply Permutation_insert_swap; by apply list_lookup_lookup_total_lt.
Qed.

Lemma swap_same {A} `{!Inhabited A} (l : list A) i : (i < length l)%nat -> swap l i i = l.
Proof.
  intros Hi. unfold swap. rewrite list_insert_insert_eq.
  apply list_insert_id. by apply list_lookup_lookup_total_lt.
Qed.

Lemma drop_swap_lt {A} `{!Inhabited A} (l : list A) i j n :
  (i < n)%nat -> (j < n)%nat -> drop n (swap l i j) = drop n l.
Proof. intros. unfold swap. by rewrite !drop_insert_lt. Qed.

Lemma take_swap_ge {A} `{!Inhabited A} (l : list A) i j n :
  (n <= i)%nat -> (n <= j)%nat -> take n (swap l i j) = take n l.
Proof. intros. unfold swap. by rewrite !take_insert_ge. Qed.

Lemma encoding_setDistanceFromPrototype kmer d :
  encoding (setDistanceFromPrototype kmer d) = encoding kmer.
Proof. reflexivity. Qed.

Lemma substring_setDistanceFromPrototype kmer d :
  substring (setDistanceFromPrototype kmer d) = substring kmer.
Proof. reflexivity. Qed.

Lemma prototype_AddParallel kmer c : prototype (AddParallel kmer c) = prototype c.
Proof. reflexivity. Qed.

Lemma prototypes_alter_AddParallel kmer j (cs : list Cluster) :
  prototype <$> alter (AddParallel kmer) j cs = prototype <$> cs.
Proof.
  revert j. induction cs as [|c cs IH]; intros j; [done|].
  destruct j as [|j]; simpl; [done|]. f_equal. apply IH.
Qed.

Section EngineFacts.

Variable K : nat.
Variable threshold : Q.
Variable symbolCodeDist : list Z -> list Z -> nat -> Z.

Local Abbreviation within := (within threshold).
Local Abbreviation distToPrototype := (distToPrototype K symbolCodeDist).
Local Abbreviation scanClusters := (scanClusters K threshold symbolCodeDist).
Local Abbreviation findAttractor := (findAttractor K threshold symbolCodeDist).

(** *** First fit *)

Lemma scanClusters_Some cs j0 enc j d :
  scanClusters cs j0 enc = Some (j, d) ->
  (j0 <= j)%nat /\
  (exists c, cs !! (j - j0)%nat = Some c /\ d = distToPrototype enc c /\ within d = true) /\
  (forall i c, (i < j - j0)%nat -> cs !! i = Some c -> within (distToPrototype enc c) = false).
Proof.
  revert j0. induction cs as [|c cs IH]; intros j0 H; simpl in H; [done|].
  destruct (within (distToPrototype enc c)) eqn:Hw.
  - injection H as <- <-. rewrite Nat.sub_diag. split; [lia|]. split.
    + exists c. done.
    + intros i c' Hi. lia.
  - apply IH in H as (Hle & (c' & Hc' & Hd & Hwd) & Hmin).
    split; [lia|]. replace (j - j0)%nat with (S (j - S j0)) by lia. split.
    + exists c'. done.
    + intros i ci Hi Hci. destruct i as [|i]; simpl in Hci.
      * by injection Hci as <-.
      * apply (Hmin i); [lia|done].
Qed.

Lemma scanClusters_None cs j0 enc :
  scanClusters cs j0 enc = None ->
  forall i c, cs !! i = Some c -> within (distToPrototype enc c) = false.
Proof.
  revert j0. induction cs as [|c cs IH]; intros j0 H i ci Hci; [done|].
  simpl in H. destruct (within (distToPrototype enc c)) eqn:Hw; [done|].
  destruct i as [|i]; simpl in Hci.
  - by injection Hci as <-.
  - by eapply IH.
Qed.

(** [findAttractor] returns the least index from [firstClusterIndex] on
    whose prototype is within the threshold, with the distance to it. *)
Lemma findAttractor_Some clusters firstClusterIndex enc j d :
  findAttractor clusters firstClusterIndex enc = Some (j, d) ->
  (firstClusterIndex <= j)%nat /\
  (exists c, clusters !! j = Some c /\ d = distToPrototype enc c /\ within d = true) /\
  (forall i c, (firstClusterIndex <= i < j)%nat -> clusters !! i = Some c ->
     within (distToPrototype enc c) = false).
Proof.
  unfold KmerCluster.findAttractor. intros H.
  apply scanClusters_Some in H as (Hle & (c & Hc & Hd & Hw) & Hmin).
  rewrite lookup_drop in Hc.
  replace (firstClusterIndex + (j - firstClusterIndex))%nat with j in Hc by lia.
  split; [done|]. split; [by exists c|].
  intros i ci Hi Hci. apply (Hmin (i - firstClusterIndex)%nat); [lia|].
  rewrite lookup_drop. by replace (firstClusterIndex + (i - firstClusterIndex))%nat with i by lia.
Qed.

Lemma findAttractor_None clusters firstClusterIndex enc :
  findAttractor clusters firstClusterIndex enc = None ->
  forall i c, (firstClusterIndex <= i)%nat -> clusters !! i = Some c ->
    within (distToPrototype enc c) = false.
Proof.
  unfold KmerCluster.findAttractor. intros H i c Hi Hc.
  apply (scanClusters_None _ _ _ H (i - firstClusterIndex)%nat).
  rewrite lookup_drop. by replace (firstClusterIndex + (i - firstClusterIndex))%nat with i by lia.
Qed.

(** The search looks at the prototypes only. *)
Lemma scanClusters_prototypes cs cs' j0 enc :
  prototype <$> cs = prototype <$> cs' -> scanClusters cs j0 enc = scanClusters cs' j0 enc.
Proof.
  revert cs' j0. induction cs as [|c cs IH]; intros [|c' cs'] j0 H; try done.
  rewrite !fmap_cons in H. injection H as Hp Hrest. simpl.
  unfold KmerCluster.distToPrototype. rewrite Hp.
  destruct (within _); [done|]. by apply IH.
Qed.

Lemma findAttractor_prototypes cs cs' firstClusterIndex enc :
  prototype <$> cs = prototype <$> cs' ->
  findAttractor cs firstClusterIndex enc = findAttractor cs' firstClusterIndex enc.
Proof.
  intros H. unfold KmerCluster.findAttractor. apply scanClusters_prototypes.
  by rewrite !fmap_drop, H.
Qed.

End EngineFacts.

Section ScanFacts.

Variable K : nat.
Variable threshold : Q.
Variable symbolCodeDist : list Z -> list Z -> nat -> Z.

Local Abbreviation findAttractor := (findAttractor K threshold symbolCodeDist).
Local Abbreviation scanOne := (scanOne K threshold symbolCodeDist).
Local Abbreviation scan := (scan K threshold symbolCodeDist).

(** What the scan does with one k-mer, seen from the clusters: the k-mer,
    with the distance stored in it, is appended to the first cluster from
    [firstClusterIndex] on that is within the threshold; when there is none
    the clusters stay as they are. The search is done in [cs0], whose
    prototypes are those of [cs]. *)
Definition addFit (cs0 : list Cluster) (firstClusterIndex : nat)
    (cs : list Cluster) (kmer : Kmer) : list Cluster :=
  match findAttractor cs0 firstClusterIndex (encoding kmer) with
  | Some (j, d) => alter (AddParallel (setDistanceFromPrototype kmer d)) j cs
  | None => cs
  end.

Lemma prototypes_addFit cs0 firstClusterIndex cs kmer :
  prototype <$> addFit cs0 firstClusterIndex cs kmer = prototype <$> cs.
Proof.
  unfold addFit. destruct (findAttractor _ _ _) as [[j d]|]; [|done].
  apply prototypes_alter_AddParallel.
Qed.

Lemma lookup_total_of_drop (l l' : list Kmer) (i : nat) :
  drop i l = drop i l' -> l !!! i = l' !!! i.
Proof.
  intros H. rewrite !list_lookup_total_alt.
  pose proof (lookup_drop l i 0) as H1. pose proof (lookup_drop l' i 0) as H2.
  rewrite Nat.add_0_r in H1, H2. by rewrite <-H1, <-H2, H.
Qed.

Lemma drop_S_of_drop {A} (l l' : list A) (i : nat) :
  drop i l = drop i l' -> drop (S i) l = drop (S i) l'.
Proof.
  intros H. replace (S i) with (i + 1)%nat by lia.
  rewrite <-!drop_drop. by rewrite H.
Qed.

(** The scan loop of the global variant after [m] iterations. *)
Lemma scan_prefix firstClusterIndex (st : State) (m : nat) :
  (firstUnallocIndex st + m <= length (allKmers st))%nat ->
  let st' := foldl (scanOne firstClusterIndex) st (seq (firstUnallocIndex st) m) in
  length (allKmers st') = length (allKmers st) /\
  (firstUnallocIndex st <= firstUnallocIndex st' <= firstUnallocIndex st + m)%nat /\
  drop (firstUnallocIndex st + m) (allKmers st')
    = drop (firstUnallocIndex st + m) (allKmers st) /\
  take (firstUnallocIndex st) (allKmers st') = take (firstUnallocIndex st) (allKmers st) /\
  prototype <$> clusters st' = prototype <$> clusters st /\
  clusters st' = foldl (addFit (clusters st) firstClusterIndex) (clusters st)
                       (take m (drop (firstUnallocIndex st) (allKmers st))).
Proof.
  induction m as [|m IH]; intros Hm st'.
  - subst st'. cbn [seq foldl]. rewrite Nat.add_0_r. repeat split; try done; lia.
  - subst st'. rewrite seq_S, foldl_app. cbn [foldl].
    destruct IH as (Hlen & Hf & Hdrop & Htake & Hproto & Hcs); [lia|].
    set (stm := foldl (scanOne firstClusterIndex) st (seq (firstUnallocIndex st) m)) in *.
    set (i := (firstUnallocIndex st + m)%nat) in *.
    assert (allKmers stm !!! i = allKmers st !!! i) as Hi
      by (by apply lookup_total_of_drop).
    assert (take (S m) (drop (firstUnallocIndex st) (allKmers st))
            = take m (drop (firstUnallocIndex st) (allKmers st)) ++ [allKmers st !!! i]) as Hsnoc.
    { apply take_S_r. rewrite lookup_drop. apply list_lookup_lookup_total_lt. lia. }
    rewrite Hsnoc, foldl_app. cbn [foldl]. rewrite <-Hcs.
    unfold KmerCluster.scanOne, addFit.
    rewrite (findAttractor_prototypes K threshold symbolCodeDist _ _ _ _ Hproto), Hi.
    destruct (findAttractor (clusters st) firstClusterIndex (encoding (allKmers st !!! i)))
      as [[j d]|] eqn:Hfit.
    + unfold assign. cbn [clusters allKmers firstUnallocIndex]. rewrite Hi.
      replace (firstUnallocIndex st + S m)%nat with (S i) by lia.
      destruct (Nat.ltb_spec (firstUnallocIndex stm) i) as [Hlt|Hge].
      * rewrite length_swap, length_insert.
        rewrite drop_swap_lt, drop_insert_lt by lia.
        rewrite take_swap_ge, take_insert_ge by lia.
        rewrite prototypes_alter_AddParallel.
        repeat split; try done; try lia. by apply drop_S_of_drop.
      * rewrite length_insert, drop_insert_lt, take_insert_ge by lia.
        rewrite prototypes_alter_AddParallel.
        repeat split; try done; try lia. by apply drop_S_of_drop.
    + replace (firstUnallocIndex st + S m)%nat with (S i) by lia.
      repeat split; try done; try lia. by apply drop_S_of_drop.
Qed.

(** *** The scan loop under a schedule *)

(** The state that the caller finds in the shared objects. *)
Definition unload (sh : Shared) : State :=
  {| clusters := sh_clusters sh;
     allKmers := (fun kmer => sh_records sh !!! kmer) <$> sh_kmers sh;
     firstUnallocIndex := sh_firstUnallocIndex sh |}.

(** The shared objects when the loop is entered. *)
Definition load (st : State) : Shared :=
  {| sh_clusters := clusters st; sh_records := allKmers st;
     sh_kmers := seq 0 (length (allKmers st));
     sh_firstUnallocIndex := firstUnallocIndex st |}.

Lemma scan_eq sched firstClusterIndex (st : State) :
  scan sched firstClusterIndex st
  = unload (foldl (tick K threshold symbolCodeDist firstClusterIndex (firstUnallocIndex st))
                  (replicate (length (allKmers st) - firstUnallocIndex st) AtStart, load st)
                  (sched ++ inOrder (firstUnallocIndex st)
                                    (length (allKmers st) - firstUnallocIndex st))).2.
Proof. reflexivity. Qed.

Lemma fmap_lookup_total_seq {B} (f : Kmer -> B) (l : list Kmer) :
  (fun p => f (l !!! p)) <$> seq 0 (length l) = f <$> l.
Proof.
  apply list_eq. intros i. rewrite !list_lookup_fmap.
  destruct (decide (i < length l)%nat) as [Hi|Hi].
  - rewrite lookup_seq_lt by done. rewrite (list_lookup_lookup_total_lt l i Hi). done.
  - rewrite lookup_seq_ge by lia. by rewrite (proj2 (lookup_ge_None l i)) by lia.
Qed.

Lemma unload_load (st : State) : unload (load st) = st.
Proof.
  destruct st as [cs ks f]. unfold unload, load. cbn [sh_clusters sh_records sh_kmers
    sh_firstUnallocIndex clusters allKmers firstUnallocIndex].
  f_equal. pose proof (fmap_lookup_total_seq id ks) as H.
  rewrite list_fmap_id in H. exact H.
Qed.

Lemma tick_at firstClusterIndex first team sh i p :
  (first <= i)%nat -> team !! (i - first)%nat = Some p ->
  tick K threshold symbolCodeDist firstClusterIndex first (team, sh) i
  = (<[(i - first)%nat := (stepBody K threshold symbolCodeDist firstClusterIndex i p sh).1]> team,
     (stepBody K threshold symbolCodeDist firstClusterIndex i p sh).2).
Proof.
  intros Hi Hp. unfold tick. destruct (Nat.leb_spec first i); [|lia].
  rewrite Hp. by destruct (stepBody _ _ _ _ _ _ _).
Qed.

Lemma tick_skip firstClusterIndex first team sh i :
  ~ ((first <= i)%nat /\ (i - first < length team)%nat) ->
  tick K threshold symbolCodeDist firstClusterIndex first (team, sh) i = (team, sh).
Proof.
  intros Hno. unfold tick. destruct (Nat.leb_spec first i); [|done].
  by rewrite (proj2 (lookup_ge_None team (i - first)%nat)) by lia.
Qed.

(** The number of finished iterations. *)
Definition finished (p : Progress) : nat :=
  match p with Finished => 1%nat | _ => 0%nat end.

Lemma sum_list_cons (x : nat) (l : list nat) : sum_list (x :: l) = (x + sum_list l)%nat.
Proof. reflexivity. Qed.

Lemma finished_insert (team : list Progress) (k : nat) (p p' : Progress) :
  team !! k = Some p ->
  (sum_list (finished <$> <[k := p']> team) + finished p
   = sum_list (finished <$> team) + finished p')%nat.
Proof.
  revert k. induction team as [|q team IH]; intros k Hk; [done|].
  destruct k as [|k].
  - injection Hk as ->. change (<[0%nat := p']> (p :: team)) with (p' :: team).
    rewrite !fmap_cons, !sum_list_cons. lia.
  - specialize (IH k Hk). change (<[S k := p']> (q :: team)) with (q :: <[k := p']> team).
    rewrite !fmap_cons, !sum_list_cons. lia.
Qed.


Lemma finished_replicate (m k : nat) :
  sum_list (finished <$> replicate m Finished ++ replicate k AtStart) = m.
Proof.
  induction m as [|m IH].
  - cbn [replicate app]. induction k as [|k IHk]; [done|].
    cbn [replicate]. rewrite fmap_cons, sum_list_cons, IHk. done.
  - cbn [replicate app]. rewrite fmap_cons, sum_list_cons, IH. done.
Qed.

(** A record without the distance that the scan stores in it. *)
Definition erase (r : Kmer) : Kmer := setDistanceFromPrototype r 0.

Lemma erase_alter (records : list Kmer) (kmer : nat) (d : Z) :
  erase <$> alter (fun r => setDistanceFromPrototype r d) kmer records = erase <$> records.
Proof.
  rewrite (list_fmap_alter erase _ id).
  - apply list_alter_id. done.
  - apply Forall_forall. done.
Qed.

(** What every step of every iteration keeps. *)
Definition teamInv (st : State) (acc : list Progress * Shared) : Prop :=
  length acc.1 = (length (allKmers st) - firstUnallocIndex st)%nat /\
  length (sh_records acc.2) = length (allKmers st) /\
  sh_kmers acc.2 ≡ₚ seq 0 (length (allKmers st)) /\
  erase <$> sh_records acc.2 = erase <$> allKmers st /\
  prototype <$> sh_clusters acc.2 = prototype <$> clusters st /\
  (firstUnallocIndex st <= sh_firstUnallocIndex acc.2
   <= firstUnallocIndex st + sum_list (finished <$> acc.1))%nat.

Lemma teamInv_load (st : State) :
  teamInv st (replicate (length (allKmers st) - firstUnallocIndex st) AtStart, load st).
Proof.
  unfold teamInv. cbn [fst snd load sh_records sh_kmers sh_clusters sh_firstUnallocIndex].
  rewrite length_replicate. repeat split; try done; lia.
Qed.

Lemma teamInv_tick firstClusterIndex (st : State) acc i :
  teamInv st acc ->
  teamInv st (tick K threshold symbolCodeDist firstClusterIndex (firstUnallocIndex st) acc i).
Proof.
  destruct acc as [team sh]. intros Hinv.
  destruct (decide ((firstUnallocIndex st <= i)%nat
                    /\ (i - firstUnallocIndex st < length team)%nat)) as [[Hi Hlt]|Hno];
    [|by rewrite tick_skip].
  destruct (lookup_lt_is_Some_2 team _ Hlt) as [p Hp].
  rewrite (tick_at _ _ _ _ _ p Hi Hp).
  destruct Hinv as (Hteam & Hrec & Hperm & Herase & Hproto & Hlo & Hhi).
  cbn [fst snd] in *.
  pose proof (finished_insert team _ p
                (stepBody K threshold symbolCodeDist firstClusterIndex i p sh).1 Hp) as Hsum.
  unfold teamInv. cbn [fst snd]. rewrite length_insert.
  destruct p as [|kmer|kmer j d|kmer j| |]; cbn [stepBody fst snd] in *.
  - repeat split; try done; simpl in Hsum; lia.
  - destruct (findAttractor _ _ _) as [[j d]|]; cbn [fst snd finished] in *;
      repeat split; try done; lia.
  - cbn [sh_records sh_kmers sh_clusters sh_firstUnallocIndex].
    rewrite length_alter, erase_alter. repeat split; try done; simpl in Hsum; lia.
  - cbn [sh_records sh_kmers sh_clusters sh_firstUnallocIndex].
    rewrite prototypes_alter_AddParallel. repeat split; try done; simpl in Hsum; lia.
  - cbn [sh_records sh_kmers sh_clusters sh_firstUnallocIndex].
    assert (length (sh_kmers sh) = length (allKmers st)) as Hlen.
    { by rewrite Hperm, length_seq. }
    split; [done|]. split; [done|]. split.
    { destruct (Nat.ltb_spec (sh_firstUnallocIndex sh) i); [|done].
      rewrite swap_Permutation by lia. done. }
    split; [done|]. split; [done|]. simpl in Hsum. lia.
  - rewrite list_insert_id by done. repeat split; try done; lia.
Qed.

Lemma teamInv_run firstClusterIndex (st : State) sched acc :
  teamInv st acc ->
  teamInv st (foldl (tick K threshold symbolCodeDist firstClusterIndex (firstUnallocIndex st))
                    acc sched).
Proof.
  revert acc. induction sched as [|i sched IH]; intros acc Hinv; [done|].
  cbn [foldl]. apply IH. by apply teamInv_tick.
Qed.


(** *** The scan loop run by one thread *)

(** The steps of iteration [i] from [p] on, [n] of them. *)
Fixpoint steps (firstClusterIndex i n : nat) (p : Progress) (sh : Shared) : Progress * Shared :=
  match n with
  | O => (p, sh)
  | S n' =>
      steps firstClusterIndex i n'
        (stepBody K threshold symbolCodeDist firstClusterIndex i p sh).1
        (stepBody K threshold symbolCodeDist firstClusterIndex i p sh).2
  end.

Lemma ticks_same firstClusterIndex first i n :
  forall team sh p,
    (first <= i)%nat -> team !! (i - first)%nat = Some p ->
    foldl (tick K threshold symbolCodeDist firstClusterIndex first) (team, sh) (replicate n i)
    = (<[(i - first)%nat := (steps firstClusterIndex i n p sh).1]> team,
       (steps firstClusterIndex i n p sh).2).
Proof.
  induction n as [|n IH]; intros team sh p Hi Hp.
  - cbn [replicate foldl steps fst snd]. by rewrite list_insert_id.
  - cbn [replicate foldl steps]. rewrite (tick_at _ _ _ _ _ p Hi Hp).
    rewrite (IH _ _ (stepBody K threshold symbolCodeDist firstClusterIndex i p sh).1 Hi).
    + by rewrite list_insert_insert_eq.
    + apply list_lookup_insert_eq. by apply lookup_lt_Some in Hp.
Qed.

Lemma fmap_swap {A B} `{!Inhabited A} `{!Inhabited B} (g : A -> B) (l : list A) (i j : nat) :
  (i < length l)%nat -> (j < length l)%nat -> g <$> swap l i j = swap (g <$> l) i j.
Proof.
  intros Hi Hj. unfold swap. rewrite !list_fmap_insert.
  by rewrite (list_lookup_total_fmap g l j), (list_lookup_total_fmap g l i) by done.
Qed.

Lemma fmap_records_alter (records : list Kmer) (kmers : list nat) (i p : nat) (h : Kmer -> Kmer) :
  NoDup kmers -> kmers !! i = Some p -> (p < length records)%nat ->
  (fun q => alter h p records !!! q) <$> kmers
  = <[i := h (records !!! p)]> ((fun q => records !!! q) <$> kmers).
Proof.
  intros Hnd Hi Hp. apply list_eq. intros k.
  destruct (decide (k = i)) as [->|Hne].
  - rewrite list_lookup_insert_eq by (rewrite length_fmap; by apply lookup_lt_Some in Hi).
    rewrite list_lookup_fmap, Hi. cbn [fmap option_fmap option_map].
    by rewrite list_lookup_total_alter_eq by done.
  - rewrite list_lookup_insert_ne by done. rewrite !list_lookup_fmap.
    destruct (kmers !! k) as [q|] eqn:Hk; [|done]. cbn [fmap option_fmap option_map].
    rewrite list_lookup_total_alter_ne; [done|].
    intros ->. apply Hne. symmetry. by apply (NoDup_lookup kmers i k q).
Qed.

(** The five steps of an iteration, taken together, are [scanOne]. *)
Lemma steps_scanOne firstClusterIndex (sh : Shared) (i : nat) :
  NoDup (sh_kmers sh) ->
  (i < length (sh_kmers sh))%nat ->
  Forall (fun p => (p < length (sh_records sh))%nat) (sh_kmers sh) ->
  (sh_firstUnallocIndex sh <= i)%nat ->
  (steps firstClusterIndex i 5 AtStart sh).1 = Finished /\
  unload (steps firstClusterIndex i 5 AtStart sh).2
  = scanOne firstClusterIndex (unload sh) i.
Proof.
  intros Hnd Hi Hbound Hf.
  pose proof (list_lookup_lookup_total_lt (sh_kmers sh) i Hi) as Hlook.
  set (p := sh_kmers sh !!! i) in *.
  assert (p < length (sh_records sh))%nat as Hp.
  { by apply (Forall_lookup_1 _ _ _ _ Hbound Hlook). }
  assert (allKmers (unload sh) !!! i = sh_records sh !!! p) as Hrec.
  { unfold unload. cbn [allKmers]. by rewrite (list_lookup_total_fmap _ (sh_kmers sh) i Hi). }
  unfold scanOne. rewrite Hrec. change (clusters (unload sh)) with (sh_clusters sh).
  cbn [steps stepBody fst snd]. fold p.
  destruct (findAttractor (sh_clusters sh) firstClusterIndex
              (encoding (sh_records sh !!! p))) as [[j d]|] eqn:Hfit;
    cbn [fst snd stepBody sh_clusters sh_records sh_kmers sh_firstUnallocIndex].
  2:{ done. }
  split; [done|]. unfold assign. rewrite Hrec. unfold unload.
  cbn [sh_clusters sh_records sh_kmers sh_firstUnallocIndex clusters allKmers
       firstUnallocIndex].
  rewrite list_lookup_total_alter_eq by done.
  rewrite <-(fmap_records_alter (sh_records sh) (sh_kmers sh) i p
               (fun r => setDistanceFromPrototype r d) Hnd Hlook Hp).
  f_equal. destruct (Nat.ltb_spec (sh_firstUnallocIndex sh) i); [|done].
  apply fmap_swap; lia.
Qed.

Lemma inOrder_S first m : inOrder first (S m) = inOrder first m ++ replicate 5 (first + m)%nat.
Proof.
  unfold inOrder. rewrite seq_S, fmap_app, join_app. cbn [fmap list_fmap mjoin list_join].
  by rewrite app_nil_r.
Qed.

Lemma replicate_insert_next {A} (x y : A) (m n : nat) :
  (m < n)%nat ->
  <[m := x]> (replicate m x ++ replicate (n - m) y) = replicate (S m) x ++ replicate (n - S m) y.
Proof.
  intros Hm. rewrite insert_app_r_alt by (rewrite length_replicate; lia).
  rewrite length_replicate, Nat.sub_diag.
  replace (n - m)%nat with (S (n - S m)) by lia. cbn [replicate].
  change (<[0%nat := x]> (y :: replicate (n - S m) y)) with (x :: replicate (n - S m) y).
  change (x :: replicate m x) with (replicate (S m) x).
  rewrite replicate_S_end. by rewrite <-app_assoc.
Qed.

(** The schedule of one thread after [m] iterations. *)
Lemma inOrder_prefix firstClusterIndex (st : State) (m : nat) :
  (m <= length (allKmers st) - firstUnallocIndex st)%nat ->
  exists sh,
    foldl (tick K threshold symbolCodeDist firstClusterIndex (firstUnallocIndex st))
          (replicate (length (allKmers st) - firstUnallocIndex st) AtStart, load st)
          (inOrder (firstUnallocIndex st) m)
    = (replicate m Finished
         ++ replicate (length (allKmers st) - firstUnallocIndex st - m) AtStart, sh) /\
    unload sh
    = foldl (scanOne firstClusterIndex) st
            (seq (firstUnallocIndex st) m).
Proof.
  set (first := firstUnallocIndex st). set (N := length (allKmers st)).
  induction m as [|m IH]; intros Hm.
  - exists (load st). cbn [inOrder seq fmap list_fmap mjoin list_join foldl replicate app].
    rewrite Nat.sub_0_r. split; [done|]. apply unload_load.
  - destruct IH as (sh & Hrun & Hst); [lia|].
    pose proof (teamInv_run firstClusterIndex st (inOrder first m) _ (teamInv_load st)) as Hinv.
    fold first N in Hinv. rewrite Hrun in Hinv.
    destruct Hinv as (_ & Hrec & Hperm & _ & _ & _ & Hhi). cbn [fst snd] in *.
    assert (sum_list (finished <$> replicate m Finished ++ replicate (N - first - m) AtStart)
            = m) as Hcount.
    { apply finished_replicate. }
    rewrite Hcount in Hhi.
    assert (length (sh_kmers sh) = N) as Hlen by (by rewrite Hperm, length_seq).
    rewrite inOrder_S, foldl_app, Hrun.
    assert ((replicate m Finished ++ replicate (N - first - m) AtStart)
              !! (first + m - first)%nat = Some AtStart) as Hat.
    { replace (first + m - first)%nat with m by lia.
      rewrite lookup_app_r by (rewrite length_replicate; lia).
      rewrite length_replicate, Nat.sub_diag. apply lookup_replicate_2. lia. }
    rewrite (ticks_same firstClusterIndex first (first + m) 5 _ sh AtStart ltac:(lia) Hat).
    destruct (steps_scanOne firstClusterIndex sh (first + m)) as [Hdone Hone].
    { rewrite Hperm. apply NoDup_seq. }
    { lia. }
    { rewrite Hperm. apply Forall_forall. intros p Hin. apply elem_of_seq in Hin. lia. }
    { lia. }
    eexists. split.
    + rewrite Hdone. replace (first + m - first)%nat with m by lia.
      rewrite replicate_insert_next by lia. reflexivity.
    + rewrite Hone, Hst. by rewrite seq_S, foldl_app.
Qed.

(** With the empty schedule the scan is the loop that runs the iterations
    one after the other. *)
Lemma scan_oneThread firstClusterIndex (st : State) :
  scan [] firstClusterIndex st
  = foldl (scanOne firstClusterIndex) st
          (seq (firstUnallocIndex st) (length (allKmers st) - firstUnallocIndex st)).
Proof.
  rewrite scan_eq. cbn [app].
  destruct (inOrder_prefix firstClusterIndex st
              (length (allKmers st) - firstUnallocIndex st) (le_n _)) as (sh & Hrun & Hst).
  by rewrite Hrun.
Qed.

(** The whole scan of the global variant, run by one thread. *)
Lemma scan_spec firstClusterIndex (st : State) :
  (firstUnallocIndex st <= length (allKmers st))%nat ->
  let st' := scan [] firstClusterIndex st in
  length (allKmers st') = length (allKmers st) /\
  (firstUnallocIndex st <= firstUnallocIndex st' <= length (allKmers st))%nat /\
  take (firstUnallocIndex st) (allKmers st') = take (firstUnallocIndex st) (allKmers st) /\
  prototype <$> clusters st' = prototype <$> clusters st /\
  clusters st' = foldl (addFit (clusters st) firstClusterIndex) (clusters st)
                       (drop (firstUnallocIndex st) (allKmers st)).
Proof.
  intros Hf st'. subst st'. rewrite scan_oneThread.
  destruct (scan_prefix firstClusterIndex st (length (allKmers st) - firstUnallocIndex st))
    as (Hlen & Hb & _ & Htake & Hproto & Hcs); [lia|].
  rewrite take_ge in Hcs by (rewrite length_drop; lia).
  repeat split; try done; lia.
Qed.


Lemma addFit_prototypes cs0 cs0' firstClusterIndex cs kmer :
  prototype <$> cs0 = prototype <$> cs0' ->
  addFit cs0 firstClusterIndex cs kmer = addFit cs0' firstClusterIndex cs kmer.
Proof.
  intros H. unfold addFit.
  by rewrite (findAttractor_prototypes K threshold symbolCodeDist _ _ _ _ H).
Qed.

Lemma foldl_addFit_prototypes cs0 cs0' firstClusterIndex cs range :
  prototype <$> cs0 = prototype <$> cs0' ->
  foldl (addFit cs0 firstClusterIndex) cs range = foldl (addFit cs0' firstClusterIndex) cs range.
Proof.
  intros H. revert cs. induction range as [|kmer range IH]; intros cs; [done|].
  cbn [foldl]. by rewrite IH, (addFit_prototypes _ _ _ _ _ H).
Qed.

(** *** The banded scan *)

Local Abbreviation scanOne_banded := (scanOne_banded K threshold symbolCodeDist).
Local Abbreviation scanBand := (scanBand K threshold symbolCodeDist).
Local Abbreviation scan_banded := (scan_banded K threshold symbolCodeDist).

(** The loop of one thread after [m] iterations. *)
Lemma scanBand_prefix firstClusterIndex threadId (st : BandedState) (m : nat) :
  let first := b_firstUnallocIndex st !!! threadId in
  (threadId < length (b_firstUnallocIndex st))%nat ->
  (first + m <= length (b_allKmers st))%nat ->
  let st' := foldl (scanOne_banded firstClusterIndex threadId) st (seq first m) in
  length (b_allKmers st') = length (b_allKmers st) /\
  length (b_firstUnallocIndex st') = length (b_firstUnallocIndex st) /\
  (forall t, t <> threadId -> b_firstUnallocIndex st' !!! t = b_firstUnallocIndex st !!! t) /\
  (first <= b_firstUnallocIndex st' !!! threadId <= first + (m - 1))%nat /\
  drop (first + m) (b_allKmers st') = drop (first + m) (b_allKmers st) /\
  take first (b_allKmers st') = take first (b_allKmers st) /\
  prototype <$> b_clusters st' = prototype <$> b_clusters st /\
  b_clusters st' = foldl (addFit (b_clusters st) firstClusterIndex) (b_clusters st)
                         (take m (drop first (b_allKmers st))).
Proof.
  intros first Ht. induction m as [|m IH]; intros Hm st'.
  - subst st'. cbn [seq foldl]. rewrite Nat.add_0_r. repeat split; try done; lia.
  - subst st'. rewrite seq_S, foldl_app. cbn [foldl].
    destruct IH as (Hlen & Hlenf & Hother & Hf & Hdrop & Htake & Hproto & Hcs); [lia|].
    set (stm := foldl (scanOne_banded firstClusterIndex threadId) st (seq first m)) in *.
    set (i := (first + m)%nat) in *.
    assert (b_allKmers stm !!! i = b_allKmers st !!! i) as Hi
      by (by apply lookup_total_of_drop).
    assert (take (S m) (drop first (b_allKmers st))
            = take m (drop first (b_allKmers st)) ++ [b_allKmers st !!! i]) as Hsnoc.
    { apply take_S_r. rewrite lookup_drop. apply list_lookup_lookup_total_lt. lia. }
    rewrite Hsnoc, foldl_app. cbn [foldl]. rewrite <-Hcs.
    unfold KmerCluster.scanOne_banded, addFit.
    rewrite (findAttractor_prototypes K threshold symbolCodeDist _ _ _ _ Hproto), Hi.
    replace (first + S m)%nat with (S i) by lia.
    destruct (findAttractor (b_clusters st) firstClusterIndex (encoding (b_allKmers st !!! i)))
      as [[j d]|] eqn:Hfit.
    + unfold assign_banded. rewrite Hi.
      destruct (Nat.ltb_spec (b_firstUnallocIndex stm !!! threadId) i) as [Hlt|Hge];
        cbn [b_clusters b_allKmers b_firstUnallocIndex].
      * rewrite length_swap, !length_insert.
        rewrite drop_swap_lt, drop_insert_lt by lia.
        rewrite take_swap_ge, take_insert_ge by lia.
        rewrite prototypes_alter_AddParallel.
        rewrite list_lookup_total_insert_eq by lia.
        repeat split; try done; try lia.
        -- intros t Hne. rewrite list_lookup_total_insert_ne by done. by apply Hother.
        -- by apply drop_S_of_drop.
      * rewrite length_insert, drop_insert_lt, take_insert_ge by lia.
        rewrite prototypes_alter_AddParallel.
        repeat split; try done; try lia. by apply drop_S_of_drop.
    + repeat split; try done; try lia. by apply drop_S_of_drop.
Qed.


(** The high-water marks lie in their ranges. *)
Definition bands_wf (numThreads N : nat) (firstUnallocIndex : list nat) : Prop :=
  length firstUnallocIndex = numThreads /\
  forall t, (t < numThreads)%nat ->
    (bandStart numThreads N t <= firstUnallocIndex !!! t <= bandStart numThreads N (S t))%nat.

(** The k-mers of the range of thread [t] from its high-water mark on. *)
Definition bandRest (numThreads : nat) (firstUnallocIndex : list nat) (allKmers : list Kmer)
    (t : nat) : list Kmer :=
  take (bandStart numThreads (length allKmers) (S t) - firstUnallocIndex !!! t)
       (drop (firstUnallocIndex !!! t) allKmers).

Lemma bandStart_mono numThreads N t t' :
  (t <= t')%nat -> (bandStart numThreads N t <= bandStart numThreads N t')%nat.
Proof.
  intros Ht. unfold bandStart. apply Nat.Div0.div_le_mono. nia.
Qed.

Lemma bandStart_le numThreads N t :
  (t <= numThreads)%nat -> (bandStart numThreads N t <= N)%nat.
Proof.
  intros Ht. unfold bandStart. destruct numThreads as [|T]; [simpl; lia|].
  apply Nat.Div0.div_le_upper_bound. nia.
Qed.

Lemma bandStart_all numThreads N :
  (0 < numThreads)%nat -> bandStart numThreads N numThreads = N.
Proof. intros Ht. unfold bandStart. rewrite Nat.mul_comm. apply Nat.div_mul. lia. Qed.

Lemma drop_of_drop_le {A} (l l' : list A) (b n : nat) :
  (b <= n)%nat -> drop b l = drop b l' -> drop n l = drop n l'.
Proof.
  intros Hle H. replace n with (b + (n - b))%nat by lia.
  rewrite <-!drop_drop. by rewrite H.
Qed.

(** The parallel region after the threads [0 .. n - 1] have run. *)
Lemma scan_banded_prefix numThreads firstClusterIndex (st : BandedState) (n : nat) :
  bands_wf numThreads (length (b_allKmers st)) (b_firstUnallocIndex st) ->
  (n <= numThreads)%nat ->
  let st' := foldl (scanBand numThreads firstClusterIndex) st (seq 0 n) in
  length (b_allKmers st') = length (b_allKmers st) /\
  bands_wf numThreads (length (b_allKmers st)) (b_firstUnallocIndex st') /\
  (forall t, (n <= t)%nat -> b_firstUnallocIndex st' !!! t = b_firstUnallocIndex st !!! t) /\
  (forall t, (b_firstUnallocIndex st !!! t <= b_firstUnallocIndex st' !!! t)%nat) /\
  drop (bandStart numThreads (length (b_allKmers st)) n) (b_allKmers st')
    = drop (bandStart numThreads (length (b_allKmers st)) n) (b_allKmers st) /\
  prototype <$> b_clusters st' = prototype <$> b_clusters st /\
  b_clusters st' =
    foldl (addFit (b_clusters st) firstClusterIndex) (b_clusters st)
          (mjoin (bandRest numThreads (b_firstUnallocIndex st) (b_allKmers st) <$> seq 0 n)).
Proof.
  intros Hwf. set (N := length (b_allKmers st)) in *.
  induction n as [|n IH]; intros Hn st'.
  - subst st'. cbn [seq foldl]. split; [done|]. split; [done|]. repeat split; done.
  - subst st'. rewrite seq_S, foldl_app, Nat.add_0_l. cbn [foldl].
    destruct IH as (Hlen & Hwf' & Hsame & Hmono & Hdrop & Hproto & Hcs); [lia|].
    set (stn := foldl (scanBand numThreads firstClusterIndex) st (seq 0 n)) in *.
    destruct Hwf as [HlenT Hband]. destruct Hwf' as [HlenT' Hband'].
    pose proof (Hband n ltac:(lia)) as [Hlo Hhi].
    pose proof (Hsame n ltac:(lia)) as Hfn.
    pose proof (bandStart_le numThreads N (S n) ltac:(lia)) as Hend.
    unfold KmerCluster.scanBand. rewrite Hlen, Hfn.
    set (first := b_firstUnallocIndex st !!! n) in *.
    set (endIdx := bandStart numThreads N (S n)) in *.
    destruct (scanBand_prefix firstClusterIndex n stn (endIdx - first))
      as (Hlen2 & HlenT2 & Hother & Hf & Hdrop2 & Htake2 & Hproto2 & Hcs2).
    { lia. }
    { rewrite Hfn, Hlen. fold first. lia. }
    rewrite Hfn in Hlen2, HlenT2, Hother, Hf, Hdrop2, Htake2, Hproto2, Hcs2.
    fold first in Hlen2, HlenT2, Hother, Hf, Hdrop2, Htake2, Hproto2, Hcs2.
    set (st2 := foldl (scanOne_banded firstClusterIndex n) stn (seq first (endIdx - first))) in *.
    replace (first + (endIdx - first))%nat with endIdx in Hdrop2 by lia.
    assert (drop first (b_allKmers stn) = drop first (b_allKmers st)) as Hdropf.
    { by apply (drop_of_drop_le _ _ (bandStart numThreads N n)). }
    split; [lia|]. split.
    { split; [lia|]. intros t Ht. destruct (decide (t = n)) as [->|Hne].
      - lia.
      - rewrite Hother by done. by apply Hband'. }
    split.
    { intros t Ht. rewrite Hother by lia. apply Hsame. lia. }
    split.
    { intros t. destruct (decide (t = n)) as [->|Hne].
      - lia.
      - rewrite Hother by done. apply Hmono. }
    split.
    { rewrite Hdrop2. apply (drop_of_drop_le _ _ (bandStart numThreads N n)); [|done].
      apply bandStart_mono. lia. }
    split; [by rewrite Hproto2|].
    rewrite Hcs2, Hdropf, fmap_app, join_app, foldl_app, <-Hcs.
    cbn [fmap list_fmap mjoin list_join]. rewrite app_nil_r.
    change (bandRest numThreads (b_firstUnallocIndex st) (b_allKmers st) n)
      with (take (endIdx - first) (drop first (b_allKmers st))).
    by apply foldl_addFit_prototypes.
Qed.

Lemma scan_banded_spec numThreads firstClusterIndex (st : BandedState) :
  bands_wf numThreads (length (b_allKmers st)) (b_firstUnallocIndex st) ->
  let st' := scan_banded numThreads firstClusterIndex st in
  length (b_allKmers st') = length (b_allKmers st) /\
  bands_wf numThreads (length (b_allKmers st)) (b_firstUnallocIndex st') /\
  (forall t, (b_firstUnallocIndex st !!! t <= b_firstUnallocIndex st' !!! t)%nat) /\
  prototype <$> b_clusters st' = prototype <$> b_clusters st /\
  b_clusters st' =
    foldl (addFit (b_clusters st) firstClusterIndex) (b_clusters st)
          (mjoin (bandRest numThreads (b_firstUnallocIndex st) (b_allKmers st)
                  <$> seq 0 numThreads)).
Proof.
  intros Hwf st'.
  destruct (scan_banded_prefix numThreads firstClusterIndex st numThreads Hwf)
    as (H1 & H2 & _ & H4 & _ & H6 & H7); [lia|].
  done.
Qed.

End ScanFacts.

Section PassFacts.

Variable K : nat.
Variable threshold : Q.
Variable symbolCodeDist : list Z -> list Z -> nat -> Z.
Variable createPrototype : Kmer -> Kmer.

Local Abbreviation within := (within threshold).
Local Abbreviation distToPrototype := (distToPrototype K symbolCodeDist).
Local Abbreviation findAttractor := (findAttractor K threshold symbolCodeDist).
Local Abbreviation firstFit := (addFit K threshold symbolCodeDist).
Local Abbreviation seedClusters := (seedClusters createPrototype).
Local Abbreviation DoIncrementalClusteringParallel :=
  (DoIncrementalClusteringParallel K threshold symbolCodeDist createPrototype).
Local Abbreviation DoIncrementalClusteringParallel_banded :=
  (DoIncrementalClusteringParallel_banded K threshold symbolCodeDist createPrototype).
Local Abbreviation passLoop := (passLoop K threshold symbolCodeDist createPrototype).
Local Abbreviation passLoop_banded :=
  (passLoop_banded K threshold symbolCodeDist createPrototype).

(** *** Membership *)

(** Every member of every cluster is within the threshold of the prototype
    of its cluster. The distance is taken as the scan takes it: from the
    code of the k-mer to the code of the prototype. *)
Definition members_within (cs : list Cluster) : Prop :=
  Forall (fun c => Forall (fun m => within (distToPrototype (encoding m) c) = true) (kmers c)) cs.

Lemma members_within_addFit cs0 firstClusterIndex cs kmer :
  prototype <$> cs = prototype <$> cs0 ->
  members_within cs -> members_within (firstFit cs0 firstClusterIndex cs kmer).
Proof.
  intros Hproto Hin. unfold addFit.
  destruct (findAttractor cs0 firstClusterIndex (encoding kmer)) as [[j d]|] eqn:Hfit; [|done].
  apply findAttractor_Some in Hfit as (_ & (c0 & Hc0 & Hd & Hw) & _).
  unfold members_within. apply Forall_lookup. intros i c Hc.
  rewrite list_lookup_alter in Hc. destruct (decide (j = i)) as [->|Hne].
  - destruct (cs !! i) as [ci|] eqn:Hci; [|done]. injection Hc as <-.
    assert (prototype ci = prototype c0) as Hp.
    { apply (f_equal (fun l => l !! i)) in Hproto.
      rewrite !list_lookup_fmap, Hci, Hc0 in Hproto. by injection Hproto. }
    change (Forall (fun m => within (distToPrototype (encoding m) ci) = true)
              (kmers ci ++ [setDistanceFromPrototype kmer d])).
    apply Forall_app. split.
    + apply (proj1 (Forall_lookup _ _) Hin i ci Hci).
    + apply Forall_singleton. rewrite encoding_setDistanceFromPrototype.
      unfold KmerCluster.distToPrototype. rewrite Hp.
      unfold KmerCluster.distToPrototype in Hd. by rewrite <-Hd.
  - apply (proj1 (Forall_lookup _ _) Hin i c Hc).
Qed.

Lemma members_within_foldl_addFit cs0 firstClusterIndex cs range :
  prototype <$> cs = prototype <$> cs0 ->
  members_within cs -> members_within (foldl (firstFit cs0 firstClusterIndex) cs range).
Proof.
  revert cs. induction range as [|kmer range IH]; intros cs Hproto Hin; [done|].
  cbn [foldl]. apply IH.
  - by rewrite prototypes_addFit.
  - by apply members_within_addFit.
Qed.

Lemma members_within_seedClusters cs allKmers first wanted :
  members_within cs -> members_within (seedClusters cs allKmers first wanted).
Proof.
  unfold KmerCluster.seedClusters. generalize (seq first wanted). intros l.
  revert cs. induction l as [|i l IH]; intros cs Hin; [done|].
  cbn [foldl]. apply IH. apply Forall_app. split; [done|].
  apply Forall_singleton. by apply Forall_nil.
Qed.

Lemma length_seedClusters cs allKmers first wanted :
  length (seedClusters cs allKmers first wanted) = (length cs + wanted)%nat.
Proof.
  unfold KmerCluster.seedClusters.
  assert (forall l cs0,
    length (foldl (fun cs i => cs ++ [Cluster_new (createPrototype (allKmers !!! i))]) cs0 l)
    = (length cs0 + length l)%nat) as Hgen.
  { intros l. induction l as [|i l IH]; intros cs0; simpl; [lia|].
    rewrite IH, length_app. simpl. lia. }
  by rewrite Hgen, length_seq.
Qed.

(** *** One pass of the global variant *)


(** A pass whose scan loop is run by one thread. *)
Lemma DoIncrementalClusteringParallel_spec requested firstClusterIndex (st : State) :
  (firstUnallocIndex st <= length (allKmers st))%nat ->
  match DoIncrementalClusteringParallel [] requested firstClusterIndex st with
  | Thrown e st' =>
      e = NoClustersRequested /\ st' = st /\
      length (clusters st) = 0%nat /\ requested = 0%nat
  | Returned st' =>
      length (allKmers st') = length (allKmers st) /\
      (firstUnallocIndex st <= firstUnallocIndex st' <= length (allKmers st))%nat /\
      (members_within (clusters st) -> members_within (clusters st'))
  end.
Proof.
  intros Hf. unfold KmerCluster.DoIncrementalClusteringParallel.
  destruct (Nat.eqb_spec (length (clusters st)) 0) as [Hc|Hc];
    destruct (Nat.eqb_spec requested 0) as [Hr|Hr]; cbn [andb]; [done|..].
  all: match goal with
       | |- context [KmerCluster.scan _ _ _ _ ?fci ?s] =>
           destruct (scan_spec K threshold symbolCodeDist fci s) as (Hlen & Hb & _ & Hproto & Hcs);
             [exact Hf|]
       end.
  all: cbn [allKmers firstUnallocIndex clusters] in *.
  all: repeat split; try done; try lia.
  all: intros Hin; rewrite Hcs; apply members_within_foldl_addFit; [done|].
  all: destruct (0 <? requested)%nat; [by apply members_within_seedClusters|done].
Qed.

(** *** The counts that a pass loop sees *)






(** *** The pass loop of the global variant *)

Lemma passLoop_S clusterIncrement N fuel increment firstClusterIndex scheds (st : State) :
  passLoop clusterIncrement N (S fuel) increment firstClusterIndex scheds st
  = if (firstUnallocIndex st <? N)%nat then
      match DoIncrementalClusteringParallel (hd [] scheds) increment firstClusterIndex st with
      | Thrown e st' => Some ([firstUnallocIndex st], Thrown e st')
      | Returned st' =>
          if (firstUnallocIndex st' =? firstUnallocIndex st)%nat then
            Some ([firstUnallocIndex st; firstUnallocIndex st'], Returned st')
          else
            match passLoop clusterIncrement N fuel clusterIncrement
                           (length (clusters st')) (tl scheds) st' with
            | Some (counts, o) => Some (firstUnallocIndex st :: counts, o)
            | None => None
            end
      end
    else Some ([firstUnallocIndex st], Returned st).
Proof. reflexivity. Qed.




(** *** The count of allocated k-mers in the banded variant *)




(** *** One pass of the banded variant *)



(** *** The pass loop of the banded variant *)


End PassFacts.

Section SetupFacts.

Variable K : nat.
Variable threshold : Q.
Variable symbolCodeDist : list Z -> list Z -> nat -> Z.
Variable rand : nat -> UnitDraw.

Local Abbreviation filterOne := (filterOne K threshold symbolCodeDist).
Local Abbreviation filterOne_banded := (filterOne_banded K threshold symbolCodeDist).
Local Abbreviation shuffle := (shuffle rand).
Local Abbreviation setup := (setup K threshold symbolCodeDist rand).
Local Abbreviation setupBand := (setupBand K threshold symbolCodeDist rand).
Local Abbreviation setup_banded := (setup_banded K threshold symbolCodeDist rand).

Lemma length_shuffle first last calls l : length (shuffle first last calls l) = length l.
Proof.
  unfold KmerCluster.shuffle. generalize (seq first (last - first)). intros idxs.
  revert l. induction idxs as [|i idxs IH]; intros l; [done|].
  cbn [foldl]. rewrite IH. unfold shuffleOne. apply length_swap.
Qed.

Lemma filterIndices_lt N : Forall (fun i => (i < N)%nat) (filterIndices N).
Proof.
  unfold filterIndices. apply Forall_fmap, Forall_forall. intros q Hq. simpl.
  apply elem_of_seq in Hq.
  pose proof (Nat.Div0.mul_div_le (N + 1) 2). lia.
Qed.

Lemma filter_loop N (idxs : list nat) (acc : list Kmer * nat) :
  Forall (fun i => (i < N)%nat) idxs ->
  length acc.1 = N -> (acc.2 <= N)%nat ->
  length (foldl filterOne acc idxs).1 = N /\ ((foldl filterOne acc idxs).2 <= N)%nat.
Proof.
  revert acc. induction idxs as [|i idxs IH]; intros [ks f] Hidx Hlen Hf; [done|].
  apply Forall_cons in Hidx as [Hi Hidx]. cbn [foldl]. apply IH; [done|..].
  all: unfold KmerCluster.filterOne; simpl in *.
  all: destruct (selfMatchTooFar _ _ _ _); [|done].
  all: destruct (Nat.ltb_spec f i); simpl; rewrite ?length_swap; lia.
Qed.







End SetupFacts.

(** The member [m] of a cluster is a copy of the k-mer [kd.1] in which the
    distance [kd.2] is stored. *)
Definition copyWith (m : Kmer) (kd : Kmer * Z) : Prop :=
  substring m = substring kd.1 /\ instances m = instances kd.1 /\
  encoding m = encoding kd.1 /\ distanceFromPrototype m = kd.2.

Section FirstFitFacts.

Variable K : nat.
Variable threshold : Q.
Variable symbolCodeDist : list Z -> list Z -> nat -> Z.

Local Abbreviation within := (within threshold).
Local Abbreviation distToPrototype := (distToPrototype K symbolCodeDist).
Local Abbreviation findAttractor := (findAttractor K threshold symbolCodeDist).
Local Abbreviation firstFit := (addFit K threshold symbolCodeDist).

(** The k-mer as cluster [j] receives it, when cluster [j] is its first fit. *)
Definition assignedTo (cs0 : list Cluster) (firstClusterIndex j : nat) (kmer : Kmer)
    : option Kmer :=
  match findAttractor cs0 firstClusterIndex (encoding kmer) with
  | Some (j', d) => if decide (j' = j) then Some (setDistanceFromPrototype kmer d) else None
  | None => None
  end.

Lemma addFit_Some cs0 firstClusterIndex cs kmer j d :
  findAttractor cs0 firstClusterIndex (encoding kmer) = Some (j, d) ->
  firstFit cs0 firstClusterIndex cs kmer
  = alter (AddParallel (setDistanceFromPrototype kmer d)) j cs.
Proof. intros H. unfold addFit. by rewrite H. Qed.

Lemma addFit_None cs0 firstClusterIndex cs kmer :
  findAttractor cs0 firstClusterIndex (encoding kmer) = None ->
  firstFit cs0 firstClusterIndex cs kmer = cs.
Proof. intros H. unfold addFit. by rewrite H. Qed.

Lemma omap_cons_eq {A B} (f : A -> option B) (x : A) (l : list A) :
  omap f (x :: l) = match f x with Some y => y :: omap f l | None => omap f l end.
Proof. reflexivity. Qed.

(** Cluster by cluster: a run of [addFit] over a range of k-mers appends to
    cluster [j] the k-mers of the range whose first fit is [j], in the order
    of the range. *)
Lemma foldl_addFit_lookup cs0 firstClusterIndex range :
  forall cs j c,
    cs !! j = Some c ->
    foldl (firstFit cs0 firstClusterIndex) cs range !! j
    = Some {| prototype := prototype c;
              kmers := kmers c ++ omap (assignedTo cs0 firstClusterIndex j) range |}.
Proof.
  induction range as [|kmer range IH]; intros cs j c Hc.
  - simpl. rewrite app_nil_r. by destruct c.
  - cbn [foldl]. rewrite omap_cons_eq.
    destruct (findAttractor cs0 firstClusterIndex (encoding kmer)) as [[j' d]|] eqn:Hfit.
    + rewrite (addFit_Some _ _ _ _ _ _ Hfit). unfold assignedTo at 1. rewrite Hfit.
      destruct (decide (j' = j)) as [->|Hne].
      * rewrite (IH _ j (AddParallel (setDistanceFromPrototype kmer d) c)).
        -- cbn [prototype kmers AddParallel]. by rewrite <-app_assoc.
        -- by rewrite list_lookup_alter_eq, Hc.
      * rewrite (IH _ j c); [done|]. by rewrite list_lookup_alter_ne.
    + rewrite (addFit_None _ _ _ _ Hfit). unfold assignedTo at 1. rewrite Hfit.
      by rewrite (IH _ j c).
Qed.

(** The k-mers of [range] whose first fit among the clusters [cs0] is the
    cluster [j], each with the distance to the prototype of that cluster. *)
Definition fitting (cs0 : list Cluster) (firstClusterIndex j : nat) (range : list Kmer)
    : list (Kmer * Z) :=
  omap (fun kmer =>
          match findAttractor cs0 firstClusterIndex (encoding kmer) with
          | Some (j', d) => if decide (j' = j) then Some (kmer, d) else None
          | None => None
          end) range.

Lemma assignedTo_fitting cs0 firstClusterIndex j range :
  Forall2 copyWith (omap (assignedTo cs0 firstClusterIndex j) range)
          (fitting cs0 firstClusterIndex j range).
Proof.
  unfold fitting. induction range as [|kmer range IH]; [by apply Forall2_nil|].
  rewrite !omap_cons_eq. unfold assignedTo at 1.
  destruct (findAttractor cs0 firstClusterIndex (encoding kmer)) as [[j' d]|]; [|done].
  destruct (decide (j' = j)); [|done].
  constructor; [|done]. done.
Qed.

End FirstFitFacts.

Lemma within_true_iff threshold d : within threshold d = true <-> (inject_Z d <= threshold)%Q.
Proof. unfold within. apply Qle_bool_iff. Qed.

Lemma within_false_iff threshold d : within threshold d = false <-> ~ (inject_Z d <= threshold)%Q.
Proof. rewrite <-within_true_iff. by destruct (within threshold d). Qed.

(** X29. First fit where no race is possible. The first-fit search returns
    the least index from [firstClusterIndex] on whose prototype is within
    the threshold of the k-mer, with the distance to that prototype, and
    nothing when no such index exists. When one thread runs the scan loop of
    the global variant, every cluster ends the scan with its former members
    followed by a copy of each k-mer of the unallocated range whose first
    fit it is, in the order of the range, with the distance to its prototype
    stored in the copy. In the banded variant, with the high-water marks in
    their ranges, the same holds of the k-mers of the ranges of all threads,
    but for the order of the members. A k-mer without a fit is copied to no
    cluster. *)
Theorem first_fit_without_race (K : nat) (threshold : Q)
    (symbolCodeDist : list Z -> list Z -> nat -> Z)
    (firstClusterIndex numThreads : nat) (st : State) (bst : BandedState) :
  bands_wf numThreads (length (b_allKmers bst)) (b_firstUnallocIndex bst) ->
  (forall cs enc j d,
     findAttractor K threshold symbolCodeDist cs firstClusterIndex enc = Some (j, d) ->
     (firstClusterIndex <= j)%nat /\
     (exists c, cs !! j = Some c /\
        d = wrap16 (symbolCodeDist enc (encoding (prototype c)) K) /\
        (inject_Z d <= threshold)%Q) /\
     (forall i c, (firstClusterIndex <= i < j)%nat -> cs !! i = Some c ->
        ~ (inject_Z (wrap16 (symbolCodeDist enc (encoding (prototype c)) K)) <= threshold)%Q)) /\
  (forall cs enc,
     findAttractor K threshold symbolCodeDist cs firstClusterIndex enc = None ->
     forall i c, (firstClusterIndex <= i)%nat -> cs !! i = Some c ->
       ~ (inject_Z (wrap16 (symbolCodeDist enc (encoding (prototype c)) K)) <= threshold)%Q) /\
  (forall j c,
     clusters st !! j = Some c ->
     exists added,
       clusters (scan K threshold symbolCodeDist [] firstClusterIndex st) !! j
       = Some {| prototype := prototype c; kmers := kmers c ++ added |} /\
       Forall2 copyWith added
         (fitting K threshold symbolCodeDist (clusters st) firstClusterIndex j
            (drop (firstUnallocIndex st) (allKmers st)))) /\
  (forall j c,
     b_clusters bst !! j = Some c ->
     exists c' added,
       b_clusters (scan_banded K threshold symbolCodeDist numThreads firstClusterIndex bst) !! j
       = Some c' /\
       prototype c' = prototype c /\
       kmers c' ≡ₚ kmers c ++ added /\
       Forall2 copyWith added
         (fitting K threshold symbolCodeDist (b_clusters bst) firstClusterIndex j
            (mjoin (bandRest numThreads (b_firstUnallocIndex bst) (b_allKmers bst)
                    <$> seq 0 numThreads)))).
Proof.
  intros Hwf. split; [|split; [|split]].
  - intros cs enc j d Hfit.
    apply findAttractor_Some in Hfit as (Hle & (c & Hc & Hd & Hw) & Hmin).
    split; [done|]. split.
    + exists c. split; [done|]. split; [done|]. by apply within_true_iff.
    + intros i ci Hi Hci. apply within_false_iff. by apply (Hmin i).
  - intros cs enc Hfit i c Hi Hc. apply within_false_iff.
    by apply (findAttractor_None _ _ _ _ _ _ Hfit i).
  - intros j c Hc. eexists. split; [|apply assignedTo_fitting].
    destruct (Nat.le_gt_cases (firstUnallocIndex st) (length (allKmers st))) as [Hf|Hf].
    + destruct (scan_spec K threshold symbolCodeDist firstClusterIndex st Hf)
        as (_ & _ & _ & _ & Hcs).
      rewrite Hcs. by apply foldl_addFit_lookup.
    + rewrite scan_oneThread.
      replace (length (allKmers st) - firstUnallocIndex st)%nat with 0%nat by lia.
      rewrite drop_ge by lia. simpl. rewrite app_nil_r. by destruct c.
  - intros j c Hc.
    destruct (scan_banded_spec K threshold symbolCodeDist numThreads firstClusterIndex bst Hwf)
      as (_ & _ & _ & _ & Hcs).
    eexists _, _. split; [|split; [|split; [|apply assignedTo_fitting]]].
    + rewrite Hcs. by apply foldl_addFit_lookup.
    + done.
    + done.
Qed.



(** X29, witness: the banded scan of [bandedExample] at threshold 5. *)
Lemma first_fit_without_race_witness :
  bands_wf 2 (length (b_allKmers bandedExample)) (b_firstUnallocIndex bandedExample) /\
  exists c' added,
    b_clusters (scan_banded 1 5 distanceABC 2 0 bandedExample) !! 0%nat = Some c' /\
    prototype c' = freshPrototype kmerB /\
    kmers c' ≡ₚ [] ++ added /\
    Forall2 copyWith added
      (fitting 1 5 distanceABC (b_clusters bandedExample) 0 0
         (mjoin (bandRest 2 (b_firstUnallocIndex bandedExample)
                   (b_allKmers bandedExample) <$> seq 0 2))).
Proof.
  assert (bands_wf 2 (length (b_allKmers bandedExample)) (b_firstUnallocIndex bandedExample))
    as Hwf.
  { split; [reflexivity|]. intros t Ht.
    destruct t as [|[|t]]; [vm_compute; lia|vm_compute; lia|lia]. }
  split; [exact Hwf|].
  exact (proj2 (proj2 (proj2
    (first_fit_without_race 1 5 distanceABC 0 2
       {| clusters := []; allKmers := []; firstUnallocIndex := 0 |} bandedExample Hwf)))
    0%nat (Cluster_new (freshPrototype kmerB)) eq_refl).
Defined.



(** The texts of the prototype of each cluster and, for each of its members,
    the text and the distance stored in it. *)
Definition clusterMembers (cs : list Cluster) : list (list Z * list (list Z * Z)) :=
  (fun c => (substring (prototype c),
             (fun m => (substring m, distanceFromPrototype m)) <$> kmers c)) <$> cs.

(** C1 fails on the code in the global variant when two threads run the
    scan loop. Under [distanceBC] at threshold 5 the 1-mers [b] and [c] are
    within the threshold of each other and [a] is not within the threshold
    of either. The run starts without clusters and asks for two clusters at
    a time; after the set-up the array holds [a], [b] and [c], and the first
    pass makes clusters of [a] and of [b]. Under [scheduleReadThenOvertaken]
    the thread of iteration 0 reads [kmers[0]], which points to [a], into
    [kmer]; the thread of iteration 2 attaches [c] to the cluster of [b]
    and, in the critical section, swaps [kmers[0]] with [kmers[2]]; the
    thread of iteration 0 now reads [kmers[0]] again, finds the code of [c],
    finds the cluster of [b] for it, and stores the distance 2 in [a] and
    copies [a] to the cluster of [b]. The run returns with [a] a member of
    the cluster of [b], at the distance 11 from its prototype, whichever of
    the two codes is given first to the distance function. The same run with
    one thread puts [a] in its own cluster. *)
Lemma racing_scan_adds_kmer_beyond_threshold :
  (clusterMembers ∘ clusters ∘ outcomeState)
    <$> DoExhaustiveIncrementalClustering 1 5 distanceBC freshPrototype rand0
          [scheduleReadThenOvertaken] [kmerB; kmerC; kmerA] 2 []
    = Some [([97], []); ([98], [([99], 2); ([97], 2); ([98], 0)])] /\
  (exists st' c m,
     DoExhaustiveIncrementalClustering 1 5 distanceBC freshPrototype rand0
       [scheduleReadThenOvertaken] [kmerB; kmerC; kmerA] 2 [] = Some (Returned st') /\
     c ∈ clusters st' /\ m ∈ kmers c /\
     wrap16 (distanceBC (encoding m) (encoding (prototype c)) 1) = 11 /\
     wrap16 (distanceBC (encoding (prototype c)) (encoding m) 1) = 11 /\
     ~ (inject_Z (wrap16 (distanceBC (encoding m) (encoding (prototype c)) 1)) <= 5)%Q /\
     ~ (inject_Z (wrap16 (distanceBC (encoding (prototype c)) (encoding m) 1)) <= 5)%Q) /\
  (clusterMembers ∘ clusters ∘ outcomeState)
    <$> DoExhaustiveIncrementalClustering 1 5 distanceBC freshPrototype rand0
          oneThread [kmerB; kmerC; kmerA] 2 []
    = Some [([97], [([97], 0)]); ([98], [([98], 0); ([99], 2)])].
Proof.
  split; [by vm_compute|]. split; [|by vm_compute].
  eexists _, _, _. split; [by vm_compute|].
  split; [apply list_elem_of_further, list_elem_of_here|].
  split; [apply list_elem_of_further, list_elem_of_here|].
  split; [by vm_compute|]. split; [by vm_compute|].
  split; by vm_compute.
Qed.

(** C3 fails on the code in the global variant when two threads run the
    scan loop: the 1-mers [b], [c] and [a] under [distanceBC] at threshold 5,
    with two clusters requested at a time, so that after the set-up the
    array holds [a], [b] and [c] and the first pass makes clusters of [a]
    and of [b]. Under [scheduleLastFirst] the thread of iteration 2 attaches
    [c] to the cluster of [b] and swaps [kmers[0]] with [kmers[2]] before
    iteration 0 starts; iteration 0 then finds [c] at [kmers[0]] and
    attaches it again, and no iteration looks at [a], which has come to
    index 2: the scan ends with [firstUnallocIndex] at 3, so that the run
    returns, and [a] is in no cluster although the first cluster, at the
    distance 0, is its first fit.
    Under [scheduleReadThenOvertaken] the k-mer [a] is appended to the
    second cluster, which is not its first fit, and the distance stored in
    it is 2, the distance of [c], while [a] and the prototype [b] are 11
    apart. *)
Lemma racing_scan_skips_fitting_kmer :
  (exists st',
     DoExhaustiveIncrementalClustering 1 5 distanceBC freshPrototype rand0
       [scheduleLastFirst] [kmerB; kmerC; kmerA] 2 [] = Some (Returned st') /\
     clusterMembers (clusters st')
     = [([97], []); ([98], [([99], 2); ([99], 2); ([98], 0)])] /\
     substring <$> allKmers st' = [[99]; [98]; [97]] /\
     firstUnallocIndex st' = 3%nat /\
     findAttractor 1 5 distanceBC (clusters st') 0 (encoding kmerA) = Some (0%nat, 0)) /\
  (exists st',
     DoExhaustiveIncrementalClustering 1 5 distanceBC freshPrototype rand0
       [scheduleReadThenOvertaken] [kmerB; kmerC; kmerA] 2 [] = Some (Returned st') /\
     clusterMembers (clusters st')
     = [([97], []); ([98], [([99], 2); ([97], 2); ([98], 0)])] /\
     findAttractor 1 5 distanceBC (clusters st') 0 (encoding kmerA) = Some (0%nat, 0) /\
     wrap16 (distanceBC (encoding kmerA) (encoding kmerB) 1) = 11).
Proof.
  split.
  - eexists. split; [by vm_compute|]. by vm_compute.
  - eexists. split; [by vm_compute|]. by vm_compute.
Qed.

(** The texts of the prototype and of the members of each cluster. *)
Definition clusterTexts (cs : list Cluster) : list (list Z * list (list Z)) :=
  (fun c => (substring (prototype c), substring <$> kmers c)) <$> cs.

(** C4 fails on the code. Under [distanceABC] the 1-mer [a] is 10 away from
    itself. At threshold 3 the set-up of either variant leaves it in the
    unallocated range when it is the first k-mer (of the range of its thread):
    the swap is guarded by [i > firstUnallocIndex]. A run over [a] alone
    then seeds a cluster from it, and a run over [a] and [b] makes it a
    member of the cluster of [b]. One thread runs the scan loops. *)
Lemma far_kmer_is_seeded_and_clustered :
  selfMatchTooFar 1 3 distanceABC kmerA = true /\
  setup 1 3 distanceABC rand0 [kmerA] []
    = {| clusters := []; allKmers := [kmerA]; firstUnallocIndex := 0 |} /\
  setup_banded 1 3 distanceABC rand0 1 [kmerA] []
    = {| b_clusters := []; b_allKmers := [kmerA]; b_firstUnallocIndex := [0%nat] |} /\
  (clusterTexts ∘ clusters ∘ outcomeState)
    <$> DoExhaustiveIncrementalClustering 1 3 distanceABC freshPrototype rand0
          oneThread [kmerA] 1 []
    = Some [([97], [])] /\
  (clusterTexts ∘ b_clusters ∘ outcomeState)
    <$> DoExhaustiveIncrementalClustering_banded 1 3 distanceABC freshPrototype rand0
          [kmerA] 1 [] 1
    = Some [([97], [])] /\
  (clusterTexts ∘ clusters ∘ outcomeState)
    <$> DoExhaustiveIncrementalClustering 1 3 distanceABC freshPrototype rand0
          oneThread [kmerA; kmerB] 1 []
    = Some [([98], [[98]; [97]])].
Proof. by vm_compute. Qed.

(** In the global variant the set-up also skips every odd index, so that a
    k-mer too far from itself stays in the unallocated range at index 1. *)
Lemma far_kmer_at_odd_index_is_skipped :
  selfMatchTooFar 1 3 distanceABC kmerA = true /\
  foldl (filterOne 1 3 distanceABC) ([kmerB; kmerA], 0%nat) (filterIndices 2)
    = ([kmerB; kmerA], 0%nat).
Proof. by vm_compute. Qed.

(** C2 fails on the code in the banded variant. At threshold 5 over [b] and
    [c] with one thread, the first pass attaches [c], the first k-mer of the
    range, to the cluster seeded from it without advancing the high-water
    mark (the increment is guarded by [i > firstUnallocIndex]); the swap
    for [b] then moves [c] back into the unallocated range, and the second
    pass seeds a second cluster from [c] and attaches [c] to it. The global
    variant, with one thread, attaches every k-mer once on the same input. *)
Lemma banded_run_assigns_kmer_twice :
  (clusterTexts ∘ b_clusters ∘ outcomeState)
    <$> DoExhaustiveIncrementalClustering_banded 1 5 distanceABC freshPrototype rand0
          [kmerB; kmerC] 1 [] 1
    = Some [([99], [[99]; [98]]); ([99], [[99]])] /\
  (fun o => substring <$> drop (b_firstUnallocIndex (outcomeState o) !!! 0%nat)
                               (b_allKmers (outcomeState o)))
    <$> DoExhaustiveIncrementalClustering_banded 1 5 distanceABC freshPrototype rand0
          [kmerB; kmerC] 1 [] 1
    = Some [[99]] /\
  (clusterTexts ∘ clusters ∘ outcomeState)
    <$> DoExhaustiveIncrementalClustering 1 5 distanceABC freshPrototype rand0
          oneThread [kmerB; kmerC] 1 []
    = Some [([99], [[99]; [98]])].
Proof. by vm_compute. Qed.

(** ** The distance tables *)

Section TableFacts.

Variable KmerWord_max : Z.
Variable alphabet : Alphabet.
Variable dist : list Z -> list Z -> nat -> Z.
Variable charsPerWord : nat.

(** The vocabulary size as a natural number. *)
Variable V : nat.
Hypothesis V_small : Z.of_nat V * Z.of_nat V < 4294967296.

(** The value that [fillCell] stores for the row [i] and the column [j]. *)
Definition cellValue (i j : nat) : Z :=
  to_int8 (wrap16 (dist (vocabWord alphabet charsPerWord i)
                        (vocabWord alphabet charsPerWord j) charsPerWord)).

Lemma cell_index_lt (i j : nat) : (i < V)%nat -> (j < V)%nat -> (i * V + j < V * V)%nat.
Proof.
  intros Hi Hj. pose proof (Nat.mul_le_mono_r (S i) V V ltac:(lia)). lia.
Qed.

Lemma cell_index (i j : nat) :
  (i < V)%nat -> (j < V)%nat ->
  Z.to_nat (wrap32 (Z.of_nat i * Z.of_nat V + Z.of_nat j)) = (i * V + j)%nat.
Proof.
  intros Hi Hj. pose proof (cell_index_lt i j Hi Hj).
  rewrite wrap32_small by nia. lia.
Qed.

Lemma cell_index_inj (i j i' j' : nat) :
  (j < V)%nat -> (j' < V)%nat -> (i * V + j = i' * V + j')%nat -> i = i' /\ j = j'.
Proof.
  intros Hj Hj' Heq.
  destruct (Nat.lt_trichotomy i i') as [Hlt|[->|Hgt]].
  - pose proof (Nat.mul_le_mono_r (S i) i' V ltac:(lia)). lia.
  - lia.
  - pose proof (Nat.mul_le_mono_r (S i') i V ltac:(lia)). lia.
Qed.

Lemma fillCell_eq (i j : nat) (table : list Z) :
  (i < V)%nat -> (j < V)%nat ->
  fillCell alphabet dist charsPerWord (Z.of_nat V) i table j
  = <[(j * V + i)%nat := cellValue i j]> (<[(i * V + j)%nat := cellValue i j]> table).
Proof.
  intros Hi Hj. unfold fillCell. by rewrite !cell_index.
Qed.

(** The inner loop of row [i] after the columns [0 .. n - 1]. *)
Lemma fillRow_prefix (i n : nat) (table : list Z) :
  (i < V)%nat -> (n <= S i)%nat -> length table = (V * V)%nat ->
  let table' := foldl (fillCell alphabet dist charsPerWord (Z.of_nat V) i) table (seq 0 n) in
  length table' = (V * V)%nat /\
  forall s t, (s < V)%nat -> (t < V)%nat ->
    table' !!! (s * V + t)%nat
    = if decide (s = i /\ (t < n)%nat) then cellValue i t
      else if decide (t = i /\ (s < n)%nat) then cellValue i s
      else table !!! (s * V + t)%nat.
Proof.
  intros Hi. induction n as [|n IH]; intros Hn Hlen table'.
  - subst table'. split; [done|]. intros s t Hs Ht.
    repeat case_decide; try done; lia.
  - subst table'. rewrite seq_S, foldl_app, Nat.add_0_l. cbn [foldl].
    destruct IH as [Hlen' Hval]; [lia|done|].
    rewrite fillCell_eq by lia. split; [by rewrite !length_insert|].
    intros s t Hs Ht.
    pose proof (cell_index_lt s t Hs Ht) as Hst.
    destruct (decide ((n * V + i)%nat = (s * V + t)%nat)) as [Heq|Hne].
    + apply cell_index_inj in Heq as [<- <-]; [|lia..].
      rewrite list_lookup_total_insert_eq by (rewrite length_insert; lia).
      repeat case_decide; first [done | exfalso; lia | f_equal; lia].
    + rewrite list_lookup_total_insert_ne by done.
      destruct (decide ((i * V + n)%nat = (s * V + t)%nat)) as [Heq|Hne2].
      * apply cell_index_inj in Heq as [<- <-]; [|lia..].
        rewrite list_lookup_total_insert_eq by lia.
        repeat case_decide; first [done | exfalso; lia | f_equal; lia].
      * rewrite list_lookup_total_insert_ne by done. rewrite Hval by done.
        assert (~ (s = n /\ t = i)) as Hn1 by (intros [-> ->]; done).
        assert (~ (s = i /\ t = n)) as Hn2 by (intros [-> ->]; done).
        repeat case_decide; first [done | exfalso; lia | f_equal; lia].
Qed.

(** The outer loop after the rows [0 .. n - 1]: a cell whose larger index
    is below [n] holds the value computed from the larger and the smaller
    index, in this order. *)
Lemma fill_prefix (n : nat) (table : list Z) :
  (n <= V)%nat -> length table = (V * V)%nat ->
  let table' := foldl (fillRow alphabet dist charsPerWord (Z.of_nat V)) table (seq 0 n) in
  length table' = (V * V)%nat /\
  forall s t, (s < V)%nat -> (t < V)%nat -> (Nat.max s t < n)%nat ->
    table' !!! (s * V + t)%nat = cellValue (Nat.max s t) (Nat.min s t).
Proof.
  induction n as [|n IH]; intros Hn Hlen table'.
  - subst table'. split; [done|]. intros s t Hs Ht Hmax. lia.
  - subst table'. rewrite seq_S, foldl_app, Nat.add_0_l. cbn [foldl].
    destruct IH as [Hlen' Hval]; [lia|done|].
    unfold fillRow at 1.
    destruct (fillRow_prefix n (S n) _ ltac:(lia) ltac:(lia) Hlen') as [Hlen2 Hval2].
    split; [done|]. intros s t Hs Ht Hmax.
    rewrite Hval2 by done.
    destruct (decide (s = n /\ (t < S n)%nat)) as [[-> Hlt]|Hn1].
    { by rewrite Nat.max_l, Nat.min_r by lia. }
    destruct (decide (t = n /\ (s < S n)%nat)) as [[-> Hlt]|Hn2].
    { by rewrite Nat.max_r, Nat.min_l by lia. }
    apply Hval; [done..|]. lia.
Qed.

End TableFacts.
Section CacheFacts.

Variable KmerWord_max : Z.
Variable alphabet : Alphabet.
Variable dist : list Z -> list Z -> nat -> Z.

Hypothesis alphabet_small : 0 < Size alphabet <= 40.

(** The number of words of [charsPerWord] symbols, for 1, 2 or 3 symbols. *)
Definition vocabN (charsPerWord : nat) : nat :=
  match charsPerWord with
  | 1%nat => length (symbols alphabet)
  | 2%nat => (length (symbols alphabet) * length (symbols alphabet))%nat
  | _ => (length (symbols alphabet) * length (symbols alphabet) * length (symbols alphabet))%nat
  end.

Lemma vocabN_bounds charsPerWord :
  (1 <= charsPerWord <= 3)%nat ->
  (0 < vocabN charsPerWord)%nat /\ Z.of_nat (vocabN charsPerWord) <= 64000.
Proof.
  unfold Size in alphabet_small. intros Hc.
  destruct charsPerWord as [|[|[|[|c]]]]; try lia; unfold vocabN; nia.
Qed.

Lemma vocabSizeOf_eq charsPerWord :
  (1 <= charsPerWord <= 3)%nat ->
  vocabSizeOf alphabet charsPerWord = Z.of_nat (vocabN charsPerWord).
Proof.
  unfold Size in alphabet_small. intros Hc.
  destruct charsPerWord as [|[|[|[|c]]]]; try lia;
    unfold vocabSizeOf, vocabN, Size; cbn [seq foldl Nat.sub].
  - apply wrap32_small. lia.
  - rewrite (wrap32_small (Z.of_nat _)) by lia. rewrite wrap32_small by nia. lia.
  - rewrite (wrap32_small (Z.of_nat _)) by lia.
    rewrite (wrap32_small (Z.of_nat _ * Z.of_nat _)) by nia.
    rewrite wrap32_small by nia. lia.
Qed.

(** What a table holds after [PrecomputeDistances]. *)
Lemma PrecomputeDistances_spec charsPerWord table vocabSize :
  (1 <= charsPerWord <= 3)%nat ->
  PrecomputeDistances KmerWord_max alphabet dist charsPerWord = Some (table, vocabSize) ->
  vocabSize = Z.of_nat (vocabN charsPerWord) /\
  vocabSize <= KmerWord_max /\
  forall s t, (s < vocabN charsPerWord)%nat -> (t < vocabN charsPerWord)%nat ->
    table !!! (s * vocabN charsPerWord + t)%nat
    = cellValue alphabet dist charsPerWord (Nat.max s t) (Nat.min s t).
Proof.
  intros Hc. unfold PrecomputeDistances. rewrite vocabSizeOf_eq by done.
  pose proof (vocabN_bounds charsPerWord Hc) as [Hpos Hle].
  set (V := vocabN charsPerWord) in *.
  destruct (Z.leb_spec (Z.of_nat V) KmerWord_max) as [Hfits|]; [|done].
  intros [= <- <-]. split; [done|]. split; [done|].
  intros s t Hs Ht. rewrite Nat2Z.id.
  assert (Z.of_nat V * Z.of_nat V < 4294967296) as Hsmall by nia.
  destruct (fill_prefix alphabet dist charsPerWord V Hsmall V
              (replicate (Z.to_nat (wrap32 (Z.of_nat V * Z.of_nat V))) 0)) as [_ Hval].
  - lia.
  - rewrite length_replicate, wrap32_small by nia. lia.
  - apply Hval; [done..|]. lia.
Qed.

(** The cell of two code words of the vocabulary. *)
Lemma cell_spec charsPerWord table vocabSize (s t : Z) :
  (1 <= charsPerWord <= 3)%nat ->
  PrecomputeDistances KmerWord_max alphabet dist charsPerWord = Some (table, vocabSize) ->
  0 <= s < Z.of_nat (vocabN charsPerWord) -> 0 <= t < Z.of_nat (vocabN charsPerWord) ->
  cell table vocabSize s t
  = cellValue alphabet dist charsPerWord
      (Nat.max (Z.to_nat s) (Z.to_nat t)) (Nat.min (Z.to_nat s) (Z.to_nat t)).
Proof.
  intros Hc Hpre Hs Ht.
  destruct (PrecomputeDistances_spec _ _ _ Hc Hpre) as (-> & _ & Hval).
  unfold cell. rewrite <-Hval by lia. f_equal. nia.
Qed.

(** *** The inverse table and Encode *)

Lemma length_inverse : length (inverse alphabet) = 128%nat.
Proof.
  unfold inverse. generalize (seq 0 (length (symbols alphabet))).
  assert (length (replicate 128 0) = 128%nat) as Hlen by apply length_replicate.
  revert Hlen. generalize (replicate 128 0).
  intros inv Hinv idxs. revert inv Hinv.
  induction idxs as [|i idxs IH]; intros inv Hinv; [done|].
  cbn [foldl]. apply IH. unfold inverse_step. by rewrite !length_insert.
Qed.

Lemma inverse_range (ch : nat) :
  (ch < 128)%nat -> 0 <= inverse alphabet !!! ch < Size alphabet.
Proof.
  intros Hch.
  assert (Forall (fun v => 0 <= v < Size alphabet) (inverse alphabet)) as Hall.
  { unfold inverse.
    assert (forall idxs inv,
              Forall (fun i => (i < length (symbols alphabet))%nat) idxs ->
              Forall (fun v => 0 <= v < Size alphabet) inv ->
              Forall (fun v => 0 <= v < Size alphabet)
                     (foldl (inverse_step alphabet) inv idxs)) as Hgen.
    { induction idxs as [|i idxs IH]; intros inv Hidx Hinv; [done|].
      apply Forall_cons in Hidx as [Hi Hidx]. cbn [foldl]. apply IH; [done|].
      unfold inverse_step.
      assert (0 <= Z.of_nat i mod 256 < Size alphabet) as Hv.
      { unfold Size in *. rewrite Z.mod_small by lia. lia. }
      by repeat apply Forall_insert. }
    apply Hgen.
    - apply Forall_forall. intros i Hi. apply elem_of_seq in Hi. lia.
    - apply Forall_replicate. lia. }
  apply Forall_lookup_total_1; [done|]. rewrite length_inverse. lia.
Qed.

(** Characters are 7-bit: [inverse] has 128 entries. *)
Definition ascii7 (s : list Z) : Prop := Forall (fun ch => 0 <= ch < 128) s.

Lemma ascii7_index s i : ascii7 s -> (Z.to_nat (s !!! i) < 128)%nat.
Proof.
  intros Hs. rewrite list_lookup_total_alt.
  destruct (s !! i) as [ch|] eqn:Hch; simpl.
  - eapply Forall_lookup_1 in Hs; [|done]. simpl in Hs. lia.
  - vm_compute. lia.
Qed.

(** The number of strings of [m] symbols, for [m] up to 3. *)
Definition pw (m : nat) : Z :=
  match m with
  | 0%nat => 1
  | 1%nat => Size alphabet
  | 2%nat => Size alphabet * Size alphabet
  | _ => Size alphabet * Size alphabet * Size alphabet
  end.

Lemma pw_vocabN m : (1 <= m <= 3)%nat -> pw m = Z.of_nat (vocabN m).
Proof.
  intros Hm. destruct m as [|[|[|[|m]]]]; try lia; unfold pw, vocabN, Size; lia.
Qed.

Lemma pw_S m : (m < 3)%nat -> pw (S m) = pw m * Size alphabet.
Proof. intros Hm. destruct m as [|[|[|m]]]; try lia; unfold pw; lia. Qed.

Lemma pw_le m : (m <= 3)%nat -> 0 < pw m <= pw 3.
Proof.
  intros Hm. destruct m as [|[|[|[|m]]]]; try lia; unfold pw; nia.
Qed.

Lemma div3_step (i : nat) :
  (i mod 3 = 2 -> S i / 3 = S (i / 3) /\ S i mod 3 = 0)%nat /\
  (i mod 3 <> 2 -> S i / 3 = i / 3 /\ S i mod 3 = S (i mod 3))%nat.
Proof.
  pose proof (Nat.div_mod_eq i 3). pose proof (Nat.mod_upper_bound i 3).
  pose proof (Nat.div_mod_eq (S i) 3). pose proof (Nat.mod_upper_bound (S i) 3).
  lia.
Qed.

Lemma words3 (i k : nat) : (i < k -> i / 3 < WordsPerKmer k 3)%nat.
Proof.
  unfold WordsPerKmer.
  pose proof (Nat.div_mod_eq i 3). pose proof (Nat.mod_upper_bound i 3).
  pose proof (Nat.div_mod_eq (k + 3 - 1) 3).
  pose proof (Nat.mod_upper_bound (k + 3 - 1) 3).
  lia.
Qed.

(** The state of the loop of [Encode], at 3 characters per word, after the
    characters before [i]: the words before the current one are codes of
    three symbols, and the current word is the code of [i mod 3] symbols. *)
Definition encodeInv (k i : nat) (st : list Z * nat) : Prop :=
  length st.1 = WordsPerKmer k 3 /\
  st.2 = (i / 3)%nat /\
  (forall w, (w < i / 3)%nat -> 0 <= st.1 !!! w < pw 3) /\
  ((i / 3 < WordsPerKmer k 3)%nat -> 0 <= st.1 !!! (i / 3)%nat < pw (i mod 3)).

Lemma Encode_inv (s : list Z) (k i : nat) :
  pw 3 <= KmerWord_max -> ascii7 s -> (i <= k)%nat ->
  encodeInv k i
    (foldl (Encode_step KmerWord_max alphabet s 3 (WordsPerKmer k 3))
           (<[0%nat := 0]> (replicate (WordsPerKmer k 3) 0), 0%nat) (seq 0 i)).
Proof.
  intros Hfits Hs. induction i as [|i IH]; intros Hi.
  - cbn [seq foldl]. unfold encodeInv. cbn [fst snd].
    split; [by rewrite length_insert, length_replicate|].
    split; [done|]. split; [intros w Hw; simpl in Hw; lia|].
    intros Hw. change (0 / 3)%nat with 0%nat. change (0 mod 3)%nat with 0%nat.
    rewrite list_lookup_total_insert_eq by (rewrite length_replicate; exact Hw).
    unfold pw. lia.
  - rewrite seq_S, foldl_app, Nat.add_0_l. cbn [foldl].
    destruct (foldl _ _ (seq 0 i)) as [code wordIndex].
    destruct IH as (Hlen & Hwi & Hbefore & Hcur); [lia|]. cbn [fst snd] in *.
    subst wordIndex. pose proof (words3 i k ltac:(lia)) as Hin.
    specialize (Hcur Hin).
    pose proof (inverse_range (Z.to_nat (s !!! i)) (ascii7_index s i Hs)) as Hj.
    pose proof (Nat.mod_upper_bound i 3 ltac:(lia)) as Hmod.
    pose proof (pw_S (i mod 3) Hmod) as HpwS.
    pose proof (pw_le (S (i mod 3)) ltac:(lia)) as Hpwle.
    set (j := inverse alphabet !!! Z.to_nat (s !!! i)) in *.
    assert (0 <= code !!! (i / 3)%nat * Size alphabet + j < pw (S (i mod 3))) as Hnew.
    { rewrite HpwS. nia. }
    unfold Encode_step. fold j.
    assert (wrapWord KmerWord_max (code !!! (i / 3)%nat * Size alphabet + j)
            = code !!! (i / 3)%nat * Size alphabet + j) as ->.
    { unfold wrapWord. apply Z.mod_small. lia. }
    destruct (div3_step i) as [Hlast Hmid].
    destruct (decide (i mod 3 = 2)%nat) as [Hm|Hm].
    + destruct (Hlast Hm) as [Hdiv Hrem].
      destruct i as [|i']; [simpl in Hm; lia|].
      replace ((0 <? S i')%nat && (S i' mod 3 =? 3 - 1)%nat) with true; last first.
      { symmetry. apply andb_true_intro. split; [by apply Nat.ltb_lt; lia|].
        apply Nat.eqb_eq. lia. }
      set (i := S i') in *.
      assert (forall w, (w < S (i / 3))%nat ->
                0 <= <[(i / 3)%nat := code !!! (i / 3)%nat * Size alphabet + j]> code !!! w < pw 3)
        as Hdone.
      { intros w Hw. destruct (decide (w = i / 3)%nat) as [->|Hne].
        - rewrite list_lookup_total_insert_eq by lia. rewrite Hm in Hnew. lia.
        - rewrite list_lookup_total_insert_ne by done. apply Hbefore. lia. }
      destruct (Nat.ltb_spec (S (i / 3)) (WordsPerKmer k 3)) as [Hlt|Hge];
        unfold encodeInv; cbn [fst snd]; rewrite ?length_insert, Hdiv, Hrem.
      * split; [done|]. split; [done|]. split.
        -- intros w Hw. rewrite list_lookup_total_insert_ne by lia. by apply Hdone.
        -- intros _. rewrite list_lookup_total_insert_eq by (rewrite length_insert; lia).
           unfold pw. lia.
      * split; [done|]. split; [done|]. split; [done|]. lia.
    + destruct (Hmid Hm) as [Hdiv Hrem].
      replace ((0 <? i)%nat && (i mod 3 =? 3 - 1)%nat) with false; last first.
      { symmetry. apply andb_false_intro2. apply Nat.eqb_neq. lia. }
      unfold encodeInv; cbn [fst snd]; rewrite ?length_insert, Hdiv, Hrem.
      split; [done|]. split; [done|]. split.
      * intros w Hw. rewrite list_lookup_total_insert_ne by lia. by apply Hbefore.
      * intros _. by rewrite list_lookup_total_insert_eq by lia.
Qed.

(** The code words of [Encode], at 3 characters per word. *)
Lemma Encode_range (s : list Z) (k : nat) :
  pw 3 <= KmerWord_max -> ascii7 s ->
  (forall w, (w < k / 3)%nat -> 0 <= Encode KmerWord_max alphabet s k 3 !!! w < pw 3) /\
  ((0 < k mod 3)%nat ->
     0 <= Encode KmerWord_max alphabet s k 3 !!! (k / 3)%nat < pw (k mod 3)).
Proof.
  intros Hfits Hs. unfold Encode.
  destruct (Encode_inv s k k Hfits Hs (le_n k)) as (_ & _ & Hbefore & Hcur).
  split; [done|]. intros Hrem. apply Hcur. unfold WordsPerKmer.
  pose proof (Nat.div_mod_eq k 3). pose proof (Nat.mod_upper_bound k 3).
  pose proof (Nat.div_mod_eq (k + 3 - 1) 3).
  pose proof (Nat.mod_upper_bound (k + 3 - 1) 3).
  lia.
Qed.

End CacheFacts.
(** ** GetDistance against the raw distance function *)

Lemma sumThrees_wrap (c : KmerDistanceCache3) (s t : list Z) (n i : nat) (d : Z) :
  sumThrees c s t n i (wrap16 d) = wrap16 (d + exactThrees c s t n i).
Proof.
  revert i d. induction n as [|n IH]; intros i d; simpl.
  - by rewrite Z.add_0_r.
  - rewrite wrap16_add_l, IH. f_equal. lia.
Qed.

(** [GetDistance] is the sum of the looked-up cells, reduced to a
    [Distance]. *)
Lemma GetDistance_wrap (c : KmerDistanceCache3) (s t : list Z) (k : nat) :
  GetDistance c s t k = wrap16 (exactDistance c s t k).
Proof.
  unfold GetDistance, exactDistance.
  change 0 with (wrap16 0) at 1 2. rewrite !sumThrees_wrap. cbn [Z.add].
  destruct (0 <? k mod 3)%nat.
  - apply wrap16_add_l.
  - by rewrite Z.add_0_r.
Qed.

(** The cell that [GetDistance] reads for chunk [i], a chunk of [len]
    characters. *)
Definition tableTerm (c : KmerDistanceCache3) (s t : list Z) (i len : nat) : Z :=
  if (len =? 3)%nat then cell (kmerDistances3 c) (vocabSize3 c) (s !!! i) (t !!! i)
  else remTerm c len (s !!! i) (t !!! i).

Lemma exactThrees_imap (c : KmerDistanceCache3) (s t : list Z) (n i : nat) :
  exactThrees c s t n i
  = foldr Z.add 0 (imap (fun j => tableTerm c s t (i + j)) (replicate n 3%nat)).
Proof.
  revert i. induction n as [|n IH]; intros i; [done|].
  cbn [exactThrees replicate imap foldr]. rewrite IH.
  unfold tableTerm at 2. cbn [Nat.eqb]. rewrite Nat.add_0_r. f_equal. f_equal.
  apply imap_ext. intros j len _. simpl. f_equal. lia.
Qed.

Lemma foldr_add_app (l1 l2 : list Z) :
  foldr Z.add 0 (l1 ++ l2) = foldr Z.add 0 l1 + foldr Z.add 0 l2.
Proof. induction l1 as [|x l1 IH]; simpl; lia. Qed.

Lemma exactDistance_imap (c : KmerDistanceCache3) (s t : list Z) (k : nat) :
  exactDistance c s t k = foldr Z.add 0 (imap (tableTerm c s t) (chunkLengths k)).
Proof.
  unfold exactDistance, chunkLengths.
  rewrite imap_app, foldr_add_app, exactThrees_imap, length_replicate. f_equal.
  destruct (Nat.ltb_spec 0 (k mod 3)) as [Hrem|Hrem]; [|done].
  cbn [imap foldr]. unfold tableTerm.
  pose proof (Nat.mod_upper_bound k 3 ltac:(lia)).
  destruct (Nat.eqb_spec (k mod 3) 3); [lia|]. rewrite Nat.add_0_r. lia.
Qed.

Lemma chunkLengths_lookup (k i len : nat) :
  chunkLengths k !! i = Some len ->
  ((i < k / 3)%nat /\ len = 3%nat) \/
  (i = (k / 3)%nat /\ len = (k mod 3)%nat /\ (0 < k mod 3)%nat).
Proof.
  unfold chunkLengths. intros Hlook.
  apply lookup_app_Some in Hlook as [Hl|[Hge Hr]].
  - apply lookup_replicate in Hl as [-> Hlt]. by left.
  - rewrite length_replicate in *. right.
    destruct (Nat.ltb_spec 0 (k mod 3)) as [Hrem|Hrem]; [|done].
    apply list_lookup_singleton_Some in Hr as [Hi <-]. lia.
Qed.

Section Additivity.

Variable KmerWord_max : Z.
Variable alphabet : Alphabet.
Variable dist : list Z -> list Z -> nat -> Z.
Variable c : KmerDistanceCache3.

Hypothesis alphabet_small : 0 < Size alphabet <= 40.
Hypothesis c_built : KmerDistanceCache3_new KmerWord_max alphabet dist = Some c.
Hypothesis dist_sym : forall u v n, dist u v n = dist v u n.

Lemma cache_tables :
  PrecomputeDistances KmerWord_max alphabet dist 1
    = Some (kmerDistances1 c, vocabSize1 c) /\
  PrecomputeDistances KmerWord_max alphabet dist 2
    = Some (kmerDistances2 c, vocabSize2 c) /\
  PrecomputeDistances KmerWord_max alphabet dist 3
    = Some (kmerDistances3 c, vocabSize3 c).
Proof.
  revert c_built. unfold KmerDistanceCache3_new.
  destruct (PrecomputeDistances _ _ _ 1) as [[t1 v1]|]; [|done].
  destruct (PrecomputeDistances _ _ _ 2) as [[t2 v2]|]; [|done].
  destruct (PrecomputeDistances _ _ _ 3) as [[t3 v3]|]; [|done].
  by intros [= <-].
Qed.

Lemma vocab3_fits : pw alphabet 3 <= KmerWord_max.
Proof.
  destruct cache_tables as (_ & _ & H3).
  destruct (PrecomputeDistances_spec KmerWord_max alphabet dist alphabet_small
              3 _ _ ltac:(lia) H3) as (Hv & Hle & _).
  rewrite (pw_vocabN alphabet 3) by lia. lia.
Qed.

(** A cell of a table, for a symmetric raw function: the raw distance of
    the two decoded words, stored in a [CacheType]. *)
Lemma cell_chunk (m : nat) (table : list Z) (vocabSize s t : Z) :
  (1 <= m <= 3)%nat ->
  PrecomputeDistances KmerWord_max alphabet dist m = Some (table, vocabSize) ->
  0 <= s < pw alphabet m -> 0 <= t < pw alphabet m ->
  cell table vocabSize s t
  = to_int8 (wrap16 (dist (Decode alphabet [s] m m) (Decode alphabet [t] m m) m)).
Proof.
  intros Hm Hpre Hs Ht. rewrite pw_vocabN in Hs, Ht by done.
  rewrite (cell_spec KmerWord_max alphabet dist alphabet_small m table vocabSize s t)
    by done.
  unfold cellValue, vocabWord.
  destruct (Nat.max_spec (Z.to_nat s) (Z.to_nat t)) as [[Hlt ->]|[Hle ->]].
  - rewrite Nat.min_l by lia. rewrite !Z2Nat.id by lia. by rewrite dist_sym.
  - rewrite Nat.min_r by lia. by rewrite !Z2Nat.id by lia.
Qed.

Lemma tableTerm_chunk (x y : list Z) (k i len : nat) :
  ascii7 x -> ascii7 y ->
  chunkLengths k !! i = Some len ->
  0 <= chunkDistance alphabet dist (Encode KmerWord_max alphabet x k 3)
         (Encode KmerWord_max alphabet y k 3) i len <= 127 ->
  tableTerm c (Encode KmerWord_max alphabet x k 3) (Encode KmerWord_max alphabet y k 3) i len
  = chunkDistance alphabet dist (Encode KmerWord_max alphabet x k 3)
      (Encode KmerWord_max alphabet y k 3) i len.
Proof.
  intros Hx Hy Hlook Hfit.
  destruct cache_tables as (H1 & H2 & H3).
  destruct (Encode_range KmerWord_max alphabet alphabet_small x k vocab3_fits Hx)
    as [Hx3 Hxr].
  destruct (Encode_range KmerWord_max alphabet alphabet_small y k vocab3_fits Hy)
    as [Hy3 Hyr].
  unfold chunkDistance in *. unfold tableTerm.
  apply chunkLengths_lookup in Hlook as [[Hi ->]|(-> & -> & Hrem)].
  - cbn [Nat.eqb]. rewrite (cell_chunk 3) by (done || lia || auto).
    rewrite wrap16_small by (unfold MAX_DIST; lia). by rewrite to_int8_small by lia.
  - pose proof (Nat.mod_upper_bound k 3 ltac:(lia)) as Hlt.
    destruct (Nat.eqb_spec (k mod 3) 3); [lia|]. unfold remTerm.
    destruct (Nat.eqb_spec (k mod 3) 1) as [Hone|Hone].
    + rewrite Hone in *. rewrite (cell_chunk 1) by (done || lia || auto).
      rewrite wrap16_small by (unfold MAX_DIST; lia). by rewrite to_int8_small by lia.
    + assert (k mod 3 = 2)%nat as Htwo by lia. rewrite Htwo in *.
      rewrite (cell_chunk 2) by (done || lia || auto).
      rewrite wrap16_small by (unfold MAX_DIST; lia). by rewrite to_int8_small by lia.
Qed.

End Additivity.

(** C5 (amended). Let the cache be built from an alphabet of at most 40
    symbols and a raw distance function that is symmetric, and let [x] and
    [y] be strings of 7-bit characters packed at 3 characters per word. When
    the raw distance of every pair of decoded chunks lies between 0 and 127,
    [GetDistance] on the two codes is the sum of the raw distances of the
    successive decoded chunks, reduced modulo 2^16 (the width of
    [Distance]). *)
Theorem GetDistance_is_sum_of_chunk_distances
    (KmerWord_max : Z) (alphabet : Alphabet) (dist : list Z -> list Z -> nat -> Z)
    (c : KmerDistanceCache3) (x y : list Z) (k : nat) :
  0 < Size alphabet <= 40 ->
  KmerDistanceCache3_new KmerWord_max alphabet dist = Some c ->
  (forall u v n, dist u v n = dist v u n) ->
  ascii7 x -> ascii7 y ->
  Forall (fun d => 0 <= d <= 127)
    (chunkDistances alphabet dist (Encode KmerWord_max alphabet x k 3)
       (Encode KmerWord_max alphabet y k 3) k) ->
  GetDistance c (Encode KmerWord_max alphabet x k 3)
    (Encode KmerWord_max alphabet y k 3) k
  = wrap16 (naiveDistance alphabet dist (Encode KmerWord_max alphabet x k 3)
              (Encode KmerWord_max alphabet y k 3) k).
Proof.
  intros Hsize Hc Hsym Hx Hy Hfit.
  rewrite GetDistance_wrap, exactDistance_imap. unfold naiveDistance, chunkDistances.
  f_equal. f_equal. apply imap_ext. intros i len Hlook.
  apply (tableTerm_chunk KmerWord_max alphabet dist c Hsize Hc Hsym x y k i len Hx Hy Hlook).
  eapply Forall_lookup_1 in Hfit; [exact Hfit|].
  unfold chunkDistances. by rewrite list_lookup_imap, Hlook.
Qed.
(** [Similarity] and [BlosumDifference] of a symmetric matrix. *)
Lemma Similarity_sym (m : SimilarityMatrix) (x y : list Z) (n : nat) :
  (forall s t, dict m s t = dict m t s) ->
  Similarity m x y n = Similarity m y x n.
Proof.
  intros Hsym. unfold Similarity. generalize 0 (seq 0 n).
  intros score idxs. revert score.
  induction idxs as [|i idxs IH]; intros score; [done|].
  cbn [foldl]. by rewrite IH, Hsym.
Qed.

Lemma BlosumDifference_sym (m : SimilarityMatrix) :
  (forall s t, dict m s t = dict m t s) ->
  forall x y n, BlosumDifference m x y n = BlosumDifference m y x n.
Proof. intros Hsym x y n. unfold BlosumDifference. by rewrite Similarity_sym. Qed.

Lemma matrix42_sym s t : dict matrix42 s t = dict matrix42 t s.
Proof. unfold matrix42, dict. by rewrite Z.eqb_sym. Qed.

(** C5, witness: the 4-mers [aaab] and [abab] over the alphabet [ab], with
    the cache of [BlosumDifference matrix42]. *)
Lemma GetDistance_is_sum_of_chunk_distances_witness :
  GetDistance cache42 (Encode 65535 ab [97; 97; 97; 98] 4 3)
    (Encode 65535 ab [97; 98; 97; 98] 4 3) 4
  = wrap16 (naiveDistance ab (BlosumDifference matrix42)
              (Encode 65535 ab [97; 97; 97; 98] 4 3)
              (Encode 65535 ab [97; 98; 97; 98] 4 3) 4).
Proof.
  apply (GetDistance_is_sum_of_chunk_distances 65535 ab (BlosumDifference matrix42) cache42).
  - vm_compute. split; [reflexivity | discriminate].
  - exact cache42_built.
  - exact (BlosumDifference_sym matrix42 matrix42_sym).
  - repeat constructor; lia.
  - repeat constructor; lia.
  - vm_compute. repeat constructor; discriminate.
Defined.

(** C5, counterexample: the raw function need not be symmetric, and the
    tables are filled from one triangle. Over the alphabet [ab] with
    [BlosumDifference skewMatrix], the 1-mers [a] and [b] have raw distance
    0, which fits a cell, but [GetDistance] on their codes is 1, the raw
    distance of [b] and [a]. *)
Lemma GetDistance_differs_for_asymmetric_distance :
  exists c,
    KmerDistanceCache3_new 65535 ab (BlosumDifference skewMatrix) = Some c /\
    Forall (fun d => -128 <= d <= 127)
      (chunkDistances ab (BlosumDifference skewMatrix)
         (Encode 65535 ab [97] 1 3) (Encode 65535 ab [98] 1 3) 1) /\
    naiveDistance ab (BlosumDifference skewMatrix)
      (Encode 65535 ab [97] 1 3) (Encode 65535 ab [98] 1 3) 1 = 0 /\
    GetDistance c (Encode 65535 ab [97] 1 3) (Encode 65535 ab [98] 1 3) 1 = 1.
Proof.
  eexists. split; [by vm_compute|]. split.
  - vm_compute. repeat constructor; discriminate.
  - by vm_compute.
Qed.

(** ** More on the cached distances *)

Lemma withinThrees_Some (c : KmerDistanceCache3) (s t : list Z) (threshold : Z)
    (n i : nat) (d d' : Z) :
  withinThrees c s t threshold n i d = Some d' ->
  d' = sumThrees c s t n i d /\ (d <= threshold -> d' <= threshold).
Proof.
  revert i d. induction n as [|n IH]; intros i d; simpl.
  - intros [= <-]. done.
  - destruct (Z.ltb_spec threshold
                (wrap16 (d + cell (kmerDistances3 c) (vocabSize3 c) (s !!! i) (t !!! i))))
      as [Hgt|Hle]; [done|].
    intros Hrest. apply IH in Hrest as [-> Hbound]. split; [done|]. intros _. by apply Hbound.
Qed.

(** X2. Whenever [IsWithin] returns true, the value that it stores is the value
    of [GetDistance], overflow or not, and is at most the threshold; when it
    returns false it leaves [result] as it was. *)
Theorem IsWithin_outcome (c : KmerDistanceCache3) (s t : list Z) (k : nat)
    (threshold result : Z) :
  0 <= threshold ->
  match IsWithin c s t k threshold result with
  | (true, r) => r = GetDistance c s t k /\ r <= threshold
  | (false, r) => r = result
  end.
Proof.
  intros Hthr. unfold IsWithin, GetDistance.
  destruct (withinThrees c s t threshold (k / 3) 0 0) as [d|] eqn:Hloop; [|done].
  apply withinThrees_Some in Hloop as [-> Hbound]. specialize (Hbound Hthr).
  destruct (0 <? k mod 3)%nat; [|done].
  match goal with |- context [threshold <? ?v] => destruct (Z.ltb_spec threshold v) end;
    [done|]. done.
Qed.

Lemma sumThrees_swap_args (c : KmerDistanceCache3) (s t : list Z) (n i : nat) (d : Z) :
  (forall j, (i <= j < i + n)%nat ->
     cell (kmerDistances3 c) (vocabSize3 c) (s !!! j) (t !!! j)
     = cell (kmerDistances3 c) (vocabSize3 c) (t !!! j) (s !!! j)) ->
  sumThrees c s t n i d = sumThrees c t s n i d.
Proof.
  revert i d. induction n as [|n IH]; intros i d Hsym; [done|].
  simpl. rewrite (Hsym i) by lia. apply IH. intros j Hj. apply Hsym. lia.
Qed.

(** [UngappedEditDistance]: the count of the positions that differ. *)
Definition mismatches (x y : list Z) (n : nat) : Z :=
  foldl (fun diffs i => if (x !!! i =? y !!! i) then diffs else diffs + 1) 0 (seq 0 n).

Lemma mismatches_S x y n :
  mismatches x y (S n)
  = mismatches x y n + (if (x !!! n =? y !!! n) then 0 else 1).
Proof.
  unfold mismatches. rewrite seq_S, foldl_app. cbn [foldl]. rewrite Nat.add_0_l.
  destruct (x !!! n =? y !!! n); lia.
Qed.

Lemma mismatches_bounds x y n : 0 <= mismatches x y n <= Z.of_nat n.
Proof.
  induction n as [|n IH]; [done|]. rewrite mismatches_S.
  destruct (x !!! n =? y !!! n); lia.
Qed.

Lemma mismatches_triangle x y z n :
  mismatches x z n <= mismatches x y n + mismatches y z n.
Proof.
  induction n as [|n IH]; [done|]. rewrite !mismatches_S.
  destruct (Z.eqb_spec (x !!! n) (z !!! n)), (Z.eqb_spec (x !!! n) (y !!! n)),
    (Z.eqb_spec (y !!! n) (z !!! n)); first [lia | congruence].
Qed.

Lemma mismatches_zero x y n :
  mismatches x y n = 0 <-> forall i, (i < n)%nat -> x !!! i = y !!! i.
Proof.
  induction n as [|n IH].
  - split; [intros _ i Hi; lia|done].
  - rewrite mismatches_S. pose proof (mismatches_bounds x y n) as Hb.
    destruct (Z.eqb_spec (x !!! n) (y !!! n)) as [Heq|Hne]; split.
    + intros H0 i Hi. destruct (decide (i = n)) as [->|Hin]; [done|].
      apply IH; lia.
    + intros Hall. rewrite Z.add_0_r. apply IH. intros i Hi. apply Hall. lia.
    + lia.
    + intros Hall. destruct Hne. apply Hall. lia.
Qed.

Lemma UngappedEditDistance_mismatches x y n :
  Z.of_nat n <= MAX_DIST -> UngappedEditDistance x y n = mismatches x y n.
Proof.
  intros Hn. unfold UngappedEditDistance. fold (mismatches x y n).
  pose proof (mismatches_bounds x y n). apply wrap16_small. lia.
Qed.

(** *** Similarity matrices *)

Lemma Similarity_self (m : SimilarityMatrix) (x : list Z) (n : nat) :
  SelfSimilarity m x n = Similarity m x x n.
Proof. reflexivity. Qed.

Lemma wrap16_wrap16 z : wrap16 (wrap16 z) = wrap16 z.
Proof. unfold wrap16. apply Z.mod_mod. lia. Qed.

Lemma wrap16_sub_r a b : wrap16 (a - wrap16 b) = wrap16 (a - b).
Proof. unfold wrap16. apply Zminus_mod_idemp_r. Qed.

Lemma wrap16_sub_l a b : wrap16 (wrap16 a - b) = wrap16 (a - b).
Proof. unfold wrap16. apply Zminus_mod_idemp_l. Qed.

Lemma wrap16_add_r a b : wrap16 (a + wrap16 b) = wrap16 (a + b).
Proof. unfold wrap16. apply Zplus_mod_idemp_r. Qed.

(** The exact sum of the scores of the first [n] positions. *)
Definition scoreSum (m : SimilarityMatrix) (x y : list Z) (n : nat) : Z :=
  foldr Z.add 0 ((fun i => dict m (x !!! i) (y !!! i)) <$> seq 0 n).

Lemma scoreSum_S m x y n :
  scoreSum m x y (S n) = scoreSum m x y n + dict m (x !!! n) (y !!! n).
Proof.
  unfold scoreSum. rewrite seq_S, fmap_app, foldr_add_app. simpl. lia.
Qed.

Lemma Similarity_wrap m x y n : Similarity m x y n = wrap16 (scoreSum m x y n).
Proof.
  induction n as [|n IH]; [done|].
  rewrite scoreSum_S. unfold Similarity in *. rewrite seq_S, foldl_app. cbn [foldl].
  rewrite Nat.add_0_l, IH. apply wrap16_add_l.
Qed.

Lemma matrixWithin_Some m x y threshold n i d d' :
  matrixWithin m x y threshold n i d = Some d' ->
  wrap16 d' = wrap16 (d + Z.of_nat n * maxValue m
                      - foldr Z.add 0 ((fun j => dict m (x !!! j) (y !!! j)) <$> seq i n))
  /\ (d <= threshold -> d' <= threshold)
  /\ (0 <= d <= MAX_DIST -> 0 <= d' <= MAX_DIST).
Proof.
  revert i d. induction n as [|n IH]; intros i d.
  - simpl. intros [= <-]. split; [f_equal; lia|done].
  - cbn [matrixWithin].
    destruct (Z.ltb_spec threshold (wrap16 (d + (maxValue m - dict m (x !!! i) (y !!! i)))))
      as [Hgt|Hle]; [done|].
    intros Hrest. apply IH in Hrest as (Heq & Hbound & Hrange).
    split; [|split].
    + rewrite Heq. cbn [seq fmap list_fmap foldr].
      rewrite <-Z.add_sub_assoc, wrap16_add_l. f_equal. lia.
    + intros _. by apply Hbound.
    + intros _. apply Hrange. apply wrap16_range.
Qed.
Lemma mismatches_sym x y n : mismatches x y n = mismatches y x n.
Proof.
  induction n as [|n IH]; [done|]. by rewrite !mismatches_S, IH, (Z.eqb_sym (x !!! n)).
Qed.

Lemma cacheSkew_built :
  KmerDistanceCache3_new 65535 ab (BlosumDifference skewMatrix) = Some cacheSkew.
Proof. by vm_compute. Qed.

Section CodeSymmetry.

Variable KmerWord_max : Z.
Variable alphabet : Alphabet.
Variable dist : list Z -> list Z -> nat -> Z.
Variable c : KmerDistanceCache3.

Hypothesis alphabet_small : 0 < Size alphabet <= 40.
Hypothesis c_built : KmerDistanceCache3_new KmerWord_max alphabet dist = Some c.

Lemma cell_sym (m : nat) (table : list Z) (vocabSize s t : Z) :
  (1 <= m <= 3)%nat ->
  PrecomputeDistances KmerWord_max alphabet dist m = Some (table, vocabSize) ->
  0 <= s < pw alphabet m -> 0 <= t < pw alphabet m ->
  cell table vocabSize s t = cell table vocabSize t s.
Proof.
  intros Hm Hpre Hs Ht. rewrite pw_vocabN in Hs, Ht by done.
  rewrite (cell_spec KmerWord_max alphabet dist alphabet_small m table vocabSize s t)
    by done.
  rewrite (cell_spec KmerWord_max alphabet dist alphabet_small m table vocabSize t s)
    by done.
  by rewrite Nat.max_comm, Nat.min_comm.
Qed.

Lemma tableTerm_sym (x y : list Z) (k i len : nat) :
  ascii7 x -> ascii7 y ->
  chunkLengths k !! i = Some len ->
  tableTerm c (Encode KmerWord_max alphabet x k 3) (Encode KmerWord_max alphabet y k 3) i len
  = tableTerm c (Encode KmerWord_max alphabet y k 3) (Encode KmerWord_max alphabet x k 3) i len.
Proof.
  intros Hx Hy Hlook.
  destruct (cache_tables KmerWord_max alphabet dist c c_built) as (H1 & H2 & H3).
  pose proof (vocab3_fits KmerWord_max alphabet dist c alphabet_small c_built) as Hfits.
  destruct (Encode_range KmerWord_max alphabet alphabet_small x k Hfits Hx) as [Hx3 Hxr].
  destruct (Encode_range KmerWord_max alphabet alphabet_small y k Hfits Hy) as [Hy3 Hyr].
  unfold tableTerm.
  apply chunkLengths_lookup in Hlook as [[Hi ->]|(-> & -> & Hrem)].
  - cbn [Nat.eqb]. apply (cell_sym 3); (done || lia || auto).
  - pose proof (Nat.mod_upper_bound k 3 ltac:(lia)) as Hlt.
    destruct (Nat.eqb_spec (k mod 3) 3); [lia|]. unfold remTerm.
    destruct (Nat.eqb_spec (k mod 3) 1) as [Hone|Hone].
    + rewrite Hone in *. apply (cell_sym 1); (done || lia || auto).
    + assert (k mod 3 = 2)%nat as Htwo by lia. rewrite Htwo in *.
      apply (cell_sym 2); (done || lia || auto).
Qed.

End CodeSymmetry.

(** X1. [GetDistance] returns the sum of the cells that it reads, one of
    [kmerDistances3] for each full chunk and one of [kmerDistances1] or
    [kmerDistances2] for the remainder, reduced modulo 2^16. *)
Theorem GetDistance_adds_cells_modulo_65536 (c : KmerDistanceCache3) (s t : list Z) (k : nat) :
  GetDistance c s t k = wrap16 (foldr Z.add 0 (imap (tableTerm c s t) (chunkLengths k))).
Proof. by rewrite GetDistance_wrap, exactDistance_imap. Qed.

(** X2, witness: the codes of [aaab] and [abab] at threshold 100. *)
Lemma IsWithin_outcome_witness :
  match IsWithin cache42 [0; 1] [2; 1] 4 100 0 with
  | (true, r) => r = GetDistance cache42 [0; 1] [2; 1] 4 /\ r <= 100
  | (false, r) => r = 0
  end.
Proof. apply (IsWithin_outcome cache42 [0; 1] [2; 1] 4 100 0). lia. Defined.

(** X3. A table that [PrecomputeDistances] has filled, for words of 1, 2 or
    3 symbols of an alphabet of at most 40 symbols, is symmetric: the cell
    of the words [s] and [t] holds the same value as the cell of [t] and
    [s], whatever the raw distance function. *)
Theorem PrecomputeDistances_table_is_symmetric (KmerWord_max : Z) (alphabet : Alphabet)
    (dist : list Z -> list Z -> nat -> Z) (charsPerWord : nat)
    (table : list Z) (vocabSize s t : Z) :
  0 < Size alphabet <= 40 ->
  (1 <= charsPerWord <= 3)%nat ->
  PrecomputeDistances KmerWord_max alphabet dist charsPerWord = Some (table, vocabSize) ->
  0 <= s < vocabSize -> 0 <= t < vocabSize ->
  cell table vocabSize s t = cell table vocabSize t s.
Proof.
  intros Hsize Hm Hpre Hs Ht.
  destruct (PrecomputeDistances_spec KmerWord_max alphabet dist Hsize charsPerWord
              table vocabSize Hm Hpre) as (Hv & _ & _).
  rewrite Hv in Hs, Ht.
  rewrite (cell_spec KmerWord_max alphabet dist Hsize charsPerWord table vocabSize s t)
    by done.
  rewrite (cell_spec KmerWord_max alphabet dist Hsize charsPerWord table vocabSize t s)
    by done.
  by rewrite Nat.max_comm, Nat.min_comm.
Qed.

(** X3, witness: the table of the words of two symbols of [cacheSkew]. *)
Lemma PrecomputeDistances_table_is_symmetric_witness :
  cell (kmerDistances2 cacheSkew) 4 1 2 = cell (kmerDistances2 cacheSkew) 4 2 1.
Proof.
  apply (PrecomputeDistances_table_is_symmetric 65535 ab (BlosumDifference skewMatrix) 2).
  - vm_compute. split; [reflexivity | discriminate].
  - lia.
  - by vm_compute.
  - lia.
  - lia.
Defined.

(** X4. On the codes of two strings packed at 3 characters per word,
    [GetDistance] does not depend on the order of its two arguments, also
    when the raw distance function that the cache was built from does. *)
Theorem GetDistance_symmetric_on_codes (KmerWord_max : Z) (alphabet : Alphabet)
    (dist : list Z -> list Z -> nat -> Z) (c : KmerDistanceCache3) (x y : list Z) (k : nat) :
  0 < Size alphabet <= 40 ->
  KmerDistanceCache3_new KmerWord_max alphabet dist = Some c ->
  ascii7 x -> ascii7 y ->
  GetDistance c (Encode KmerWord_max alphabet x k 3) (Encode KmerWord_max alphabet y k 3) k
  = GetDistance c (Encode KmerWord_max alphabet y k 3) (Encode KmerWord_max alphabet x k 3) k.
Proof.
  intros Hsize Hc Hx Hy. rewrite !GetDistance_wrap, !exactDistance_imap.
  f_equal. f_equal. apply imap_ext. intros i len Hlook.
  by apply (tableTerm_sym KmerWord_max alphabet dist c Hsize Hc x y k i len).
Qed.

(** X4, witness: the 4-mers [aaab] and [abab] with [cacheSkew]. *)
Lemma GetDistance_symmetric_on_codes_witness :
  GetDistance cacheSkew (Encode 65535 ab [97; 97; 97; 98] 4 3)
    (Encode 65535 ab [97; 98; 97; 98] 4 3) 4
  = GetDistance cacheSkew (Encode 65535 ab [97; 98; 97; 98] 4 3)
      (Encode 65535 ab [97; 97; 97; 98] 4 3) 4.
Proof.
  apply (GetDistance_symmetric_on_codes 65535 ab (BlosumDifference skewMatrix) cacheSkew).
  - vm_compute. split; [reflexivity | discriminate].
  - exact cacheSkew_built.
  - repeat constructor; lia.
  - repeat constructor; lia.
Defined.

(** X5. On strings of at most 65535 characters [UngappedEditDistance] is a
    metric: it is 0 exactly when the strings agree at every position, it is
    symmetric, and it satisfies the triangle inequality. *)
Theorem UngappedEditDistance_is_a_metric (x y z : list Z) (n : nat) :
  Z.of_nat n <= MAX_DIST ->
  (UngappedEditDistance x y n = 0 <-> forall i, (i < n)%nat -> x !!! i = y !!! i) /\
  UngappedEditDistance x y n = UngappedEditDistance y x n /\
  UngappedEditDistance x z n <= UngappedEditDistance x y n + UngappedEditDistance y z n.
Proof.
  intros Hn. rewrite !UngappedEditDistance_mismatches by done.
  split; [apply mismatches_zero|]. split; [apply mismatches_sym|apply mismatches_triangle].
Qed.

(** X5, witness: the strings [ab], [bb] and [ba]. *)
Lemma UngappedEditDistance_is_a_metric_witness :
  UngappedEditDistance [97; 98] [98; 97] 2
  <= UngappedEditDistance [97; 98] [98; 98] 2 + UngappedEditDistance [98; 98] [98; 97] 2.
Proof.
  refine (proj2 (proj2 (UngappedEditDistance_is_a_metric [97; 98] [98; 98] [98; 97] 2 _))).
  by vm_compute.
Defined.

(** X6. The Halperin distance of a string to itself is 0, for every
    similarity matrix and every length. *)
Theorem HalperinDistance_to_itself_is_zero (m : SimilarityMatrix) (x : list Z) (n : nat) :
  HalperinDistance m x x n = 0.
Proof.
  unfold HalperinDistance. rewrite !Similarity_self, wrap16_sub_l.
  replace (Similarity m x x n + Similarity m x x n - 2 * Similarity m x x n) with 0 by lia.
  done.
Qed.

(** X7. Whenever [SimilarityMatrix::IsWithin] returns true, the value that
    it stores is the value of [Difference] and is at most the threshold;
    when it returns false it leaves [result] as it was. *)
Theorem Matrix_IsWithin_outcome (m : SimilarityMatrix) (x y : list Z) (n : nat)
    (threshold result : Z) :
  0 <= threshold ->
  match Matrix_IsWithin m x y n threshold result with
  | (true, r) => r = Difference m x y n /\ r <= threshold
  | (false, r) => r = result
  end.
Proof.
  intros Hthr. unfold Matrix_IsWithin.
  destruct (matrixWithin m x y threshold n 0 0) as [d|] eqn:Hloop; [|done].
  apply matrixWithin_Some in Hloop as (Heq & Hbound & Hrange).
  split; [|by apply Hbound].
  rewrite <-(wrap16_small d) by (apply Hrange; unfold MAX_DIST; lia).
  rewrite Heq. unfold Difference. rewrite Similarity_wrap, wrap16_sub_r.
  unfold scoreSum. f_equal; lia.
Qed.

(** X7, witness: [ab] against [bb] under [matrix42] at threshold 50. *)
Lemma Matrix_IsWithin_outcome_witness :
  match Matrix_IsWithin matrix42 [97; 98] [98; 98] 2 50 0 with
  | (true, r) => r = Difference matrix42 [97; 98] [98; 98] 2 /\ r <= 50
  | (false, r) => r = 0
  end.
Proof. apply (Matrix_IsWithin_outcome matrix42 [97; 98] [98; 98] 2 50 0). lia. Defined.

(** ** The alphabet: the inverse table *)

Lemma case_codes_distinct (u v : Z) :
  0 <= u < 128 -> 0 <= v < 128 -> toupper u <> toupper v ->
  tolower u <> tolower v /\ tolower u <> toupper v /\ toupper u <> tolower v.
Proof.
  unfold tolower, toupper. intros Hu Hv.
  destruct (Z.leb_spec 65 u), (Z.leb_spec u 90), (Z.leb_spec 97 u), (Z.leb_spec u 122),
    (Z.leb_spec 65 v), (Z.leb_spec v 90), (Z.leb_spec 97 v), (Z.leb_spec v 122);
    cbn [andb]; lia.
Qed.

Lemma case_codes_range (u : Z) :
  0 <= u < 128 -> 0 <= tolower u < 128 /\ 0 <= toupper u < 128.
Proof.
  unfold tolower, toupper. intros Hu.
  destruct (Z.leb_spec 65 u), (Z.leb_spec u 90), (Z.leb_spec 97 u), (Z.leb_spec u 122);
    cbn [andb]; lia.
Qed.

Lemma distinct_symbols_length (a : Alphabet) :
  Forall (fun ch => 0 <= ch < 128) (symbols a) ->
  NoDup (toupper <$> symbols a) ->
  (length (symbols a) <= 128)%nat.
Proof.
  intros Hascii Hnodup.
  assert (toupper <$> symbols a ⊆+ Z.of_nat <$> seq 0 128) as Hsub.
  { apply NoDup_submseteq; [done|]. intros u Hu.
    apply list_elem_of_fmap in Hu as (ch & -> & Hch).
    eapply Forall_forall in Hascii; [|exact Hch]. simpl in Hascii.
    destruct (case_codes_range _ Hascii) as [_ Hup].
    apply list_elem_of_fmap. exists (Z.to_nat (toupper ch)).
    split; [lia|]. apply elem_of_seq. lia. }
  apply submseteq_length in Hsub. by rewrite !length_fmap, length_seq in Hsub.
Qed.

(** The loop of the constructor after the symbols before [m]. *)
Lemma inverse_prefix (a : Alphabet) (m : nat) :
  Forall (fun ch => 0 <= ch < 128) (symbols a) ->
  NoDup (toupper <$> symbols a) ->
  (m <= length (symbols a))%nat ->
  let inv := foldl (inverse_step a) (replicate 128 0) (seq 0 m) in
  length inv = 128%nat /\
  forall i, (i < m)%nat ->
    inv !!! Z.to_nat (tolower (symbols a !!! i)) = Z.of_nat i /\
    inv !!! Z.to_nat (toupper (symbols a !!! i)) = Z.of_nat i.
Proof.
  intros Hascii Hnodup. induction m as [|m IH]; intros Hm inv.
  - subst inv. split; [apply length_replicate|]. intros i Hi. lia.
  - subst inv. rewrite seq_S, foldl_app, Nat.add_0_l. cbn [foldl].
    destruct IH as [Hlen IH]; [lia|].
    set (inv := foldl (inverse_step a) (replicate 128 0) (seq 0 m)) in *.
    unfold inverse_step. split; [by rewrite !length_insert|].
    assert (forall i, (i < length (symbols a))%nat -> 0 <= symbols a !!! i < 128) as Hsym.
    { intros i Hi. by apply (Forall_lookup_total_1 _ _ i) in Hascii. }
    pose proof (Hsym m ltac:(lia)) as Hsm.
    destruct (case_codes_range _ Hsm) as [Hlo Hup].
    pose proof (distinct_symbols_length a Hascii Hnodup) as Hshort.
    rewrite Z.mod_small by lia.
    intros i Hi. destruct (decide (i = m)) as [->|Hne].
    + split.
      * destruct (decide (Z.to_nat (toupper (symbols a !!! m))
                          = Z.to_nat (tolower (symbols a !!! m)))) as [Heq|Hdiff].
        -- rewrite Heq. by rewrite list_lookup_total_insert_eq by (rewrite length_insert; lia).
        -- rewrite list_lookup_total_insert_ne by done.
           by rewrite list_lookup_total_insert_eq by lia.
      * by rewrite list_lookup_total_insert_eq by (rewrite length_insert; lia).
    + pose proof (Hsym i ltac:(lia)) as Hsi.
      destruct (case_codes_range _ Hsi) as [Hlo' Hup'].
      assert (toupper (symbols a !!! i) <> toupper (symbols a !!! m)) as Hdist.
      { intros Heq. apply Hne.
        eapply (NoDup_lookup _ i m _ Hnodup).
        - rewrite list_lookup_fmap, (list_lookup_lookup_total_lt (symbols a) i) by lia. done.
        - rewrite list_lookup_fmap, (list_lookup_lookup_total_lt (symbols a) m) by lia.
          simpl. by rewrite Heq. }
      destruct (case_codes_distinct _ _ Hsi Hsm Hdist) as (H1 & H2 & H3).
      rewrite !list_lookup_total_insert_ne by lia. apply IH. lia.
Qed.

(** X8. When the symbols of an alphabet are 7-bit characters that differ
    from each other also when case is ignored, the table [inverse] that the
    constructor fills maps the lower-case and the upper-case form of the
    symbol at index [i] to [i]. *)
Theorem inverse_of_symbol (a : Alphabet) (i : nat) :
  Forall (fun ch => 0 <= ch < 128) (symbols a) ->
  NoDup (toupper <$> symbols a) ->
  (i < length (symbols a))%nat ->
  inverse a !!! Z.to_nat (tolower (symbols a !!! i)) = Z.of_nat i /\
  inverse a !!! Z.to_nat (toupper (symbols a !!! i)) = Z.of_nat i.
Proof.
  intros Hascii Hnodup Hi.
  by apply (inverse_prefix a (length (symbols a)) Hascii Hnodup (le_n _)).
Qed.

(** X8, witness: the symbol [b] of the alphabet [abc]. *)
Lemma inverse_of_symbol_witness :
  inverse abc !!! Z.to_nat (tolower (symbols abc !!! 1%nat)) = 1 /\
  inverse abc !!! Z.to_nat (toupper (symbols abc !!! 1%nat)) = 1.
Proof.
  apply (inverse_of_symbol abc 1).
  - repeat constructor; lia.
  - apply (bool_decide_unpack _). by vm_compute.
  - simpl. lia.
Defined.
(** ** The alphabet: Encode and Decode at 3 characters per word *)

Section RoundTrip.

Variable KmerWord_max : Z.
Variable alphabet : Alphabet.

Hypothesis alphabet_small : 0 < Size alphabet <= 40.
Hypothesis word_fits : pw alphabet 3 <= KmerWord_max.

(** The index of the character at position [i] of [s]. *)
Definition digit (s : list Z) (i : nat) : Z := inverse alphabet !!! Z.to_nat (s !!! i).

(** The code of the first [m] characters of chunk [w] of [s]. *)
Definition wordValue (s : list Z) (w m : nat) : Z :=
  match m with
  | 0%nat => 0
  | 1%nat => digit s (3 * w)
  | 2%nat => digit s (3 * w) * Size alphabet + digit s (3 * w + 1)
  | _ => (digit s (3 * w) * Size alphabet + digit s (3 * w + 1)) * Size alphabet
         + digit s (3 * w + 2)
  end.

Lemma wordValue_S s w m :
  (m < 3)%nat ->
  wordValue s w (S m) = wordValue s w m * Size alphabet + digit s (3 * w + m).
Proof.
  intros Hm. destruct m as [|[|[|m]]]; try lia; unfold wordValue;
    rewrite ?Nat.add_0_r; lia.
Qed.

Lemma digit_range s i : ascii7 s -> 0 <= digit s i < Size alphabet.
Proof.
  intros Hs. apply (inverse_range alphabet alphabet_small). by apply ascii7_index.
Qed.

(** The words that the loop of [Encode] has written after the characters
    before [i]. *)
Lemma Encode_values (s : list Z) (k i : nat) :
  ascii7 s -> (i <= k)%nat ->
  let st := foldl (Encode_step KmerWord_max alphabet s 3 (WordsPerKmer k 3))
                  (<[0%nat := 0]> (replicate (WordsPerKmer k 3) 0), 0%nat) (seq 0 i) in
  (forall w, (w < i / 3)%nat -> st.1 !!! w = wordValue s w 3) /\
  ((i / 3 < WordsPerKmer k 3)%nat -> st.1 !!! (i / 3)%nat = wordValue s (i / 3) (i mod 3)).
Proof.
  intros Hs. induction i as [|i IH]; intros Hi st.
  - subst st. cbn [seq foldl fst]. split; [intros w Hw; simpl in Hw; lia|].
    intros Hw. change (0 / 3)%nat with 0%nat. change (0 mod 3)%nat with 0%nat.
    by rewrite list_lookup_total_insert_eq by (rewrite length_replicate; exact Hw).
  - subst st. rewrite seq_S, foldl_app, Nat.add_0_l. cbn [foldl].
    pose proof (Encode_inv KmerWord_max alphabet alphabet_small s k i word_fits Hs
                  ltac:(lia)) as (Hlen & Hwi & _ & Hbound).
    destruct (foldl _ _ (seq 0 i)) as [code wordIndex].
    destruct IH as (Hbefore & Hcur); [lia|]. cbn [fst snd] in *.
    subst wordIndex. pose proof (words3 i k ltac:(lia)) as Hin.
    specialize (Hcur Hin). specialize (Hbound Hin).
    pose proof (digit_range s i Hs) as Hj.
    pose proof (Nat.mod_upper_bound i 3 ltac:(lia)) as Hmod.
    pose proof (pw_S alphabet (i mod 3) Hmod) as HpwS.
    pose proof (pw_le alphabet alphabet_small (S (i mod 3)) ltac:(lia)) as Hpwle.
    unfold digit in Hj.
    set (j := inverse alphabet !!! Z.to_nat (s !!! i)) in *.
    assert (0 <= code !!! (i / 3)%nat * Size alphabet + j < pw alphabet (S (i mod 3))) as Hnew.
    { rewrite HpwS. nia. }
    assert (code !!! (i / 3)%nat * Size alphabet + j = wordValue s (i / 3) (S (i mod 3)))
      as Hval.
    { rewrite wordValue_S by done. rewrite Hcur. unfold digit. f_equal. subst j.
      do 3 f_equal. pose proof (Nat.div_mod_eq i 3). lia. }
    unfold Encode_step. fold j.
    assert (wrapWord KmerWord_max (code !!! (i / 3)%nat * Size alphabet + j)
            = code !!! (i / 3)%nat * Size alphabet + j) as ->.
    { unfold wrapWord. apply Z.mod_small. lia. }
    rewrite Hval.
    destruct (div3_step i) as [Hlast Hmid].
    destruct (decide (i mod 3 = 2)%nat) as [Hm|Hm].
    + destruct (Hlast Hm) as [Hdiv Hrem].
      destruct i as [|i']; [simpl in Hm; lia|].
      replace ((0 <? S i')%nat && (S i' mod 3 =? 3 - 1)%nat) with true; last first.
      { symmetry. apply andb_true_intro. split; [by apply Nat.ltb_lt; lia|].
        apply Nat.eqb_eq. lia. }
      set (i := S i') in *.
      assert (forall w, (w < S (i / 3))%nat ->
                <[(i / 3)%nat := wordValue s (i / 3) (S (i mod 3))]> code !!! w
                = wordValue s w 3) as Hdone.
      { intros w Hw. destruct (decide (w = i / 3)%nat) as [->|Hne].
        - rewrite list_lookup_total_insert_eq by lia. by rewrite Hm.
        - rewrite list_lookup_total_insert_ne by done. apply Hbefore. lia. }
      destruct (Nat.ltb_spec (S (i / 3)) (WordsPerKmer k 3)) as [Hlt|Hge];
        cbn [fst snd]; rewrite Hdiv, Hrem.
      * split.
        -- intros w Hw. rewrite list_lookup_total_insert_ne by lia. by apply Hdone.
        -- intros _. by rewrite list_lookup_total_insert_eq by (rewrite length_insert; lia).
      * split; [done|]. lia.
    + destruct (Hmid Hm) as [Hdiv Hrem].
      replace ((0 <? i)%nat && (i mod 3 =? 3 - 1)%nat) with false; last first.
      { symmetry. apply andb_false_intro2. apply Nat.eqb_neq. lia. }
      cbn [fst snd]; rewrite Hdiv, Hrem. split.
      * intros w Hw. rewrite list_lookup_total_insert_ne by lia. by apply Hbefore.
      * intros _. by rewrite list_lookup_total_insert_eq by lia.
Qed.

(** The words of [Encode]: one for each full chunk and one for the rest. *)
Lemma Encode_words (s : list Z) (k : nat) :
  ascii7 s ->
  (forall w, (w < k / 3)%nat -> Encode KmerWord_max alphabet s k 3 !!! w = wordValue s w 3) /\
  ((0 < k mod 3)%nat ->
     Encode KmerWord_max alphabet s k 3 !!! (k / 3)%nat = wordValue s (k / 3) (k mod 3)).
Proof.
  intros Hs. unfold Encode.
  destruct (Encode_values s k k Hs (le_n k)) as (Hbefore & Hcur).
  split; [done|]. intros Hrem. apply Hcur. unfold WordsPerKmer.
  pose proof (Nat.div_mod_eq k 3). pose proof (Nat.mod_upper_bound k 3).
  pose proof (Nat.div_mod_eq (k + 3 - 1) 3).
  pose proof (Nat.mod_upper_bound (k + 3 - 1) 3).
  lia.
Qed.

(** The symbol that a character is decoded to after encoding. *)
Definition canon (ch : Z) : Z :=
  symbols alphabet !!! Z.to_nat (inverse alphabet !!! Z.to_nat ch).

Lemma digit_split (v aa d : Z) :
  v = aa * Size alphabet + d -> 0 <= d < Size alphabet ->
  v mod Size alphabet = d /\ (v - d) / Size alphabet = aa.
Proof.
  intros -> Hd. split.
  - rewrite Z.add_comm, Z_mod_plus_full. by apply Z.mod_small.
  - replace (aa * Size alphabet + d - d) with (aa * Size alphabet) by lia.
    apply Z.div_mul. lia.
Qed.

(** A step of the loop of [Decode] inside a word. *)
Lemma Decode_step_inside code words t str v wi i aa d :
  (i mod 3 <> 2)%nat -> v = aa * Size alphabet + d -> 0 <= d < Size alphabet ->
  Decode_step alphabet code 3 words
    {| dec_t := t; dec_s := str; dec_n := v; dec_wordIndex := wi |} i
  = {| dec_t := t; dec_s := symbols alphabet !!! Z.to_nat d :: str; dec_n := aa;
       dec_wordIndex := wi |}.
Proof.
  intros Hi Hv Hd. destruct (digit_split v aa d Hv Hd) as [Hmod Hdiv].
  unfold Decode_step. cbn [dec_t dec_s dec_n dec_wordIndex].
  replace ((0 <? i)%nat && (i mod 3 =? 3 - 1)%nat) with false; last first.
  { symmetry. apply andb_false_intro2. apply Nat.eqb_neq. lia. }
  by rewrite Hmod, Hdiv.
Qed.

(** The step that ends a word. *)
Lemma Decode_step_last code words t str v wi i aa d :
  (i mod 3 = 2)%nat -> v = aa * Size alphabet + d -> 0 <= d < Size alphabet ->
  Decode_step alphabet code 3 words
    {| dec_t := t; dec_s := str; dec_n := v; dec_wordIndex := wi |} i
  = if (S wi <? words)%nat then
      {| dec_t := t ++ [symbols alphabet !!! Z.to_nat d :: str]; dec_s := [];
         dec_n := code !!! S wi; dec_wordIndex := S wi |}
    else
      {| dec_t := t; dec_s := symbols alphabet !!! Z.to_nat d :: str; dec_n := aa;
         dec_wordIndex := S wi |}.
Proof.
  intros Hi Hv Hd. destruct (digit_split v aa d Hv Hd) as [Hmod Hdiv].
  unfold Decode_step. cbn [dec_t dec_s dec_n dec_wordIndex].
  replace ((0 <? i)%nat && (i mod 3 =? 3 - 1)%nat) with true; last first.
  { symmetry. apply andb_true_intro. split.
    - apply Nat.ltb_lt. destruct i; [simpl in Hi; lia|lia].
    - apply Nat.eqb_eq. lia. }
  by rewrite Hmod, Hdiv.
Qed.

Lemma mod3_of_chunk (w : nat) :
  ((3 * w) mod 3 = 0 /\ (3 * w + 1) mod 3 = 1 /\ (3 * w + 2) mod 3 = 2)%nat.
Proof.
  pose proof (Nat.div_mod_eq (3 * w) 3). pose proof (Nat.mod_upper_bound (3 * w) 3).
  pose proof (Nat.div_mod_eq (3 * w + 1) 3). pose proof (Nat.mod_upper_bound (3 * w + 1) 3).
  pose proof (Nat.div_mod_eq (3 * w + 2) 3). pose proof (Nat.mod_upper_bound (3 * w + 2) 3).
  lia.
Qed.

(** The decoded text of chunk [w] of [s]. *)
Definition chunkText (s : list Z) (w : nat) : list Z :=
  [canon (s !!! (3 * w)%nat); canon (s !!! (3 * w + 1)%nat); canon (s !!! (3 * w + 2)%nat)].

(** The loop of [Decode] over one full word. *)
Lemma Decode_chunk (s : list Z) code words t wi w :
  ascii7 s ->
  foldl (Decode_step alphabet code 3 words)
    {| dec_t := t; dec_s := []; dec_n := wordValue s w 3; dec_wordIndex := wi |}
    [(3 * w)%nat; (3 * w + 1)%nat; (3 * w + 2)%nat]
  = if (S wi <? words)%nat then
      {| dec_t := t ++ [chunkText s w]; dec_s := []; dec_n := code !!! S wi;
         dec_wordIndex := S wi |}
    else
      {| dec_t := t; dec_s := chunkText s w; dec_n := 0; dec_wordIndex := S wi |}.
Proof.
  intros Hs. destruct (mod3_of_chunk w) as (H0 & H1 & H2).
  pose proof (digit_range s (3 * w) Hs) as Hd0.
  pose proof (digit_range s (3 * w + 1) Hs) as Hd1.
  pose proof (digit_range s (3 * w + 2) Hs) as Hd2.
  cbn [foldl]. unfold wordValue.
  rewrite (Decode_step_inside code words t [] _ wi (3 * w)
             (digit s (3 * w) * Size alphabet + digit s (3 * w + 1)) (digit s (3 * w + 2)))
    by (done || lia).
  rewrite (Decode_step_inside code words t _ _ wi (3 * w + 1)
             (digit s (3 * w)) (digit s (3 * w + 1))) by (done || lia).
  rewrite (Decode_step_last code words t _ _ wi (3 * w + 2) 0 (digit s (3 * w)))
    by (done || lia).
  done.
Qed.

(** The state of [Decode] before any character is taken. *)
Definition decodeStart (code : list Z) : DecodeState :=
  {| dec_t := []; dec_s := []; dec_n := code !!! 0%nat; dec_wordIndex := 0 |}.

Lemma seq_chunk (q : nat) :
  seq 0 (3 * S q) = seq 0 (3 * q) ++ [(3 * q)%nat; (3 * q + 1)%nat; (3 * q + 2)%nat].
Proof.
  replace (3 * S q)%nat with (3 * q + 3)%nat by lia.
  rewrite seq_app. f_equal. cbn [seq Nat.add]. repeat f_equal; lia.
Qed.

(** The loop of [Decode] over the first [q] words of the code of [s]. *)
Lemma Decode_chunks (s : list Z) (k q : nat) :
  ascii7 s -> (3 * q <= k)%nat ->
  foldl (Decode_step alphabet (Encode KmerWord_max alphabet s k 3) 3 (WordsPerKmer k 3))
        (decodeStart (Encode KmerWord_max alphabet s k 3)) (seq 0 (3 * q))
  = if (q =? 0)%nat || (q <? WordsPerKmer k 3)%nat then
      {| dec_t := chunkText s <$> seq 0 q; dec_s := [];
         dec_n := Encode KmerWord_max alphabet s k 3 !!! q; dec_wordIndex := q |}
    else
      {| dec_t := chunkText s <$> seq 0 (q - 1); dec_s := chunkText s (q - 1);
         dec_n := 0; dec_wordIndex := q |}.
Proof.
  intros Hs. induction q as [|q IH]; intros Hq; [done|].
  rewrite seq_chunk, foldl_app, IH by lia.
  assert (q < WordsPerKmer k 3)%nat as Hin.
  { unfold WordsPerKmer. pose proof (Nat.div_mod_eq (k + 3 - 1) 3).
    pose proof (Nat.mod_upper_bound (k + 3 - 1) 3). lia. }
  replace ((q =? 0)%nat || (q <? WordsPerKmer k 3)%nat) with true; last first.
  { symmetry. apply orb_true_intro. right. by apply Nat.ltb_lt. }
  destruct (Encode_words s k Hs) as [Hfull _].
  rewrite Hfull; last first.
  { pose proof (Nat.div_mod_eq k 3). pose proof (Nat.mod_upper_bound k 3). lia. }
  rewrite (Decode_chunk s _ _ _ q q Hs). cbn [Nat.eqb orb].
  destruct (S q <? WordsPerKmer k 3)%nat.
  - by rewrite seq_S, fmap_app.
  - by rewrite Nat.sub_succ, Nat.sub_0_r.
Qed.

Lemma concat_chunkText (s : list Z) (q : nat) :
  concat (chunkText s <$> seq 0 q) = (fun i => canon (s !!! i)) <$> seq 0 (3 * q).
Proof.
  induction q as [|q IH]; [done|].
  rewrite seq_S, fmap_app, concat_app, IH, seq_chunk, fmap_app. f_equal.
Qed.

Lemma take_as_lookups (s : list Z) (k : nat) :
  (k <= length s)%nat -> take k s = (fun i => s !!! i) <$> seq 0 k.
Proof.
  intros Hk. apply list_eq. intros i.
  rewrite list_lookup_fmap. destruct (decide (i < k)%nat) as [Hi|Hi].
  - rewrite lookup_take_lt by done. rewrite lookup_seq_lt by done. simpl.
    apply list_lookup_lookup_total_lt. lia.
  - rewrite lookup_take_ge by lia. by rewrite lookup_seq_ge by lia.
Qed.

Lemma Decode_of_Encode (s : list Z) (k : nat) :
  ascii7 s -> (k <= length s)%nat ->
  Decode alphabet (Encode KmerWord_max alphabet s k 3) k 3 = canon <$> take k s.
Proof.
  intros Hs Hk. rewrite take_as_lookups by done. rewrite <-list_fmap_compose.
  unfold compose.
  unfold Decode. fold (WordsPerKmer k 3).
  fold (decodeStart (Encode KmerWord_max alphabet s k 3)).
  pose proof (Nat.div_mod_eq k 3) as Hdm. pose proof (Nat.mod_upper_bound k 3 ltac:(lia)) as Hr.
  set (q := (k / 3)%nat) in *. set (r := (k mod 3)%nat) in *.
  assert (WordsPerKmer k 3 = if (r =? 0)%nat then q else S q) as Hwords.
  { unfold WordsPerKmer. pose proof (Nat.div_mod_eq (k + 3 - 1) 3).
    pose proof (Nat.mod_upper_bound (k + 3 - 1) 3).
    destruct (Nat.eqb_spec r 0); lia. }
  assert (seq 0 k = seq 0 (3 * q) ++ seq (3 * q) r) as ->.
  { rewrite <-(Nat.add_0_l (3 * q)) at 2. rewrite <-seq_app. f_equal. lia. }
  rewrite foldl_app, fmap_app.
  rewrite (Decode_chunks s k q Hs) by lia.
  destruct (Encode_words s k Hs) as [_ Hlast]. fold q r in Hlast.
  rewrite <-concat_chunkText.
  destruct (mod3_of_chunk q) as (H0 & H1 & _).
  destruct r as [|[|[|r]]]; [| | |lia].
  - cbn [seq foldl fmap list_fmap]. rewrite app_nil_r. rewrite Hwords. cbn [Nat.eqb].
    rewrite Nat.ltb_irrefl, orb_false_r.
    destruct q as [|q']; [done|]. cbn [Nat.eqb dec_t dec_s].
    rewrite Nat.sub_succ, Nat.sub_0_r. by rewrite seq_S, fmap_app.
  - replace ((q =? 0)%nat || (q <? WordsPerKmer k 3)%nat) with true; last first.
    { symmetry. apply orb_true_intro. right. apply Nat.ltb_lt. rewrite Hwords. simpl. lia. }
    cbn [seq foldl]. rewrite Hlast by lia. unfold wordValue.
    pose proof (digit_range s (3 * q) Hs) as Hd0.
    rewrite (Decode_step_inside _ _ _ [] _ q (3 * q) 0 (digit s (3 * q))) by (done || lia).
    cbn [dec_t dec_s]. by rewrite concat_app.
  - replace ((q =? 0)%nat || (q <? WordsPerKmer k 3)%nat) with true; last first.
    { symmetry. apply orb_true_intro. right. apply Nat.ltb_lt. rewrite Hwords. simpl. lia. }
    cbn [seq foldl]. rewrite Hlast by lia. unfold wordValue.
    pose proof (digit_range s (3 * q) Hs) as Hd0.
    pose proof (digit_range s (3 * q + 1) Hs) as Hd1.
    rewrite (Decode_step_inside _ _ _ [] _ q (3 * q) (digit s (3 * q)) (digit s (3 * q + 1)))
      by (done || lia).
    replace (S (3 * q)) with (3 * q + 1)%nat by lia.
    rewrite (Decode_step_inside _ _ _ _ _ q (3 * q + 1) 0 (digit s (3 * q)))
      by (done || lia).
    cbn [dec_t dec_s]. by rewrite concat_app.
Qed.

End RoundTrip.
Lemma case_fixed (ch : Z) : tolower ch = ch \/ toupper ch = ch.
Proof.
  unfold tolower, toupper.
  destruct (Z.leb_spec 65 ch), (Z.leb_spec ch 90), (Z.leb_spec 97 ch), (Z.leb_spec ch 122);
    cbn [andb]; lia.
Qed.

Lemma canon_of_symbol (a : Alphabet) (ch : Z) :
  Forall (fun ch => 0 <= ch < 128) (symbols a) ->
  NoDup (toupper <$> symbols a) ->
  ch ∈ symbols a -> canon a ch = ch.
Proof.
  intros Hascii Hnodup Hin.
  apply list_elem_of_lookup_1 in Hin as [i Hi].
  pose proof (lookup_lt_Some _ _ _ Hi) as Hlt.
  pose proof (list_lookup_total_correct _ _ _ Hi) as Hsym.
  destruct (proj2 (inverse_prefix a (length (symbols a)) Hascii Hnodup (le_n _))
              i Hlt) as [Hlo Hup].
  fold (inverse a) in Hlo, Hup.
  rewrite Hsym in Hlo, Hup. unfold canon.
  destruct (case_fixed ch) as [Hfix|Hfix]; rewrite Hfix in *.
  - by rewrite Hlo, Nat2Z.id.
  - by rewrite Hup, Nat2Z.id.
Qed.

(** X9. At 3 characters per word every word of the code that [Encode]
    writes is below the number of words of three symbols, so that no store
    into a [KmerWord] wraps around, provided that number fits a [KmerWord]. *)
Theorem Encode_words_below_vocabulary (KmerWord_max : Z) (a : Alphabet)
    (s : list Z) (k w : nat) :
  0 < Size a <= 40 ->
  Size a * Size a * Size a <= KmerWord_max ->
  Forall (fun ch => 0 <= ch < 128) s ->
  (w < WordsPerKmer k 3)%nat ->
  0 <= Encode KmerWord_max a s k 3 !!! w < Size a * Size a * Size a.
Proof.
  intros Hsize Hfits Hs Hw.
  destruct (Encode_range KmerWord_max a Hsize s k Hfits Hs) as [Hfull Hrest].
  change (Size a * Size a * Size a) with (pw a 3).
  pose proof (Nat.div_mod_eq k 3). pose proof (Nat.mod_upper_bound k 3 ltac:(lia)).
  assert (WordsPerKmer k 3 = if (k mod 3 =? 0)%nat then (k / 3)%nat else S (k / 3)) as Hwords.
  { unfold WordsPerKmer. pose proof (Nat.div_mod_eq (k + 3 - 1) 3).
    pose proof (Nat.mod_upper_bound (k + 3 - 1) 3).
    destruct (Nat.eqb_spec (k mod 3) 0); lia. }
  destruct (decide (w < k / 3)%nat) as [Hlt|Hge]; [by apply Hfull|].
  destruct (Nat.eqb_spec (k mod 3) 0) as [Hz|Hnz]; [lia|].
  assert (w = (k / 3)%nat) as -> by lia.
  pose proof (pw_le a Hsize (k mod 3) ltac:(lia)).
  specialize (Hrest ltac:(lia)). lia.
Qed.

(** X9, witness: the second word of the code of [abab]. *)
Lemma Encode_words_below_vocabulary_witness :
  0 <= Encode 65535 ab [97; 98; 97; 98] 4 3 !!! 1%nat < Size ab * Size ab * Size ab.
Proof.
  apply (Encode_words_below_vocabulary 65535 ab [97; 98; 97; 98] 4 1).
  - vm_compute. split; [reflexivity | discriminate].
  - vm_compute. discriminate.
  - repeat constructor; lia.
  - vm_compute. lia.
Defined.

(** X10. [Decode] inverts [Encode] at 3 characters per word: when the
    symbols of the alphabet are 7-bit characters that differ from each other
    also when case is ignored, and the number of words of three symbols fits
    a [KmerWord], the code of the first [k] characters of a string of
    symbols of the alphabet decodes to these [k] characters. *)
Theorem Decode_inverts_Encode (KmerWord_max : Z) (a : Alphabet) (s : list Z) (k : nat) :
  0 < Size a <= 40 ->
  Size a * Size a * Size a <= KmerWord_max ->
  Forall (fun ch => 0 <= ch < 128) (symbols a) ->
  NoDup (toupper <$> symbols a) ->
  Forall (fun ch => ch ∈ symbols a) s ->
  (k <= length s)%nat ->
  Decode a (Encode KmerWord_max a s k 3) k 3 = take k s.
Proof.
  intros Hsize Hfits Hascii Hnodup Hs Hk.
  assert (ascii7 s) as Hs7.
  { unfold ascii7. eapply Forall_impl; [exact Hs|]. intros ch Hch. simpl in Hch.
    by eapply Forall_forall in Hascii. }
  rewrite (Decode_of_Encode KmerWord_max a Hsize Hfits s k Hs7 Hk).
  rewrite <-(list_fmap_id (take k s)) at 2.
  apply list_fmap_ext. intros i ch Hch. simpl.
  apply canon_of_symbol; [done..|].
  apply lookup_take_Some in Hch as [Hch _].
  eapply Forall_lookup_1 in Hs; [exact Hs|exact Hch].
Qed.

(** X10, witness: the 5-mer [abcab] over the alphabet [abc]. *)
Lemma Decode_inverts_Encode_witness :
  Decode abc (Encode 65535 abc [97; 98; 99; 97; 98] 5 3) 5 3 = take 5 [97; 98; 99; 97; 98].
Proof.
  apply (Decode_inverts_Encode 65535 abc [97; 98; 99; 97; 98] 5).
  - vm_compute. split; [reflexivity | discriminate].
  - vm_compute. discriminate.
  - repeat constructor; lia.
  - apply (bool_decide_unpack _). by vm_compute.
  - repeat constructor; apply (bool_decide_unpack _); by vm_compute.
  - simpl. lia.
Defined.

(** ** The assignment step of Partition *)

Section PartitionFacts.

Variable distance : list Z -> list Z -> nat -> Z.
Variable kmerLength : nat.
Variable threshold : Z.

(** The distance of the current k-mer to a prototype code. *)
Definition protoDistance (currentCode protoCode : list Z) : Z :=
  wrap16 (distance currentCode protoCode kmerLength).

Lemma selectProto_nearest currentCode protoCodes :
  forall k pos d0,
    let '(pos', d') :=
      selectProto distance kmerLength threshold SelectNearest currentCode protoCodes k pos d0 in
    d' <= d0 /\
    (d' = d0 -> pos' = pos) /\
    (forall j code, protoCodes !! j = Some (Some code) -> d' <= protoDistance currentCode code) /\
    (d' < d0 ->
     exists j code,
       protoCodes !! j = Some (Some code) /\ pos' = Z.of_nat (k + j) /\
       d' = protoDistance currentCode code /\
       forall j' code', (j' < j)%nat -> protoCodes !! j' = Some (Some code') ->
         d' < protoDistance currentCode code').
Proof.
  induction protoCodes as [|[code|] rest IH]; intros k pos d0.
  - simpl. split; [lia|]. split; [done|]. split; [intros j code Hj; done|lia].
  - cbn [selectProto]. fold (protoDistance currentCode code).
    destruct (Z.ltb_spec (protoDistance currentCode code) d0) as [Hlt|Hge].
    + specialize (IH (S k) (Z.of_nat k) (protoDistance currentCode code)).
      destruct (selectProto _ _ _ _ _ rest _ _ _) as [pos' d'].
      destruct IH as (Hle & Hsame & Hmin & Hfound).
      split; [lia|]. split; [lia|]. split.
      * intros [|j] c Hj; simpl in Hj; [by injection Hj as <-|by apply (Hmin j)].
      * intros _. destruct (Z.eq_dec d' (protoDistance currentCode code)) as [Heq|Hne].
        -- exists 0%nat, code. split; [done|]. split; [rewrite Hsame by done; f_equal; lia|].
           split; [done|]. intros j' c' Hj'. lia.
        -- destruct Hfound as (j & c & Hj & Hpos & Hd & Hleast); [lia|].
           exists (S j), c. split; [done|]. split; [rewrite Hpos; f_equal; lia|].
           split; [done|]. intros [|j'] c' Hlt' Hj'; simpl in Hj'.
           ++ injection Hj' as <-. lia.
           ++ apply (Hleast j'); [lia|done].
    + specialize (IH (S k) pos d0).
      destruct (selectProto _ _ _ _ _ rest _ _ _) as [pos' d'].
      destruct IH as (Hle & Hsame & Hmin & Hfound).
      split; [done|]. split; [done|]. split.
      * intros [|j] c Hj; simpl in Hj; [injection Hj as <-; lia|by apply (Hmin j)].
      * intros Hlt. destruct (Hfound Hlt) as (j & c & Hj & Hpos & Hd & Hleast).
        exists (S j), c. split; [done|]. split; [rewrite Hpos; f_equal; lia|].
        split; [done|]. intros [|j'] c' Hlt' Hj'; simpl in Hj'.
        -- injection Hj' as <-. lia.
        -- apply (Hleast j'); [lia|done].
  - cbn [selectProto]. specialize (IH (S k) pos d0).
    destruct (selectProto _ _ _ _ _ rest _ _ _) as [pos' d'].
    destruct IH as (Hle & Hsame & Hmin & Hfound).
    split; [done|]. split; [done|]. split.
    + intros [|j] c Hj; simpl in Hj; [done|by apply (Hmin j)].
    + intros Hlt. destruct (Hfound Hlt) as (j & c & Hj & Hpos & Hd & Hleast).
      exists (S j), c. split; [done|]. split; [rewrite Hpos; f_equal; lia|].
      split; [done|]. intros [|j'] c' Hlt' Hj'; simpl in Hj'; [done|].
      apply (Hleast j'); [lia|done].
Qed.

Lemma selectProto_greedy currentCode protoCodes :
  forall k pos d0,
    let '(pos', d') :=
      selectProto distance kmerLength threshold SelectGreedy currentCode protoCodes k pos d0 in
    (pos' = pos /\ d' = d0 /\
     forall j code, protoCodes !! j = Some (Some code) ->
       threshold < protoDistance currentCode code) \/
    (exists j code,
       protoCodes !! j = Some (Some code) /\ pos' = Z.of_nat (k + j) /\
       d' = protoDistance currentCode code /\ d' <= threshold /\
       forall j' code', (j' < j)%nat -> protoCodes !! j' = Some (Some code') ->
         threshold < protoDistance currentCode code').
Proof.
  induction protoCodes as [|[code|] rest IH]; intros k pos d0.
  - simpl. left. split; [done|]. split; [done|]. intros j code Hj. done.
  - cbn [selectProto]. fold (protoDistance currentCode code).
    destruct (Z.leb_spec (protoDistance currentCode code) threshold) as [Hle|Hgt].
    + right. exists 0%nat, code. split; [done|]. split; [f_equal; lia|].
      split; [done|]. split; [done|]. intros j' c' Hj'. lia.
    + specialize (IH (S k) pos d0).
      destruct (selectProto _ _ _ _ _ rest _ _ _) as [pos' d'].
      destruct IH as [(Hpos & Hd & Hall)|(j & c & Hj & Hpos & Hd & Hle & Hleast)].
      * left. split; [done|]. split; [done|].
        intros [|j] c Hj; simpl in Hj; [by injection Hj as <-|by apply (Hall j)].
      * right. exists (S j), c. split; [done|]. split; [rewrite Hpos; f_equal; lia|].
        split; [done|]. split; [done|]. intros [|j'] c' Hlt' Hj'; simpl in Hj'.
        -- by injection Hj' as <-.
        -- apply (Hleast j'); [lia|done].
  - cbn [selectProto]. specialize (IH (S k) pos d0).
    destruct (selectProto _ _ _ _ _ rest _ _ _) as [pos' d'].
    destruct IH as [(Hpos & Hd & Hall)|(j & c & Hj & Hpos & Hd & Hle & Hleast)].
    + left. split; [done|]. split; [done|].
      intros [|j] c Hj; simpl in Hj; [done|by apply (Hall j)].
    + right. exists (S j), c. split; [done|]. split; [rewrite Hpos; f_equal; lia|].
      split; [done|]. split; [done|]. intros [|j'] c' Hlt' Hj'; simpl in Hj'; [done|].
      apply (Hleast j'); [lia|done].
Qed.

End PartitionFacts.

(** X11. In the mode [SelectNearest] and at a threshold below the largest
    [Distance], [Partition] assigns a k-mer to the prototype at the least
    index among those at the least distance from it, when that distance is
    within the threshold, and to no prototype when every prototype is
    farther than the threshold; null prototype codes are passed over. *)
Theorem Partition_selects_nearest_prototype (distance : list Z -> list Z -> nat -> Z)
    (kmerLength : nat) (threshold : Z) (currentCode : list Z)
    (protoCodes : list (option (list Z))) :
  threshold < MAX_DIST ->
  match assignKmer distance kmerLength threshold SelectNearest currentCode protoCodes with
  | Some (pos, d) =>
      exists j code,
        pos = Z.of_nat j /\ protoCodes !! j = Some (Some code) /\
        d = wrap16 (distance currentCode code kmerLength) /\ d <= threshold /\
        (forall j' code', protoCodes !! j' = Some (Some code') ->
           d <= wrap16 (distance currentCode code' kmerLength)) /\
        (forall j' code', (j' < j)%nat -> protoCodes !! j' = Some (Some code') ->
           d < wrap16 (distance currentCode code' kmerLength))
  | None =>
      forall j code, protoCodes !! j = Some (Some code) ->
        threshold < wrap16 (distance currentCode code kmerLength)
  end.
Proof.
  intros Hthr. unfold assignKmer.
  pose proof (selectProto_nearest distance kmerLength threshold currentCode protoCodes
                0 UINT_MAX MAX_DIST) as Hsel.
  destruct (selectProto _ _ _ _ _ _ _ _ _) as [pos d].
  destruct Hsel as (Hle & _ & Hmin & Hfound).
  destruct (Z.leb_spec d threshold) as [Hin|Hout].
  - destruct Hfound as (j & code & Hj & Hpos & Hd & Hleast); [lia|].
    exists j, code. split; [done|]. split; [done|]. split; [done|]. split; [done|].
    split; [exact Hmin|exact Hleast].
  - intros j code Hj. specialize (Hmin j code Hj). unfold protoDistance in Hmin. lia.
Qed.

(** X11, witness: the code of [b] against the prototypes [c], null and [b]
    under [distanceABC] at threshold 5. *)
Lemma Partition_selects_nearest_prototype_witness :
  match assignKmer distanceABC 1 5 SelectNearest [1] [Some [2]; None; Some [1]] with
  | Some (pos, d) =>
      exists j code,
        pos = Z.of_nat j /\ [Some [2]; None; Some [1]] !! j = Some (Some code) /\
        d = wrap16 (distanceABC [1] code 1) /\ d <= 5 /\
        (forall j' code', [Some [2]; None; Some [1]] !! j' = Some (Some code') ->
           d <= wrap16 (distanceABC [1] code' 1)) /\
        (forall j' code', (j' < j)%nat -> [Some [2]; None; Some [1]] !! j' = Some (Some code') ->
           d < wrap16 (distanceABC [1] code' 1))
  | None =>
      forall j code, [Some [2]; None; Some [1]] !! j = Some (Some code) ->
        5 < wrap16 (distanceABC [1] code 1)
  end.
Proof.
  apply (Partition_selects_nearest_prototype distanceABC 1 5 [1] [Some [2]; None; Some [1]]).
  by vm_compute.
Defined.

(** X12. In the mode [SelectGreedy] and at a threshold below the largest
    [Distance], [Partition] assigns a k-mer to the first prototype that is
    within the threshold of it, and to no prototype when every prototype is
    farther than the threshold; null prototype codes are passed over. *)
Theorem Partition_selects_first_prototype_within (distance : list Z -> list Z -> nat -> Z)
    (kmerLength : nat) (threshold : Z) (currentCode : list Z)
    (protoCodes : list (option (list Z))) :
  threshold < MAX_DIST ->
  match assignKmer distance kmerLength threshold SelectGreedy currentCode protoCodes with
  | Some (pos, d) =>
      exists j code,
        pos = Z.of_nat j /\ protoCodes !! j = Some (Some code) /\
        d = wrap16 (distance currentCode code kmerLength) /\ d <= threshold /\
        (forall j' code', (j' < j)%nat -> protoCodes !! j' = Some (Some code') ->
           threshold < wrap16 (distance currentCode code' kmerLength))
  | None =>
      forall j code, protoCodes !! j = Some (Some code) ->
        threshold < wrap16 (distance currentCode code kmerLength)
  end.
Proof.
  intros Hthr. unfold assignKmer.
  pose proof (selectProto_greedy distance kmerLength threshold currentCode protoCodes
                0 UINT_MAX MAX_DIST) as Hsel.
  destruct (selectProto _ _ _ _ _ _ _ _ _) as [pos d].
  destruct Hsel as [(Hpos & Hd & Hall)|(j & code & Hj & Hpos & Hd & Hle & Hleast)].
  - destruct (Z.leb_spec d threshold) as [Hin|Hout]; [lia|]. exact Hall.
  - destruct (Z.leb_spec d threshold) as [Hin|Hout]; [|lia].
    exists j, code. split; [done|]. split; [done|]. split; [done|]. split; [done|].
    exact Hleast.
Qed.

(** X12, witness: the same k-mer and prototypes. *)
Lemma Partition_selects_first_prototype_within_witness :
  match assignKmer distanceABC 1 5 SelectGreedy [1] [Some [2]; None; Some [1]] with
  | Some (pos, d) =>
      exists j code,
        pos = Z.of_nat j /\ [Some [2]; None; Some [1]] !! j = Some (Some code) /\
        d = wrap16 (distanceABC [1] code 1) /\ d <= 5 /\
        (forall j' code', (j' < j)%nat -> [Some [2]; None; Some [1]] !! j' = Some (Some code') ->
           5 < wrap16 (distanceABC [1] code' 1))
  | None =>
      forall j code, [Some [2]; None; Some [1]] !! j = Some (Some code) ->
        5 < wrap16 (distanceABC [1] code 1)
  end.
Proof.
  apply (Partition_selects_first_prototype_within distanceABC 1 5 [1]
           [Some [2]; None; Some [1]]).
  by vm_compute.
Defined.

(** ** The records of the k-mer index *)

Section IndexRecords.

Variable dataset : list EncodedFastaSequence.
Variable kmerLength : nat.







End IndexRecords.

(** ** The global variant attaches every k-mer once *)

(** The texts of the k-mers of a list, and the members of all clusters. *)
Definition texts (l : list Kmer) : list (list Z) := substring <$> l.

Definition members (cs : list Cluster) : list Kmer := concat (kmers <$> cs).

Lemma members_app cs1 cs2 : members (cs1 ++ cs2) = members cs1 ++ members cs2.
Proof. unfold members. by rewrite fmap_app, concat_app. Qed.

Lemma members_alter_AddParallel kmer j (cs : list Cluster) :
  (j < length cs)%nat -> members (alter (AddParallel kmer) j cs) ≡ₚ kmer :: members cs.
Proof.
  revert j. induction cs as [|c cs IH]; intros j Hj; simpl in Hj; [lia|].
  destruct j as [|j].
  - unfold members. simpl. rewrite <-app_assoc. simpl.
    by rewrite <-Permutation_middle.
  - change (alter (AddParallel kmer) (S j) (c :: cs))
      with (c :: alter (AddParallel kmer) j cs).
    change (members (c :: alter (AddParallel kmer) j cs))
      with (kmers c ++ members (alter (AddParallel kmer) j cs)).
    change (members (c :: cs)) with (kmers c ++ members cs).
    rewrite IH by lia. by rewrite <-Permutation_middle.
Qed.

Lemma texts_app l1 l2 : texts (l1 ++ l2) = texts l1 ++ texts l2.
Proof. apply fmap_app. Qed.

Lemma scaleDraw_lt (u : UnitDraw) (range : nat) :
  (0 < range)%nat -> (scaleDraw u range < range)%nat.
Proof.
  intros Hr. unfold scaleDraw. apply Nat.Div0.div_lt_upper_bound. nia.
Qed.

Section BagFacts.

Variable K : nat.
Variable threshold : Q.
Variable symbolCodeDist : list Z -> list Z -> nat -> Z.
Variable createPrototype : Kmer -> Kmer.
Variable rand : nat -> UnitDraw.

Local Abbreviation findAttractor := (findAttractor K threshold symbolCodeDist).
Local Abbreviation scanOne := (scanOne K threshold symbolCodeDist).
Local Abbreviation scan := (scan K threshold symbolCodeDist).
Local Abbreviation seedClusters := (seedClusters createPrototype).
Local Abbreviation DoIncrementalClusteringParallel :=
  (DoIncrementalClusteringParallel K threshold symbolCodeDist createPrototype).
Local Abbreviation passLoop := (passLoop K threshold symbolCodeDist createPrototype).
Local Abbreviation setup := (setup K threshold symbolCodeDist rand).
Local Abbreviation filterOne := (filterOne K threshold symbolCodeDist).
Local Abbreviation shuffle := (shuffle rand).

(** The texts of the members of the clusters followed by the texts of the
    k-mers of the unallocated range. *)
Definition bag (st : State) : list (list Z) :=
  texts (members (clusters st)) ++ texts (drop (firstUnallocIndex st) (allKmers st)).

(** The scan loop after [m] iterations: the members and the k-mers between
    the high-water mark and the position of the loop are the former members
    and the k-mers that the loop has passed. *)
Lemma scan_prefix_bag firstClusterIndex (st : State) (m : nat) :
  (firstUnallocIndex st + m <= length (allKmers st))%nat ->
  let st' := foldl (scanOne firstClusterIndex) st (seq (firstUnallocIndex st) m) in
  texts (members (clusters st'))
    ++ texts (drop (firstUnallocIndex st') (take (firstUnallocIndex st + m) (allKmers st')))
  ≡ₚ texts (members (clusters st))
     ++ texts (take m (drop (firstUnallocIndex st) (allKmers st))).
Proof.
  induction m as [|m IH]; intros Hm st'.
  - subst st'. cbn [seq foldl]. rewrite Nat.add_0_r, take_0.
    by rewrite drop_ge by (rewrite length_take; lia).
  - subst st'. rewrite seq_S, foldl_app. cbn [foldl].
    specialize (IH ltac:(lia)). cbv zeta in IH.
    destruct (scan_prefix K threshold symbolCodeDist firstClusterIndex st m ltac:(lia))
      as (Hlen & Hf & Hdrop & _ & Hproto & _).
    set (stm := foldl (scanOne firstClusterIndex) st (seq (firstUnallocIndex st) m)) in *.
    set (i := (firstUnallocIndex st + m)%nat) in *.
    assert (allKmers stm !!! i = allKmers st !!! i) as Hi
      by (by apply lookup_total_of_drop).
    assert (allKmers stm !! i = Some (allKmers st !!! i)) as Hlook.
    { rewrite <-Hi. apply list_lookup_lookup_total_lt. lia. }
    assert (take (S m) (drop (firstUnallocIndex st) (allKmers st))
            = take m (drop (firstUnallocIndex st) (allKmers st)) ++ [allKmers st !!! i]) as Hsnoc.
    { apply take_S_r. rewrite lookup_drop. apply list_lookup_lookup_total_lt. lia. }
    unfold texts in *. rewrite Hsnoc, fmap_app, app_assoc, <-IH.
    replace (firstUnallocIndex st + S m)%nat with (S i) by lia.
    set (e := allKmers st !!! i) in *.
    unfold KmerCluster.scanOne. rewrite Hi.
    destruct (findAttractor (clusters stm) firstClusterIndex (encoding e))
      as [[j d]|] eqn:Hfit.
    + apply findAttractor_Some in Hfit as (_ & (c & Hc & _) & _).
      apply lookup_lt_Some in Hc.
      unfold assign. cbn [clusters allKmers firstUnallocIndex]. rewrite Hi.
      set (km := setDistanceFromPrototype e d).
      set (l := allKmers stm) in *. set (f := firstUnallocIndex stm) in *.
      assert (substring <$> drop (S f) (take (S i)
                (if (f <? i)%nat then swap (<[i := km]> l) f i else <[i := km]> l))
              ≡ₚ substring <$> drop f (take i l)) as Hrest.
      { destruct (Nat.ltb_spec f i) as [Hlt|Hge].
        - assert (swap (<[i := km]> l) f i = <[f := km]> (<[i := l !!! f]> l)) as ->.
          { unfold swap.
            rewrite list_lookup_total_insert_eq by lia.
            rewrite list_lookup_total_insert_ne by lia.
            by rewrite list_insert_insert_eq. }
          rewrite take_insert_lt by lia. rewrite drop_insert_lt by lia.
          rewrite (take_S_r _ i (l !!! f)); last first.
          { apply list_lookup_insert_eq. lia. }
          rewrite take_insert_ge by lia.
          rewrite drop_app_le by (rewrite length_take; lia).
          rewrite (drop_S (take i l) (l !!! f) f); last first.
          { rewrite lookup_take_lt by lia. apply list_lookup_lookup_total_lt. lia. }
          rewrite fmap_app. symmetry. apply Permutation_cons_append.
        - rewrite !drop_ge; [done|rewrite length_take; lia|rewrite length_take; lia]. }
      rewrite Hrest, (members_alter_AddParallel km j _ Hc).
      rewrite fmap_cons. change (substring km) with (substring e).
      cbn [fmap list_fmap app]. by rewrite <-Permutation_cons_append.
    + rewrite (take_S_r _ i e Hlook).
      rewrite drop_app_le by (rewrite length_take; lia).
      by rewrite fmap_app, app_assoc.
Qed.

Lemma scan_bag firstClusterIndex (st : State) :
  (firstUnallocIndex st <= length (allKmers st))%nat ->
  bag (scan [] firstClusterIndex st) ≡ₚ bag st.
Proof.
  intros Hf. rewrite scan_oneThread. unfold bag.
  pose proof (scan_prefix_bag firstClusterIndex st
                (length (allKmers st) - firstUnallocIndex st) ltac:(lia)) as Hbag.
  destruct (scan_prefix K threshold symbolCodeDist firstClusterIndex st
              (length (allKmers st) - firstUnallocIndex st) ltac:(lia)) as (Hlen & _).
  cbv zeta in Hbag.
  rewrite take_ge in Hbag by lia.
  by rewrite take_ge in Hbag by (rewrite length_drop; lia).
Qed.

Lemma members_seedClusters cs allKmers first wanted :
  members (seedClusters cs allKmers first wanted) = members cs.
Proof.
  unfold KmerCluster.seedClusters. generalize (seq first wanted). intros l.
  revert cs. induction l as [|i l IH]; intros cs; [done|].
  cbn [foldl]. rewrite IH, members_app. unfold members at 2. simpl. by rewrite app_nil_r.
Qed.

(** A pass that returns keeps the bag, when one thread runs its scan loop. *)
Lemma DoIncrementalClusteringParallel_bag requested firstClusterIndex (st st' : State) :
  (firstUnallocIndex st <= length (allKmers st))%nat ->
  DoIncrementalClusteringParallel [] requested firstClusterIndex st = Returned st' ->
  bag st' ≡ₚ bag st.
Proof.
  intros Hf. unfold KmerCluster.DoIncrementalClusteringParallel.
  destruct ((length (clusters st) =? 0)%nat && (requested =? 0)%nat); [done|].
  intros [= <-]. rewrite scan_bag by done. unfold bag. cbn [clusters allKmers firstUnallocIndex].
  destruct (0 <? requested)%nat; [|done]. by rewrite members_seedClusters.
Qed.

Lemma passLoop_bag clusterIncrement N fuel :
  forall increment firstClusterIndex (st : State) counts o,
    (firstUnallocIndex st <= length (allKmers st))%nat ->
    passLoop clusterIncrement N fuel increment firstClusterIndex [] st = Some (counts, o) ->
    bag (outcomeState o) ≡ₚ bag st.
Proof.
  induction fuel as [|fuel IH]; intros increment firstClusterIndex st counts o Hf.
  - cbn [KmerCluster.passLoop]. destruct (firstUnallocIndex st <? N)%nat; [done|].
    by intros [= _ <-].
  - cbn [KmerCluster.passLoop hd tl].
    destruct (firstUnallocIndex st <? N)%nat; [|by intros [= _ <-]].
    pose proof (DoIncrementalClusteringParallel_spec K threshold symbolCodeDist createPrototype
                  increment firstClusterIndex st Hf) as Hpass.
    pose proof (DoIncrementalClusteringParallel_bag increment firstClusterIndex st) as Hbag.
    destruct (DoIncrementalClusteringParallel [] increment firstClusterIndex st)
      as [st'|e st'].
    + destruct Hpass as (Hlen & Hb & _). specialize (Hbag st' Hf eq_refl).
      destruct (firstUnallocIndex st' =? firstUnallocIndex st)%nat.
      * by intros [= _ <-].
      * destruct (passLoop clusterIncrement N fuel clusterIncrement (length (clusters st')) [] st')
          as [[counts' o']|] eqn:Hrest; [|done].
        intros [= _ <-]. apply IH in Hrest; [|lia]. by rewrite Hrest.
    + destruct Hpass as (_ & -> & _). by intros [= _ <-].
Qed.

(** The set-up only reorders the k-mers. *)
Lemma filter_loop_Permutation (idxs : list nat) (acc : list Kmer * nat) :
  Forall (fun i => (i < length acc.1)%nat) idxs ->
  (foldl filterOne acc idxs).1 ≡ₚ acc.1.
Proof.
  revert acc. induction idxs as [|i idxs IH]; intros [ks f] Hidx; [done|].
  apply Forall_cons in Hidx as [Hi Hidx]. cbn [foldl]. simpl in Hi.
  assert ((filterOne (ks, f) i).1 ≡ₚ ks /\ length (filterOne (ks, f) i).1 = length ks)
    as [Hperm Hlen].
  { unfold KmerCluster.filterOne. destruct (selfMatchTooFar _ _ _ _); [|done].
    destruct (Nat.ltb_spec f i); [|done]. cbn [fst]. split.
    - apply swap_Permutation; lia.
    - apply length_swap. }
  rewrite IH; [done|]. by rewrite Hlen.
Qed.

Lemma shuffle_Permutation first last calls (l : list Kmer) :
  (last <= length l)%nat -> shuffle first last calls l ≡ₚ l.
Proof.
  intros Hlast. unfold KmerCluster.shuffle.
  assert (Forall (fun i => (first <= i < last)%nat) (seq first (last - first))) as Hidx.
  { apply Forall_forall. intros i Hi. apply elem_of_seq in Hi. lia. }
  revert Hidx. generalize (seq first (last - first)). intros idxs. revert l Hlast.
  induction idxs as [|i idxs IH]; intros l Hlast Hidx; [done|].
  apply Forall_cons in Hidx as [Hi Hidx]. cbn [foldl].
  pose proof (scaleDraw_lt (rand (calls + (i - first))) (last - first) ltac:(lia)) as Hdraw.
  rewrite IH; [|unfold shuffleOne; rewrite length_swap; lia|done].
  unfold shuffleOne. apply swap_Permutation; lia.
Qed.

Lemma setup_Permutation (kmerIndex : list Kmer) (clusters0 : list Cluster) :
  allKmers (setup kmerIndex clusters0) ≡ₚ kmerIndex.
Proof.
  unfold KmerCluster.setup.
  pose proof (filter_loop_Permutation (filterIndices (length kmerIndex)) (kmerIndex, 0%nat)
                (filterIndices_lt _)) as Hperm.
  pose proof (filter_loop K threshold symbolCodeDist (length kmerIndex)
                (filterIndices (length kmerIndex))
                (kmerIndex, 0%nat) (filterIndices_lt _) eq_refl ltac:(simpl; lia)) as [Hlen Hf].
  destruct (foldl filterOne (kmerIndex, 0%nat) (filterIndices (length kmerIndex))) as [ks f].
  cbn [allKmers fst snd] in *. rewrite shuffle_Permutation by lia. done.
Qed.

End BagFacts.



(** X15. The set-up of the global variant only reorders the k-mers: the
    array that the pass loop starts from is a permutation of the k-mers of
    the index. *)
Theorem setup_reorders_the_kmers (K : nat) (threshold : Q)
    (symbolCodeDist : list Z -> list Z -> nat -> Z) (rand : nat -> UnitDraw)
    (kmerIndex : list Kmer) (clusters0 : list Cluster) :
  allKmers (setup K threshold symbolCodeDist rand kmerIndex clusters0) ≡ₚ kmerIndex.
Proof. apply setup_Permutation. Qed.
(** ** Counting and distributing the k-mers of a cluster *)


Lemma Cluster_Size_exact (ks : list Kmer) (total : Z) :
  0 <= total ->
  total + Z.of_nat (sum_list ((fun k => length (instances k)) <$> ks)) < 18446744073709551616 ->
  foldl (fun total k => wrap_size_t (total + Z.of_nat (length (instances k)))) total ks
  = total + Z.of_nat (sum_list ((fun k => length (instances k)) <$> ks)).
Proof.
  revert total. induction ks as [|k ks IH]; intros total H0 Hfit.
  - simpl. lia.
  - cbn [foldl]. rewrite fmap_cons, sum_list_cons in Hfit |- *.
    assert (wrap_size_t (total + Z.of_nat (length (instances k)))
            = total + Z.of_nat (length (instances k))) as ->.
    { unfold wrap_size_t. apply Z.mod_small. lia. }
    rewrite IH by lia. lia.
Qed.

Lemma InstanceCount_exact (ks : list Kmer) (acc : Z) :
  0 <= acc ->
  acc + Z.of_nat (sum_list ((fun k => length (instances k)) <$> ks)) < 2147483648 ->
  foldl (fun accumulated kmer =>
           to_int (wrap_size_t (wrap_size_t accumulated
                                + Z.of_nat (length (instances kmer))))) acc ks
  = acc + Z.of_nat (sum_list ((fun k => length (instances k)) <$> ks)).
Proof.
  revert acc. induction ks as [|k ks IH]; intros acc H0 Hfit.
  - simpl. lia.
  - cbn [foldl]. rewrite fmap_cons, sum_list_cons in Hfit |- *.
    assert (to_int (wrap_size_t (wrap_size_t acc + Z.of_nat (length (instances k))))
            = acc + Z.of_nat (length (instances k))) as ->.
    { unfold wrap_size_t, to_int. rewrite (Z.mod_small acc) by lia.
      rewrite (Z.mod_small (acc + _)) by lia. rewrite Z.mod_small by lia. lia. }
    rewrite IH by lia. lia.
Qed.

(** X16. For a cluster whose k-mers have fewer than 2^31 instances in all,
    [InstanceCount] and [Size] return the same number, the sum of the sizes
    of the instance lists. *)
Theorem InstanceCount_agrees_with_Size (c : Cluster) :
  Z.of_nat (sum_list ((fun k => length (instances k)) <$> kmers c)) < 2147483648 ->
  InstanceCount c = Z.of_nat (sum_list ((fun k => length (instances k)) <$> kmers c)) /\
  Cluster_Size c = Z.of_nat (sum_list ((fun k => length (instances k)) <$> kmers c)).
Proof.
  intros Hfit. unfold InstanceCount, Cluster_Size.
  rewrite InstanceCount_exact by lia. rewrite Cluster_Size_exact by lia.
  split; [|lia]. unfold wrap_size_t. rewrite Z.mod_small by lia. lia.
Qed.

(** X16, witness: a cluster of the record of [ab]. *)
Lemma InstanceCount_agrees_with_Size_witness :
  InstanceCount {| prototype := recordAB; kmers := [recordAB; recordAB] |}
  = Cluster_Size {| prototype := recordAB; kmers := [recordAB; recordAB] |}.
Proof.
  destruct (InstanceCount_agrees_with_Size
              {| prototype := recordAB; kmers := [recordAB; recordAB] |}) as [H1 H2].
  - by vm_compute.
  - by rewrite H1, H2.
Defined.

Lemma AllocateKmersToThreads_prefix (numThreads n t : nat) (perThread : list (list nat)) :
  (0 < numThreads)%nat ->
  foldl (fun perThread i => alter (fun l => l ++ [i]) (i mod numThreads)%nat perThread)
        perThread (seq 0 n) !! t
  = (fun l => l ++ filter (fun i => (i mod numThreads)%nat = t) (seq 0 n)) <$> perThread !! t.
Proof.
  intros Hpos. induction n as [|n IH].
  - simpl. destruct (perThread !! t); simpl; [by rewrite app_nil_r|done].
  - rewrite seq_S, foldl_app, filter_app. cbn [foldl]. rewrite Nat.add_0_l.
    rewrite filter_cons, filter_nil.
    destruct (decide (n mod numThreads = t)%nat) as [Heq|Hne].
    + rewrite Heq, list_lookup_alter_eq, IH.
      destruct (perThread !! t); simpl; [|done]. by rewrite app_assoc.
    + rewrite list_lookup_alter_ne by done. rewrite IH.
      destruct (perThread !! t); simpl; [|done]. by rewrite app_nil_r.
Qed.

(** X17. [AllocateKmersToThreads], called with at least one thread on a
    cluster whose [kmersPerThread] is empty, gives thread [t] the k-mers at
    the indices that leave the remainder [t] on division by the number of
    threads, in ascending order. *)
Theorem AllocateKmersToThreads_round_robin (numThreads size t : nat) :
  (t < numThreads)%nat ->
  AllocateKmersToThreads numThreads size [] !! t
  = Some (filter (fun i => (i mod numThreads)%nat = t) (seq 0 size)).
Proof.
  intros Ht. unfold AllocateKmersToThreads.
  rewrite AllocateKmersToThreads_prefix by lia.
  rewrite resize_nil, lookup_replicate_2 by done. done.
Qed.

(** X17, witness: five k-mers and two threads. *)
Lemma AllocateKmersToThreads_round_robin_witness :
  AllocateKmersToThreads 2 5 [] !! 1%nat
  = Some (filter (fun i => (i mod 2)%nat = 1%nat) (seq 0 5)).
Proof. apply (AllocateKmersToThreads_round_robin 2 5 1). lia. Defined.
(** ** What the set-up moves out of the unallocated range *)

Section FilterFacts.

Variable K : nat.
Variable threshold : Q.
Variable symbolCodeDist : list Z -> list Z -> nat -> Z.
Variable rand : nat -> UnitDraw.

Local Abbreviation selfMatchTooFar := (selfMatchTooFar K threshold symbolCodeDist).
Local Abbreviation filterOne := (filterOne K threshold symbolCodeDist).

Lemma filterOne_eq ks f i :
  filterOne (ks, f) i
  = if selfMatchTooFar (ks !!! i) then
      if (f <? i)%nat then (swap ks i f, S f) else (ks, f)
    else (ks, f).
Proof. reflexivity. Qed.

Lemma filter_loop_prefix (idxs : list nat) (acc : list Kmer * nat) :
  Forall (fun i => (i < length acc.1)%nat) idxs ->
  (acc.2 <= length acc.1)%nat ->
  Forall (fun kmer => selfMatchTooFar kmer = true) (take acc.2 acc.1) ->
  let acc' := foldl filterOne acc idxs in
  Forall (fun kmer => selfMatchTooFar kmer = true) (take acc'.2 acc'.1).
Proof.
  revert acc. induction idxs as [|i idxs IH]; intros [ks f] Hidx Hf Hpre; [done|].
  apply Forall_cons in Hidx as [Hi Hidx]. cbn [foldl]. cbn [fst snd] in *.
  rewrite filterOne_eq.
  destruct (selfMatchTooFar (ks !!! i)) eqn:Hfar; [|by apply IH].
  destruct (Nat.ltb_spec f i) as [Hlt|Hge]; [|by apply IH].
  apply IH; cbn [fst snd].
  - by rewrite length_swap.
  - rewrite length_swap. lia.
  - unfold swap. rewrite take_insert_ge by lia.
    rewrite (take_S_r _ f (ks !!! i)); last first.
    { apply list_lookup_insert_eq. lia. }
    rewrite take_insert_ge by lia.
    apply Forall_app. split; [done|]. by apply Forall_singleton.
Qed.

Lemma take_shuffle first last calls (l : list Kmer) :
  take first (shuffle rand first last calls l) = take first l.
Proof.
  unfold KmerCluster.shuffle.
  assert (Forall (fun i => (first <= i)%nat) (seq first (last - first))) as Hidx.
  { apply Forall_forall. intros i Hi. apply elem_of_seq in Hi. lia. }
  revert Hidx. generalize (seq first (last - first)). intros idxs. revert l.
  induction idxs as [|i idxs IH]; intros l Hidx; [done|].
  apply Forall_cons in Hidx as [Hi Hidx]. cbn [foldl]. rewrite IH by done.
  unfold shuffleOne. apply take_swap_ge; lia.
Qed.

End FilterFacts.

(** X18. The set-up of the global variant moves only k-mers that cannot be
    clustered: every k-mer that it leaves before [firstUnallocIndex] is
    farther than the threshold from itself. *)
Theorem setup_moves_only_far_kmers (K : nat) (threshold : Q)
    (symbolCodeDist : list Z -> list Z -> nat -> Z) (rand : nat -> UnitDraw)
    (kmerIndex : list Kmer) (clusters0 : list Cluster) (kmer : Kmer) :
  kmer ∈ take (firstUnallocIndex (setup K threshold symbolCodeDist rand kmerIndex clusters0))
              (allKmers (setup K threshold symbolCodeDist rand kmerIndex clusters0)) ->
  ~ (inject_Z (wrap16 (symbolCodeDist (encoding kmer) (encoding kmer) K)) <= threshold)%Q.
Proof.
  unfold setup.
  pose proof (filter_loop_prefix K threshold symbolCodeDist
                (filterIndices (length kmerIndex)) (kmerIndex, 0%nat)
                (filterIndices_lt _) ltac:(simpl; lia) ltac:(by apply Forall_nil)) as Hpre.
  cbv zeta in Hpre.
  destruct (foldl (filterOne K threshold symbolCodeDist) (kmerIndex, 0%nat)
              (filterIndices (length kmerIndex))) as [ks f].
  cbn [allKmers firstUnallocIndex fst snd] in *. rewrite take_shuffle.
  intros Hin. eapply Forall_forall in Hpre; [|exact Hin]. simpl in Hpre.
  unfold selfMatchTooFar in Hpre. apply negb_true_iff in Hpre.
  by apply within_false_iff in Hpre.
Qed.

(** X18, witness: over [b], [c] and [a] at threshold 3 the set-up moves the
    1-mer [a] to the front. *)
Lemma setup_moves_only_far_kmers_witness :
  ~ (inject_Z (wrap16 (distanceABC (encoding kmerA) (encoding kmerA) 1)) <= 3)%Q.
Proof.
  apply (setup_moves_only_far_kmers 1 3 distanceABC rand0 [kmerB; kmerC; kmerA] [] kmerA).
  vm_compute. apply list_elem_of_here.
Defined.



(** ** The global variant clusters every k-mer that is near itself *)

Section CompleteFacts.

Variable K : nat.
Variable threshold : Q.
Variable symbolCodeDist : list Z -> list Z -> nat -> Z.
Variable createPrototype : Kmer -> Kmer.
Variable rand : nat -> UnitDraw.

Hypothesis createPrototype_encoding :
  forall kmer, encoding (createPrototype kmer) = encoding kmer.

Local Abbreviation selfMatchTooFar := (selfMatchTooFar K threshold symbolCodeDist).
Local Abbreviation findAttractor := (findAttractor K threshold symbolCodeDist).
Local Abbreviation scanOne := (scanOne K threshold symbolCodeDist).
Local Abbreviation scan := (scan K threshold symbolCodeDist).
Local Abbreviation seedClusters := (seedClusters createPrototype).
Local Abbreviation DoIncrementalClusteringParallel :=
  (DoIncrementalClusteringParallel K threshold symbolCodeDist createPrototype).
Local Abbreviation passLoop := (passLoop K threshold symbolCodeDist createPrototype).
Local Abbreviation filterOne := (filterOne K threshold symbolCodeDist).

(** Every k-mer of the list is within the threshold of itself. *)
Definition all_near (l : list Kmer) : Prop :=
  Forall (fun kmer => selfMatchTooFar kmer = false) l.

Lemma all_near_swap l i j :
  (i < length l)%nat -> (j < length l)%nat -> all_near l -> all_near (swap l i j).
Proof.
  intros Hi Hj Hl. unfold all_near. by rewrite (swap_Permutation l i j Hi Hj).
Qed.

Lemma scanOne_facts firstClusterIndex (st : State) (i : nat) :
  (i < length (allKmers st))%nat ->
  (firstUnallocIndex st <= i)%nat ->
  all_near (allKmers st) ->
  let st' := scanOne firstClusterIndex st i in
  length (allKmers st') = length (allKmers st) /\
  (firstUnallocIndex st <= firstUnallocIndex st' <= S (firstUnallocIndex st))%nat /\
  all_near (allKmers st') /\
  (findAttractor (clusters st) firstClusterIndex (encoding (allKmers st !!! i)) <> None ->
   firstUnallocIndex st' = S (firstUnallocIndex st)).
Proof.
  intros Hi Hf Hnear st'. subst st'. unfold KmerCluster.scanOne.
  destruct (findAttractor (clusters st) firstClusterIndex (encoding (allKmers st !!! i)))
    as [[j d]|]; [|repeat split; (done || lia)].
  unfold assign. cbn [allKmers firstUnallocIndex].
  assert (all_near (<[i := setDistanceFromPrototype (allKmers st !!! i) d]> (allKmers st)))
    as Hins.
  { apply Forall_insert; [done|].
    by apply (Forall_lookup_total_1 _ _ i) in Hnear. }
  destruct (Nat.ltb_spec (firstUnallocIndex st) i).
  - rewrite length_swap, length_insert. split; [done|]. split; [lia|]. split; [|done].
    apply all_near_swap; rewrite ?length_insert; (done || lia).
  - rewrite length_insert. split; [done|]. split; [lia|]. done.
Qed.

Lemma scan_prefix_near firstClusterIndex (st : State) (m : nat) :
  (firstUnallocIndex st + m <= length (allKmers st))%nat ->
  all_near (allKmers st) ->
  all_near (allKmers (foldl (scanOne firstClusterIndex) st (seq (firstUnallocIndex st) m))).
Proof.
  induction m as [|m IH]; intros Hm Hnear; [done|].
  rewrite seq_S, foldl_app. cbn [foldl].
  destruct (scan_prefix K threshold symbolCodeDist firstClusterIndex st m ltac:(lia))
    as (Hlen & Hf & _).
  specialize (IH ltac:(lia) Hnear).
  set (stm := foldl (scanOne firstClusterIndex) st (seq (firstUnallocIndex st) m)) in *.
  by destruct (scanOne_facts firstClusterIndex stm (firstUnallocIndex st + m)
                 ltac:(lia) ltac:(lia) IH) as (_ & _ & Hn & _).
Qed.

Lemma scan_near firstClusterIndex (st : State) :
  (firstUnallocIndex st <= length (allKmers st))%nat ->
  all_near (allKmers st) -> all_near (allKmers (scan [] firstClusterIndex st)).
Proof.
  intros Hf Hnear. rewrite (scan_oneThread K threshold symbolCodeDist).
  apply scan_prefix_near; [lia|done].
Qed.

(** A scan by one thread whose first k-mer has an attractor allocates a
    k-mer. *)
Lemma scan_progress firstClusterIndex (st : State) :
  (firstUnallocIndex st < length (allKmers st))%nat ->
  all_near (allKmers st) ->
  findAttractor (clusters st) firstClusterIndex
    (encoding (allKmers st !!! firstUnallocIndex st)) <> None ->
  (firstUnallocIndex st < firstUnallocIndex (scan [] firstClusterIndex st))%nat.
Proof.
  intros Hf Hnear Hfit. rewrite (scan_oneThread K threshold symbolCodeDist).
  replace (length (allKmers st) - firstUnallocIndex st)%nat
    with (S (length (allKmers st) - S (firstUnallocIndex st))) by lia.
  cbn [seq foldl].
  destruct (scanOne_facts firstClusterIndex st (firstUnallocIndex st) Hf (le_n _) Hnear)
    as (Hlen & _ & _ & Hstep).
  specialize (Hstep Hfit).
  set (st1 := scanOne firstClusterIndex st (firstUnallocIndex st)) in *.
  rewrite <-Hstep, <-Hlen.
  destruct (scan_prefix K threshold symbolCodeDist firstClusterIndex st1
              (length (allKmers st1) - firstUnallocIndex st1) ltac:(lia)) as (_ & Hb & _).
  lia.
Qed.

Lemma seedClusters_lookup cs allKmers first wanted j c :
  cs !! j = Some c -> seedClusters cs allKmers first wanted !! j = Some c.
Proof.
  unfold KmerCluster.seedClusters. generalize (seq first wanted). intros l.
  revert cs. induction l as [|i l IH]; intros cs Hj; [done|].
  cbn [foldl]. apply IH. by apply lookup_app_l_Some.
Qed.

Lemma seedClusters_first cs allKmers first wanted :
  (0 < wanted)%nat ->
  seedClusters cs allKmers first wanted !! length cs
  = Some (Cluster_new (createPrototype (allKmers !!! first))).
Proof.
  intros Hw. destruct wanted as [|wanted]; [lia|].
  unfold KmerCluster.seedClusters. cbn [seq foldl].
  apply (seedClusters_lookup _ allKmers (S first) wanted).
  by rewrite lookup_app_r, Nat.sub_diag.
Qed.

(** With a request for new clusters a pass allocates a k-mer, when one
    thread runs its scan loop. *)
Lemma pass_progress requested firstClusterIndex (st : State) :
  (0 < requested)%nat ->
  (firstClusterIndex <= length (clusters st))%nat ->
  (firstUnallocIndex st < length (allKmers st))%nat ->
  all_near (allKmers st) ->
  exists st',
    DoIncrementalClusteringParallel [] requested firstClusterIndex st = Returned st' /\
    length (allKmers st') = length (allKmers st) /\
    (firstUnallocIndex st < firstUnallocIndex st' <= length (allKmers st))%nat /\
    all_near (allKmers st').
Proof.
  intros Hreq Hfci Hf Hnear.
  pose proof (DoIncrementalClusteringParallel_spec K threshold symbolCodeDist createPrototype
                requested firstClusterIndex st ltac:(lia)) as Hpass.
  unfold KmerCluster.DoIncrementalClusteringParallel in *.
  destruct (Nat.eqb_spec requested 0) as [Hz|_]; [lia|]. rewrite andb_false_r in *.
  destruct (Nat.ltb_spec 0 requested) as [_|]; [|lia].
  eexists. split; [reflexivity|]. destruct Hpass as (Hlen & Hb & _).
  split; [done|]. split.
  - split; [|lia].
    apply (scan_progress firstClusterIndex
             {| clusters := _; allKmers := allKmers st;
                firstUnallocIndex := firstUnallocIndex st |}); [done|done|].
    cbn [clusters allKmers firstUnallocIndex]. intros Hnone.
    pose proof (findAttractor_None K threshold symbolCodeDist _ _ _ Hnone (length (clusters st))
                  _ Hfci (seedClusters_first (clusters st) (allKmers st) (firstUnallocIndex st)
                            (requested `min` (length (allKmers st) - firstUnallocIndex st))
                            ltac:(lia))) as Hfar.
    unfold distToPrototype, Cluster_new in Hfar. cbn [prototype] in Hfar.
    rewrite createPrototype_encoding in Hfar.
    apply (Forall_lookup_total_1 _ _ (firstUnallocIndex st)) in Hnear; [|done].
    simpl in Hnear. unfold KmerCluster.selfMatchTooFar in Hnear.
    apply negb_false_iff in Hnear. congruence.
  - apply (scan_near firstClusterIndex
             {| clusters := _; allKmers := allKmers st;
                firstUnallocIndex := firstUnallocIndex st |}); [cbn; lia|done].
Qed.

Lemma passLoop_complete clusterIncrement (n : nat) :
  (0 < clusterIncrement)%nat ->
  forall increment firstClusterIndex (st : State),
    (0 < increment)%nat ->
    (firstClusterIndex <= length (clusters st))%nat ->
    (firstUnallocIndex st <= length (allKmers st))%nat ->
    (length (allKmers st) - firstUnallocIndex st <= n)%nat ->
    all_near (allKmers st) ->
    exists counts st',
      passLoop clusterIncrement (length (allKmers st)) (S n) increment firstClusterIndex [] st
      = Some (counts, Returned st') /\
      firstUnallocIndex st' = length (allKmers st) /\
      length (allKmers st') = length (allKmers st).
Proof.
  intros Hinc. induction n as [|n IH]; intros increment firstClusterIndex st Hi Hfci Hf Hn Hnear.
  - exists [firstUnallocIndex st], st. cbn [KmerCluster.passLoop].
    destruct (Nat.ltb_spec (firstUnallocIndex st) (length (allKmers st))); [lia|].
    split; [done|]. split; [lia|done].
  - rewrite (passLoop_S K threshold symbolCodeDist createPrototype). cbn [hd tl].
    destruct (Nat.ltb_spec (firstUnallocIndex st) (length (allKmers st))) as [Hlt|Hge].
    2:{ exists [firstUnallocIndex st], st. split; [done|]. split; [lia|done]. }
    destruct (pass_progress increment firstClusterIndex st Hi Hfci Hlt Hnear)
      as (st' & -> & Hlen & Hb & Hnear').
    destruct (Nat.eqb_spec (firstUnallocIndex st') (firstUnallocIndex st)); [lia|].
    destruct (IH clusterIncrement (length (clusters st')) st' Hinc (le_n _)
                ltac:(lia) ltac:(lia) Hnear') as (counts & st'' & Hrun & Hfull & Hlen'').
    exists (firstUnallocIndex st :: counts), st''. rewrite Hlen in Hrun. rewrite Hrun.
    split; [done|]. split; lia.
Qed.

Lemma filter_loop_near (idxs : list nat) (ks : list Kmer) (f : nat) :
  Forall (fun i => (i < length ks)%nat) idxs ->
  all_near ks -> foldl filterOne (ks, f) idxs = (ks, f).
Proof.
  intros Hidx Hnear. induction idxs as [|i idxs IH]; [done|].
  apply Forall_cons in Hidx as [Hi Hidx]. cbn [foldl].
  rewrite (filterOne_eq K threshold symbolCodeDist).
  apply (Forall_lookup_total_1 _ _ i) in Hnear as Hnot; [|done]. simpl in Hnot.
  rewrite Hnot. by apply IH.
Qed.

End CompleteFacts.

(** X20. With one thread the global variant clusters every k-mer: when
    one thread runs the scan loops, every k-mer of the index is within the
    threshold of itself, new clusters are requested one or more at a time,
    and the prototype that [createPrototype] returns for a k-mer carries the
    code of that k-mer, a run of [DoExhaustiveIncrementalClustering] that
    starts without clusters returns with every k-mer allocated, and the
    members of its clusters are the k-mers of the index, each once. (With
    two threads a run can return with a k-mer in no cluster.) *)
Theorem global_run_clusters_every_kmer (K : nat) (threshold : Q)
    (symbolCodeDist : list Z -> list Z -> nat -> Z) (createPrototype : Kmer -> Kmer)
    (rand : nat -> UnitDraw) (kmerIndex : list Kmer) (clusterIncrement : nat) :
  (0 < clusterIncrement)%nat ->
  (forall kmer, encoding (createPrototype kmer) = encoding kmer) ->
  Forall (fun kmer =>
            (inject_Z (wrap16 (symbolCodeDist (encoding kmer) (encoding kmer) K))
             <= threshold)%Q) kmerIndex ->
  exists st',
    DoExhaustiveIncrementalClustering K threshold symbolCodeDist createPrototype rand
      oneThread kmerIndex clusterIncrement [] = Some (Returned st') /\
    firstUnallocIndex st' = length kmerIndex /\
    substring <$> concat (kmers <$> clusters st') ≡ₚ substring <$> kmerIndex.
Proof.
  intros Hinc Hproto Hself.
  assert (all_near K threshold symbolCodeDist kmerIndex) as Hnear.
  { unfold all_near. eapply Forall_impl; [exact Hself|]. intros kmer Hk. simpl in Hk.
    unfold selfMatchTooFar. apply negb_false_iff. by apply within_true_iff. }
  unfold DoExhaustiveIncrementalClustering, DoExhaustiveIncrementalClustering_fuel, oneThread.
  assert (setup K threshold symbolCodeDist rand kmerIndex []
          = {| clusters := []; allKmers := shuffle rand 0 (length kmerIndex) 0 kmerIndex;
               firstUnallocIndex := 0 |}) as Hsetup.
  { unfold setup.
    by rewrite (filter_loop_near K threshold symbolCodeDist _ kmerIndex 0
                  (filterIndices_lt _) Hnear). }
  pose proof (setup_Permutation K threshold symbolCodeDist rand kmerIndex []) as Hperm.
  rewrite Hsetup in *. cbn [allKmers] in Hperm.
  set (st := {| clusters := []; allKmers := shuffle rand 0 (length kmerIndex) 0 kmerIndex;
                firstUnallocIndex := 0 |}) in *.
  assert (length (allKmers st) = length kmerIndex) as Hlen by apply length_shuffle.
  assert (all_near K threshold symbolCodeDist (allKmers st)) as Hnear'.
  { unfold all_near. cbn [allKmers st]. unfold all_near in Hnear. by rewrite Hperm. }
  destruct (passLoop_complete K threshold symbolCodeDist createPrototype Hproto
              clusterIncrement (length kmerIndex) Hinc clusterIncrement 0%nat st
              Hinc ltac:(cbn; lia) ltac:(cbn; lia) ltac:(cbn [firstUnallocIndex st]; lia) Hnear')
    as (counts & st' & Hrun & Hfull & Hlen').
  rewrite Hlen in Hrun, Hfull. exists st'.
  split; [exact (f_equal (fmap snd) Hrun)|]. split; [done|].
  apply (passLoop_bag K threshold symbolCodeDist createPrototype) in Hrun;
    [|cbn [firstUnallocIndex st]; lia].
  unfold bag in Hrun. cbn [outcomeState clusters firstUnallocIndex allKmers st] in Hrun.
  rewrite Hfull, drop_ge in Hrun by lia. rewrite drop_0 in Hrun.
  unfold texts, members in Hrun. cbn [fmap list_fmap concat app] in Hrun.
  rewrite app_nil_r in Hrun. by rewrite Hrun, Hperm.
Qed.

(** X20, witness: the 1-mers [b], [c] and [a] at threshold 10. *)
Lemma global_run_clusters_every_kmer_witness :
  exists st',
    DoExhaustiveIncrementalClustering 1 10 distanceABC freshPrototype rand0
      oneThread [kmerB; kmerC; kmerA] 1 [] = Some (Returned st') /\
    firstUnallocIndex st' = length [kmerB; kmerC; kmerA] /\
    substring <$> concat (kmers <$> clusters st') ≡ₚ substring <$> [kmerB; kmerC; kmerA].
Proof.
  apply (global_run_clusters_every_kmer 1 10 distanceABC freshPrototype rand0
           [kmerB; kmerC; kmerA] 1).
  - lia.
  - done.
  - repeat constructor; by vm_compute.
Defined.

(** ** What GetDistance computes for any raw distance function *)

(** The value stored for two code words of [len] symbols: the raw distance
    from the word with the larger code to the word with the smaller code,
    narrowed to a [Distance] and then to a [CacheType]. *)
Definition triangleTerm (alphabet : Alphabet) (dist : list Z -> list Z -> nat -> Z)
    (xCode yCode : list Z) (i len : nat) : Z :=
  to_int8 (wrap16 (dist (Decode alphabet [Z.max (xCode !!! i) (yCode !!! i)] len len)
                        (Decode alphabet [Z.min (xCode !!! i) (yCode !!! i)] len len) len)).

Lemma cell_triangle (KmerWord_max : Z) (alphabet : Alphabet)
    (dist : list Z -> list Z -> nat -> Z) (m : nat) (table : list Z) (vocabSize s t : Z) :
  0 < Size alphabet <= 40 ->
  (1 <= m <= 3)%nat ->
  PrecomputeDistances KmerWord_max alphabet dist m = Some (table, vocabSize) ->
  0 <= s < pw alphabet m -> 0 <= t < pw alphabet m ->
  cell table vocabSize s t
  = to_int8 (wrap16 (dist (Decode alphabet [Z.max s t] m m)
                          (Decode alphabet [Z.min s t] m m) m)).
Proof.
  intros Hsize Hm Hpre Hs Ht. rewrite pw_vocabN in Hs, Ht by done.
  rewrite (cell_spec KmerWord_max alphabet dist Hsize m table vocabSize s t) by done.
  unfold cellValue, vocabWord.
  by rewrite Nat2Z.inj_max, Nat2Z.inj_min, !Z2Nat.id by lia.
Qed.

(** X21. For a cache built from any raw distance function over an alphabet
    of at most 40 symbols, [GetDistance] on the codes of two strings packed
    at 3 characters per word is the sum, modulo 2^16, of one term for each
    chunk: the raw distance from the chunk with the larger code word to the
    chunk with the smaller one, narrowed to the 8 bits of a cell. *)
Theorem GetDistance_reads_the_filled_triangle (KmerWord_max : Z) (alphabet : Alphabet)
    (dist : list Z -> list Z -> nat -> Z) (c : KmerDistanceCache3) (x y : list Z) (k : nat) :
  0 < Size alphabet <= 40 ->
  KmerDistanceCache3_new KmerWord_max alphabet dist = Some c ->
  Forall (fun ch => 0 <= ch < 128) x ->
  Forall (fun ch => 0 <= ch < 128) y ->
  GetDistance c (Encode KmerWord_max alphabet x k 3) (Encode KmerWord_max alphabet y k 3) k
  = wrap16 (foldr Z.add 0
              (imap (triangleTerm alphabet dist (Encode KmerWord_max alphabet x k 3)
                       (Encode KmerWord_max alphabet y k 3))
                    (chunkLengths k))).
Proof.
  intros Hsize Hc Hx Hy. rewrite GetDistance_wrap, exactDistance_imap.
  f_equal. f_equal. apply imap_ext. intros i len Hlook.
  destruct (cache_tables KmerWord_max alphabet dist c Hc) as (H1 & H2 & H3).
  pose proof (vocab3_fits KmerWord_max alphabet dist c Hsize Hc) as Hfits.
  destruct (Encode_range KmerWord_max alphabet Hsize x k Hfits Hx) as [Hx3 Hxr].
  destruct (Encode_range KmerWord_max alphabet Hsize y k Hfits Hy) as [Hy3 Hyr].
  unfold tableTerm, triangleTerm.
  apply chunkLengths_lookup in Hlook as [[Hi ->]|(-> & -> & Hrem)].
  - cbn [Nat.eqb]. apply (cell_triangle KmerWord_max alphabet dist 3); (done || lia || auto).
  - pose proof (Nat.mod_upper_bound k 3 ltac:(lia)) as Hlt.
    destruct (Nat.eqb_spec (k mod 3) 3); [lia|]. unfold remTerm.
    destruct (Nat.eqb_spec (k mod 3) 1) as [Hone|Hone].
    + rewrite Hone in *.
      apply (cell_triangle KmerWord_max alphabet dist 1); (done || lia || auto).
    + assert (k mod 3 = 2)%nat as Htwo by lia. rewrite Htwo in *.
      apply (cell_triangle KmerWord_max alphabet dist 2); (done || lia || auto).
Qed.

(** X21, witness: the 4-mers [aaab] and [abab] with [cacheSkew]. *)
Lemma GetDistance_reads_the_filled_triangle_witness :
  GetDistance cacheSkew (Encode 65535 ab [97; 97; 97; 98] 4 3)
    (Encode 65535 ab [97; 98; 97; 98] 4 3) 4
  = wrap16 (foldr Z.add 0
              (imap (triangleTerm ab (BlosumDifference skewMatrix)
                       (Encode 65535 ab [97; 97; 97; 98] 4 3)
                       (Encode 65535 ab [97; 98; 97; 98] 4 3))
                    (chunkLengths 4))).
Proof.
  apply (GetDistance_reads_the_filled_triangle 65535 ab (BlosumDifference skewMatrix) cacheSkew).
  - vm_compute. split; [reflexivity | discriminate].
  - exact cacheSkew_built.
  - repeat constructor; lia.
  - repeat constructor; lia.
Defined.
(** ** KmerDistanceCache2 *)

Lemma withinTwos_Some (c : KmerDistanceCache2) (s t : list Z) (threshold : Z)
    (n i : nat) (d d' : Z) :
  withinTwos c s t threshold n i d = Some d' ->
  d' = sumTwos c s t n i d /\ (d <= threshold -> d' <= threshold).
Proof.
  revert i d. induction n as [|n IH]; intros i d; simpl.
  - intros [= <-]. done.
  - destruct (Z.ltb_spec threshold
                (wrap16 (d + cell (c2_kmerDistances2 c) (c2_vocabSize2 c) (s !!! i) (t !!! i))))
      as [Hgt|Hle]; [done|].
    intros Hrest. apply IH in Hrest as [-> Hbound]. split; [done|]. intros _. by apply Hbound.
Qed.

(** X22. Whenever [KmerDistanceCache2::IsWithin] returns true, the value
    that it stores is the value of [operator()] on the same arguments,
    overflow or not, and is at most the threshold; when it returns false it
    leaves [result] as it was. *)
Theorem Cache2_IsWithin_outcome (c : KmerDistanceCache2) (s t : list Z) (k : nat)
    (threshold result : Z) :
  0 <= threshold ->
  match Cache2_IsWithin c s t k threshold result with
  | (true, r) => r = Cache2_distance c s t k /\ r <= threshold
  | (false, r) => r = result
  end.
Proof.
  intros Hthr. unfold Cache2_IsWithin, Cache2_distance.
  destruct (withinTwos c s t threshold (k / 2) 0 0) as [d|] eqn:Hloop; [|done].
  apply withinTwos_Some in Hloop as [-> Hbound]. specialize (Hbound Hthr).
  destruct (0 <? k mod 2)%nat; [|done].
  match goal with |- context [threshold <? ?v] => destruct (Z.ltb_spec threshold v) end;
    [done|]. done.
Qed.

(** X22, witness: the tables of [cache42] for words of 1 and 2 symbols, on
    the codes of [aba] and [abb] at threshold 100. *)
Lemma Cache2_IsWithin_outcome_witness :
  match Cache2_IsWithin
          {| c2_kmerDistances1 := kmerDistances1 cache42; c2_vocabSize1 := 2;
             c2_kmerDistances2 := kmerDistances2 cache42; c2_vocabSize2 := 4 |}
          [1; 0] [1; 1] 3 100 0 with
  | (true, r) =>
      r = Cache2_distance
            {| c2_kmerDistances1 := kmerDistances1 cache42; c2_vocabSize1 := 2;
               c2_kmerDistances2 := kmerDistances2 cache42; c2_vocabSize2 := 4 |}
            [1; 0] [1; 1] 3 /\ r <= 100
  | (false, r) => r = 0
  end.
Proof. apply Cache2_IsWithin_outcome. lia. Defined.
(** ** Equality of substrings *)

Lemma take_drop_S (s : list Z) (i n : nat) :
  (i < length s)%nat -> take (S n) (drop i s) = s !!! i :: take n (drop (S i) s).
Proof.
  intros Hi. rewrite (drop_S s (s !!! i) i) by (by apply list_lookup_lookup_total_lt).
  done.
Qed.

Lemma strncmp_zero (a b : list Z) (n : nat) :
  forall ia ib,
    (ia + n <= length a)%nat -> (ib + n <= length b)%nat ->
    Forall (fun ch => ch <> 0) (take n (drop ia a)) ->
    (strncmp a b ia ib n = 0 <-> take n (drop ia a) = take n (drop ib b)).
Proof.
  induction n as [|n IH]; intros ia ib Ha Hb Hnz; [done|].
  cbn [strncmp]. unfold charAt.
  destruct (Nat.ltb_spec ia (length a)) as [Hia|]; [|lia].
  destruct (Nat.ltb_spec ib (length b)) as [Hib|]; [|lia].
  rewrite !take_drop_S in * by done.
  apply Forall_cons in Hnz as [Hch Hrest].
  destruct (Z.eqb_spec (a !!! ia) (b !!! ib)) as [Heq|Hne].
  - destruct (Z.eqb_spec (a !!! ia) 0) as [Hz|_]; [done|].
    rewrite IH by (done || lia). rewrite Heq. split; [by intros ->|by intros [= ->]].
  - split; [lia|]. intros [= Heq _]. done.
Qed.

(** X23. For two substrings of the same length that lie inside their
    strings, the first without a NUL character, [operator==] holds exactly
    when the two windows show the same characters. *)
Theorem Substring_equality_compares_windows (lhs rhs : SubstringRef) :
  sub_length rhs = sub_length lhs ->
  (sub_start lhs + sub_length lhs <= length (sub_str lhs))%nat ->
  (sub_start rhs + sub_length rhs <= length (sub_str rhs))%nat ->
  Forall (fun ch => ch <> 0) (windowText lhs) ->
  (Substring_eqb lhs rhs = true <-> windowText lhs = windowText rhs).
Proof.
  intros Hlen Hl Hr Hnz. unfold Substring_eqb, windowText, Substring in *.
  rewrite Hlen in *. rewrite Z.eqb_eq. by apply strncmp_zero.
Qed.

(** X23, witness: the windows [ab] at 0 and at 2 of [abab]. *)
Lemma Substring_equality_compares_windows_witness :
  Substring_eqb {| sub_str := [97; 98; 97; 98]; sub_start := 0; sub_length := 2 |}
                {| sub_str := [97; 98; 97; 98]; sub_start := 2; sub_length := 2 |} = true
  <-> windowText {| sub_str := [97; 98; 97; 98]; sub_start := 0; sub_length := 2 |}
      = windowText {| sub_str := [97; 98; 97; 98]; sub_start := 2; sub_length := 2 |}.
Proof.
  apply Substring_equality_compares_windows.
  - reflexivity.
  - simpl. lia.
  - simpl. lia.
  - repeat constructor; discriminate.
Defined.
(** ** Serial numbers of prototypes *)

Lemma newPrototype_next (value : Z) :
  0 <= value -> value + 1 < 18446744073709551616 ->
  Prototype.newPrototype value = (value + 1, value + 1, value + 1).
Proof.
  intros H0 Hfit. unfold Prototype.newPrototype, Prototype.largestSerialNumber.
  destruct (Z.ltb_spec value 0); [lia|].
  unfold wrap_size_t. rewrite Z.mod_small by lia.
  destruct (Z.ltb_spec value (value + 1)); [|lia].
  destruct (Z.ltb_spec (value + 1) 0); [lia|]. done.
Qed.

(** X24. Prototypes made one after the other by the constructor that takes
    the k-mer word get consecutive serial numbers, each the number in the
    id of its prototype, as long as the numbers stay below 2^64; the static
    counter ends at the last number given. *)
Theorem newPrototypes_are_numbered_consecutively (n : nat) (value : Z) :
  0 <= value -> value + Z.of_nat n < 18446744073709551616 ->
  Prototype.newPrototypes n value
  = ((fun i => (value + 1 + Z.of_nat i, value + 1 + Z.of_nat i)) <$> seq 0 n,
     value + Z.of_nat n).
Proof.
  revert value. induction n as [|n IH]; intros value H0 Hfit.
  - simpl. by rewrite Z.add_0_r.
  - cbn [Prototype.newPrototypes]. rewrite newPrototype_next by lia.
    rewrite IH by lia. cbn [seq fmap list_fmap]. rewrite <-fmap_S_seq, <-list_fmap_compose.
    f_equal; [|lia]. f_equal; [f_equal; lia|].
    apply list_fmap_ext. intros i j _. simpl. f_equal; lia.
Qed.

(** X24, witness: three prototypes when the counter is 7. *)
Lemma newPrototypes_are_numbered_consecutively_witness :
  Prototype.newPrototypes 3 7 = ([(8, 8); (9, 9); (10, 10)], 10).
Proof. apply (newPrototypes_are_numbered_consecutively 3 7); by vm_compute. Defined.
(** ** Encode at 1 character per word *)

Section EncodeOne.

Variable KmerWord_max : Z.
Variable alphabet : Alphabet.

Hypothesis alphabet_small : 0 < Size alphabet <= 40.
Hypothesis pair_fits : Size alphabet * Size alphabet <= KmerWord_max.

(** The buffer and the word index after the first [i] characters, for
    [i] from 2 on. *)
Definition encodeOneState (s : list Z) (k i : nat) : list Z * nat :=
  ((digit alphabet s 0 * Size alphabet + digit alphabet s 1)
     :: (digit alphabet s <$> seq 2 (i - 2)) ++ replicate (k - i + 1) 0,
   (i - 1)%nat).

Lemma Encode_one_prefix (s : list Z) (k i : nat) :
  ascii7 s -> (2 <= i <= k)%nat ->
  foldl (Encode_step KmerWord_max alphabet s 1 (WordsPerKmer k 1))
        (<[0%nat := 0]> (replicate (WordsPerKmer k 1) 0), 0%nat) (seq 0 i)
  = encodeOneState s k i.
Proof.
  intros Hs Hi.
  assert (WordsPerKmer k 1 = k) as Hwords.
  { unfold WordsPerKmer. rewrite Nat.div_1_r. lia. }
  rewrite Hwords.
  pose proof (digit_range alphabet alphabet_small s) as Hdigit.
  assert (forall v, 0 <= v < Size alphabet * Size alphabet -> wrapWord KmerWord_max v = v)
    as Hwrap.
  { intros v Hv. unfold wrapWord. apply Z.mod_small. lia. }
  destruct Hi as [Hi2 Hik]. induction i as [|i IH]; [lia|].
  destruct (decide (i = 1)%nat) as [->|Hne].
  - (* the first two characters go to word 0 *)
    destruct k as [|[|k]]; try lia.
    pose proof (Hdigit 0%nat Hs) as H0. pose proof (Hdigit 1%nat Hs) as H1.
    change (<[0%nat := 0]> (replicate (S (S k)) 0)) with (0 :: 0 :: replicate k 0).
    cbn [seq foldl].
    assert (Encode_step KmerWord_max alphabet s 1 (S (S k)) (0 :: 0 :: replicate k 0, 0%nat) 0
            = (digit alphabet s 0 :: 0 :: replicate k 0, 0%nat)) as ->.
    { unfold Encode_step. cbn [lookup_total list_lookup_total insert list_insert].
      fold (digit alphabet s 0). rewrite Z.mul_0_l, Z.add_0_l, Hwrap by nia. done. }
    assert (Encode_step KmerWord_max alphabet s 1 (S (S k))
              (digit alphabet s 0 :: 0 :: replicate k 0, 0%nat) 1
            = ((digit alphabet s 0 * Size alphabet + digit alphabet s 1)
                 :: 0 :: replicate k 0, 1%nat)) as ->.
    { unfold Encode_step. cbn [lookup_total list_lookup_total insert list_insert].
      fold (digit alphabet s 1). rewrite Hwrap by nia. done. }
    unfold encodeOneState. cbn [seq fmap list_fmap app Nat.sub].
    by replace (k - 0 + 1)%nat with (S k) by lia.
  - rewrite seq_S, foldl_app, Nat.add_0_l, IH by lia. cbn [foldl].
    unfold encodeOneState, Encode_step.
    pose proof (Hdigit i Hs) as Hd.
    replace (k - i + 1)%nat with (S (k - i)) by lia. cbn [replicate].
    assert (length (digit alphabet s <$> seq 2 (i - 2)) = (i - 2)%nat) as Hlen
      by (by rewrite length_fmap, length_seq).
    set (front := digit alphabet s <$> seq 2 (i - 2)) in *.
    set (v := digit alphabet s 0 * Size alphabet + digit alphabet s 1).
    assert ((v :: front ++ 0 :: replicate (k - i) 0) !!! (i - 1)%nat = 0) as Hzero.
    { apply list_lookup_total_correct.
      replace (i - 1)%nat with (S (i - 2)) by lia.
      change ((front ++ 0 :: replicate (k - i) 0) !! (i - 2)%nat = Some 0).
      rewrite lookup_app_r by lia. by rewrite Hlen, Nat.sub_diag. }
    rewrite Hzero, Z.mul_0_l, Z.add_0_l. fold (digit alphabet s i).
    rewrite Hwrap by nia.
    replace ((0 <? i)%nat && (i mod 1 =? 1 - 1)%nat) with true; last first.
    { symmetry. apply andb_true_intro. split; [apply Nat.ltb_lt; lia|].
      by rewrite Nat.mod_1_r. }
    assert (<[(i - 1)%nat := digit alphabet s i]> (v :: front ++ 0 :: replicate (k - i) 0)
            = v :: (front ++ [digit alphabet s i]) ++ replicate (k - i) 0) as ->.
    { replace (i - 1)%nat with (S (length front + 0)) by lia.
      change (v :: <[(length front + 0)%nat := digit alphabet s i]>
                     (front ++ 0 :: replicate (k - i) 0)
              = v :: (front ++ [digit alphabet s i]) ++ replicate (k - i) 0).
      f_equal. rewrite insert_app_r. by rewrite <-app_assoc. }
    assert (front ++ [digit alphabet s i] = digit alphabet s <$> seq 2 (S i - 2)) as ->.
    { replace (S i - 2)%nat with (S (i - 2)) by lia. rewrite seq_S, fmap_app.
      subst front. simpl. do 3 f_equal. lia. }
    replace (S (i - 1)) with i by lia. replace (S i - 1)%nat with i by lia.
    replace (k - S i + 1)%nat with (k - i)%nat by lia.
    destruct (Nat.ltb_spec i k) as [Hlt|Hge]; [|done].
    f_equal. apply list_insert_id.
    change (v :: ?l) with ([v] ++ l). rewrite app_assoc.
    rewrite lookup_app_r; rewrite !length_app, length_fmap, length_seq; cbn [length]; [|lia].
    replace (i - (1 + (S i - 2)))%nat with 0%nat by lia.
    destruct (k - i)%nat eqn:Hk; [lia|done].
Qed.

End EncodeOne.

(** X25. At 1 character per word [Encode] does not write one symbol to
    each word: for a k-mer of two or more characters the first word holds
    the first two symbols, the following words hold the symbols from the
    third on, and the last word is 0. *)
Theorem Encode_at_one_char_per_word (KmerWord_max : Z) (a : Alphabet) (s : list Z) (k : nat) :
  0 < Size a <= 40 ->
  Size a * Size a <= KmerWord_max ->
  Forall (fun ch => 0 <= ch < 128) s ->
  (2 <= k)%nat ->
  Encode KmerWord_max a s k 1
  = (inverse a !!! Z.to_nat (s !!! 0%nat) * Size a + inverse a !!! Z.to_nat (s !!! 1%nat))
      :: ((fun i => inverse a !!! Z.to_nat (s !!! i)) <$> seq 2 (k - 2)) ++ [0].
Proof.
  intros Hsize Hfits Hs Hk. unfold Encode.
  rewrite (Encode_one_prefix KmerWord_max a Hsize Hfits s k k Hs) by lia.
  unfold encodeOneState. cbn [fst].
  by replace (k - k + 1)%nat with 1%nat by lia.
Qed.

(** X25, witness: the 3-mer [abb] over [ab]. *)
Lemma Encode_at_one_char_per_word_witness : Encode 65535 ab [97; 98; 98] 3 1 = [1; 1; 0].
Proof.
  apply (Encode_at_one_char_per_word 65535 ab [97; 98; 98] 3).
  - vm_compute. split; [reflexivity | discriminate].
  - vm_compute. discriminate.
  - repeat constructor; lia.
  - lia.
Defined.

(** ** The array of k-mers is only reordered *)



Section ReorderFacts.

Variable K : nat.
Variable threshold : Q.
Variable symbolCodeDist : list Z -> list Z -> nat -> Z.
Variable createPrototype : Kmer -> Kmer.
Variable rand : nat -> UnitDraw.

Local Abbreviation scanOne := (scanOne K threshold symbolCodeDist).
Local Abbreviation scanOne_banded := (scanOne_banded K threshold symbolCodeDist).
Local Abbreviation scanBand := (scanBand K threshold symbolCodeDist).
Local Abbreviation DoIncrementalClusteringParallel :=
  (DoIncrementalClusteringParallel K threshold symbolCodeDist createPrototype).
Local Abbreviation DoIncrementalClusteringParallel_banded :=
  (DoIncrementalClusteringParallel_banded K threshold symbolCodeDist createPrototype).
Local Abbreviation passLoop := (passLoop K threshold symbolCodeDist createPrototype).
Local Abbreviation passLoop_banded :=
  (passLoop_banded K threshold symbolCodeDist createPrototype).
Local Abbreviation filterOne_banded := (filterOne_banded K threshold symbolCodeDist).
Local Abbreviation setupBand := (setupBand K threshold symbolCodeDist rand).

(** *** The global variant *)


(** *** The banded variant *)









End ReorderFacts.



(** ** The code of a sequence and the codes of its k-mers *)

Section SequenceCode.

Variable KmerWord_max : Z.
Variable alphabet : Alphabet.

Hypothesis alphabet_small : 0 < Size alphabet <= 40.
Hypothesis word_fits : pw alphabet 3 <= KmerWord_max.

Lemma digit_drop (s : list Z) (p i : nat) :
  digit alphabet (drop p s) i = digit alphabet s (p + i).
Proof. unfold digit. by rewrite lookup_total_drop. Qed.

Lemma ascii7_drop (s : list Z) (p : nat) : ascii7 s -> ascii7 (drop p s).
Proof. apply Forall_drop. Qed.

(** The code word of the three characters from position [i] on. *)
Definition tripleCode (s : list Z) (i : nat) : Z :=
  (digit alphabet s i * Size alphabet + digit alphabet s (i + 1)) * Size alphabet
  + digit alphabet s (i + 2).

Lemma Encode_triple (s : list Z) (i : nat) :
  ascii7 s ->
  Encode KmerWord_max alphabet (drop i s) 3 3 !!! 0%nat = tripleCode s i.
Proof.
  intros Hs.
  destruct (Encode_words KmerWord_max alphabet alphabet_small word_fits (drop i s) 3
              (ascii7_drop s i Hs)) as [Hfull _].
  rewrite (Hfull 0%nat (Nat.div_str_pos 3 3 ltac:(lia))).
  unfold wordValue, tripleCode. rewrite !digit_drop.
  replace (i + 3 * 0)%nat with i by lia.
  replace (i + (3 * 0 + 1))%nat with (i + 1)%nat by lia.
  by replace (i + (3 * 0 + 2))%nat with (i + 2)%nat by lia.
Qed.

Lemma Encode_kmer_word (s : list Z) (pos k j : nat) :
  ascii7 s -> (j < k / 3)%nat ->
  Encode KmerWord_max alphabet (drop pos s) k 3 !!! j = tripleCode s (pos + 3 * j).
Proof.
  intros Hs Hj.
  destruct (Encode_words KmerWord_max alphabet alphabet_small word_fits (drop pos s) k
              (ascii7_drop s pos Hs)) as [Hfull _].
  rewrite (Hfull j Hj). unfold wordValue, tripleCode. rewrite !digit_drop.
  replace (pos + (3 * j + 1))%nat with (pos + 3 * j + 1)%nat by lia.
  by replace (pos + (3 * j + 2))%nat with (pos + 3 * j + 2)%nat by lia.
Qed.

(** The number of positions below [n] that leave the remainder [r]. *)
Definition rowLength (n r : nat) : nat := ((n + 2 - r) / 3)%nat.

Lemma rowLength_S (n r : nat) :
  (r < 3)%nat ->
  rowLength (S n) r = if decide (n mod 3 = r)%nat then S (rowLength n r) else rowLength n r.
Proof.
  intros Hr. unfold rowLength.
  pose proof (Nat.div_mod_eq n 3). pose proof (Nat.mod_upper_bound n 3).
  pose proof (Nat.div_mod_eq (n + 2 - r) 3). pose proof (Nat.mod_upper_bound (n + 2 - r) 3).
  pose proof (Nat.div_mod_eq (S n + 2 - r) 3).
  pose proof (Nat.mod_upper_bound (S n + 2 - r) 3).
  case_decide; lia.
Qed.

Lemma rowLength_mod (n : nat) : (n mod 3 + 3 * rowLength n (n mod 3) = n)%nat.
Proof.
  unfold rowLength.
  pose proof (Nat.div_mod_eq n 3). pose proof (Nat.mod_upper_bound n 3).
  pose proof (Nat.div_mod_eq (n + 2 - n mod 3) 3).
  pose proof (Nat.mod_upper_bound (n + 2 - n mod 3) 3).
  lia.
Qed.

(** The rows after the positions before [n]. *)
Lemma EncodeRows_prefix (s : list Z) (n r : nat) :
  ascii7 s -> (r < 3)%nat ->
  foldl (EncodeRows_step KmerWord_max alphabet s 3) (replicate 3 []) (seq 0 n) !! r
  = Some ((fun q => tripleCode s (r + 3 * q)) <$> seq 0 (rowLength n r)).
Proof.
  intros Hs Hr. induction n as [|n IH].
  - cbn [seq foldl]. rewrite lookup_replicate_2 by done.
    unfold rowLength. destruct r as [|[|[|r]]]; try lia; done.
  - rewrite seq_S, foldl_app, Nat.add_0_l. cbn [foldl].
    unfold EncodeRows_step at 1. rewrite Encode_triple by done.
    rewrite rowLength_S by done. case_decide as Hn.
    + subst r. rewrite list_lookup_alter_eq, IH. cbn [fmap option_fmap option_map].
      rewrite seq_S, fmap_app. cbn [fmap list_fmap]. rewrite Nat.add_0_l.
      pose proof (rowLength_mod n) as Hrow. by rewrite Hrow.
    + by rewrite list_lookup_alter_ne.
Qed.

Lemma EncodeRows_kmer (s : list Z) (k pos : nat) (code : list (list Z)) :
  ascii7 s -> (3 < k)%nat -> (pos + k <= length s)%nat ->
  EncodeRows KmerWord_max alphabet s (length s) k 3 = Some code ->
  (k mod 3 = 0)%nat /\
  take (k / 3) (GetEncodedKmer3 code pos) = Encode KmerWord_max alphabet (drop pos s) k 3.
Proof.
  intros Hs Hk Hpos. unfold EncodeRows.
  destruct (Nat.ltb_spec (length s + 1) k); [lia|].
  destruct (Nat.ltb_spec 3 k); [|lia].
  destruct (Nat.eqb_spec (k mod 3) 0) as [Hmod|]; [|done].
  cbn [negb]. intros [= <-]. split; [done|].
  pose proof (Nat.div_mod_eq k 3) as Hdm. pose proof (Nat.div_mod_eq pos 3) as Hpm.
  pose proof (Nat.mod_upper_bound pos 3 ltac:(lia)) as Hr.
  pose proof (EncodeRows_prefix s (length s - 3 + 1) (pos mod 3) Hs Hr) as Hrow.
  unfold GetEncodedKmer3. rewrite (list_lookup_total_correct _ _ _ Hrow).
  pose proof (Encode_inv KmerWord_max alphabet alphabet_small (drop pos s) k k word_fits
                (ascii7_drop s pos Hs) (le_n k)) as (Hlen & _).
  fold (Encode KmerWord_max alphabet (drop pos s) k 3) in Hlen.
  assert (WordsPerKmer k 3 = (k / 3)%nat) as Hwords.
  { unfold WordsPerKmer. pose proof (Nat.div_mod_eq (k + 3 - 1) 3).
    pose proof (Nat.mod_upper_bound (k + 3 - 1) 3). lia. }
  rewrite Hwords in Hlen.
  assert (pos / 3 + k / 3 <= rowLength (length s - 3 + 1) (pos mod 3))%nat as Hfit.
  { unfold rowLength.
    pose proof (Nat.div_mod_eq (length s - 3 + 1 + 2 - pos mod 3) 3).
    pose proof (Nat.mod_upper_bound (length s - 3 + 1 + 2 - pos mod 3) 3). lia. }
  apply list_eq. intros j.
  destruct (decide (j < k / 3)%nat) as [Hj|Hj].
  - rewrite lookup_take_lt by done. rewrite lookup_drop, list_lookup_fmap.
    rewrite lookup_seq_lt by lia. cbn [fmap option_fmap option_map].
    rewrite (list_lookup_lookup_total_lt (Encode _ _ _ _ _) j) by lia.
    rewrite Encode_kmer_word by done. do 2 f_equal. lia.
  - rewrite lookup_take_ge by lia. symmetry. apply lookup_ge_None. lia.
Qed.

End SequenceCode.

(** X27. The code of a sequence holds the codes of its k-mers: when a
    sequence is encoded at 3 characters per word for k-mers of a length
    [k > 3], the encoder returns only if [k] is a multiple of 3, and then
    the [k / 3] words that [GetEncodedKmer3] points to for a window inside
    the sequence are the code that [Encode] gives for the [k] characters of
    that window. *)
Theorem GetEncodedKmer3_is_the_code_of_the_kmer (KmerWord_max : Z) (a : Alphabet)
    (s : list Z) (k pos : nat) (code : list (list Z)) :
  0 < Size a <= 40 ->
  Size a * Size a * Size a <= KmerWord_max ->
  Forall (fun ch => 0 <= ch < 128) s ->
  (3 < k)%nat -> (pos + k <= length s)%nat ->
  EncodeRows KmerWord_max a s (length s) k 3 = Some code ->
  (k mod 3 = 0)%nat /\
  take (k / 3) (GetEncodedKmer3 code pos) = Encode KmerWord_max a (drop pos s) k 3.
Proof.
  intros Hsize Hfits Hs Hk Hpos Hcode.
  by apply (EncodeRows_kmer KmerWord_max a Hsize Hfits s k pos code).
Qed.

Lemma rowsAB_built : EncodeRows 65535 ab sequenceAB (length sequenceAB) 6 3 = Some rowsAB.
Proof. by vm_compute. Qed.

(** X27, witness: the 6-mer at position 1 of [abbabaab]. *)
Lemma GetEncodedKmer3_is_the_code_of_the_kmer_witness :
  (6 mod 3 = 0)%nat /\
  take (6 / 3) (GetEncodedKmer3 rowsAB 1) = Encode 65535 ab (drop 1 sequenceAB) 6 3.
Proof.
  apply (GetEncodedKmer3_is_the_code_of_the_kmer 65535 ab sequenceAB 6 1 rowsAB).
  - vm_compute. split; [reflexivity | discriminate].
  - vm_compute. discriminate.
  - repeat constructor; lia.
  - lia.
  - simpl. lia.
  - exact rowsAB_built.
Defined.

(** ** The records of the k-mer index and the codes of their texts *)







(** For k-mers that are not longer than a word the code of a sequence has
    one row, with the word of the window at [pos] at index [pos], while
    [GetEncodedKmer3] still looks for row [pos % 3] and index [pos / 3]: in
    the sequence [abbab], coded for 2-mers at 3 characters per word, the
    pointer for position 3, where the window shows [ab], is to the word of
    [bb], and the pointer for position 1 is into a row that the code does
    not have. *)
Lemma GetEncodedKmer_of_short_kmers :
  exists fasta,
    EncodedFastaSequence_new 65535 ab [97; 98; 98; 97; 98] 2 3 120 = Some fasta /\
    encoding2 fasta = [[1; 3; 2; 1]] /\
    Substring (Sequence fasta) 3 2 = [97; 98] /\
    Encode 65535 ab [97; 98] 2 3 = [1] /\
    Encode 65535 ab [98; 98] 2 3 = [3] /\
    take 1 (GetEncodedKmer fasta 3) = [3] /\
    (1 mod 3)%nat = 1%nat /\ encoding2 fasta !! 1%nat = None.
Proof. eexists. split; [by vm_compute|]. by vm_compute. Qed.
